(** * Weighted sparse interpolation and injection: symbolic equation builders

    A shallow embedding of [devito/operations/interpolators.py]:
    the deferred sparse operations ([UnevaluatedSparseOperation],
    [Interpolation], [Injection]) and the separable weighted interpolators
    ([WeightedInterpolation], [LinearInterpolator], [PrecomputedInterpolator]).

    The Python code builds SymPy expressions and lists of equations.  Here an
    expression is a term of the free algebra [expr]: constructors are kept as
    the code applies them (SymPy's automatic canonicalisation of sums and
    products is not modelled), and a Python exception is a [Raise] result. *)

From Stdlib Require Import ZArith QArith Qround Lqa List String Ascii Bool Lia.
From Stdlib Require Import DecimalString DecimalNat Finite.
Import ListNotations.

Set Implicit Arguments.
Set Warnings "-register-all".

Open Scope Z_scope.

(* ------------------------------------------------------------------ *)
(** ** Python primitives *)

Module Py.

(** Exceptions the modelled code can raise. *)
Inductive PyError : Type :=
| IndexError
| KeyError
| NotImplementedError.

Inductive result (A : Type) : Type :=
| Ok (a : A)
| Raise (e : PyError).

Arguments Ok {A} a.
Arguments Raise {A} e.

Definition bind {A B} (c : result A) (k : A -> result B) : result B :=
  match c with
  | Ok a => k a
  | Raise e => Raise e
  end.

(** A list comprehension whose body may raise: left to right, first error
    wins. *)
Fixpoint mapM {A B} (f : A -> result B) (l : list A) : result (list B) :=
  match l with
  | [] => Ok []
  | x :: xs =>
      bind (f x) (fun y => bind (mapM f xs) (fun ys => Ok (y :: ys)))
  end.

(** A [for] loop threading a state, whose body may raise. *)
Fixpoint foldM {A S} (f : S -> A -> result S) (l : list A) (s : S)
  : result S :=
  match l with
  | [] => Ok s
  | x :: xs => bind (f s x) (foldM f xs)
  end.

(** [range(a, b)]. *)
Definition range (a b : Z) : list Z :=
  map (fun i => a + Z.of_nat i) (seq 0 (Z.to_nat (b - a))).

(** [enumerate(l)]. *)
Definition enumerate {A} (l : list A) : list (nat * A) :=
  combine (seq 0 (List.length l)) l.

(** [zip(a, b)] is [List.combine]: it stops at the shorter argument. *)
Definition zip {A B} (a : list A) (b : list B) : list (A * B) := combine a b.

(** [itertools.product(pool, repeat=n)]: tuples in lexicographic order,
    the last component varying fastest. *)
Fixpoint product {A} (pool : list A) (n : nat) : list (list A) :=
  match n with
  | O => [[]]
  | S n' => flat_map (fun x => map (cons x) (product pool n')) pool
  end.

(** [l[i]] on a list, with Python's negative indices. *)
Definition getitem {A} (l : list A) (i : Z) : result A :=
  let n := Z.of_nat (List.length l) in
  let j := if i <? 0 then i + n else i in
  if (0 <=? j) && (j <? n) then
    match nth_error l (Z.to_nat j) with
    | Some x => Ok x
    | None => Raise IndexError
    end
  else Raise IndexError.

(** The position that [l[i]] reads in a list of length [n]. *)
Definition py_index (n : nat) (i : Z) : nat :=
  Z.to_nat (if i <? 0 then i + Z.of_nat n else i).

(** Dictionaries keep insertion order; assigning to a present key keeps its
    position. *)
Section Dict.
Variables K V : Type.
Variable K_eq_dec : forall a b : K, {a = b} + {a <> b}.

Definition dict := list (K * V).

Fixpoint dict_lookup (d : dict) (k : K) : option V :=
  match d with
  | [] => None
  | (k', v) :: d' => if K_eq_dec k' k then Some v else dict_lookup d' k
  end.

(** [d[k]] *)
Definition dict_get (d : dict) (k : K) : result V :=
  match dict_lookup d k with
  | Some v => Ok v
  | None => Raise KeyError
  end.

(** [d.get(k, default)] *)
Definition dict_get_default (d : dict) (k : K) (default : V) : V :=
  match dict_lookup d k with
  | Some v => v
  | None => default
  end.

(** [d[k] = v] *)
Fixpoint dict_set (d : dict) (k : K) (v : V) : dict :=
  match d with
  | [] => [(k, v)]
  | (k', v') :: d' =>
      if K_eq_dec k' k then (k', v) :: d' else (k', v') :: dict_set d' k v
  end.

(** [{k: v for (k, v) in kvs}] and dictionary displays. *)
Definition dict_of (kvs : list (K * V)) : dict :=
  fold_left (fun d kv => dict_set d (fst kv) (snd kv)) kvs [].

Definition dict_items (d : dict) : list (K * V) := d.
Definition dict_values (d : dict) : list V := map snd d.
End Dict.

(** [d[k].append(x)] for a dictionary of lists. *)
Definition dict_append {K V} (K_eq_dec : forall a b : K, {a = b} + {a <> b})
    (d : dict K (list V)) (k : K) (x : V) : result (dict K (list V)) :=
  bind (dict_get K_eq_dec d k) (fun l => Ok (dict_set K_eq_dec d k (l ++ [x]))).

End Py.

Import Py.

Declare Scope py_scope.
Notation "x <- c ;; k" := (bind c (fun x => k))
  (at level 61, c at next level, right associativity) : py_scope.
Notation "' pat <- c ;; k" := (bind c (fun pat => k))
  (at level 61, pat pattern, c at next level, right associativity) : py_scope.
Open Scope py_scope.

(* ------------------------------------------------------------------ *)
(** ** Symbolic expressions and equations

    The SymPy/Devito objects the interpolators build.  A [Dimension] is known
    by its name; its attributes [spacing], [symbolic_min] and [symbolic_max]
    are the atoms [Spacing d], [SymbolicMin d] and [SymbolicMax d]. *)

Module Symbolics.

Definition Dimension := string.

Inductive expr : Type :=
| Num (q : Q)                       (* a Python or SymPy number *)
| Sym (name : string)               (* Symbol(name=...) *)
| Dim (d : Dimension)               (* a Dimension used as an index *)
| Spacing (d : Dimension)           (* d.spacing *)
| SymbolicMin (d : Dimension)       (* d.symbolic_min *)
| SymbolicMax (d : Dimension)       (* d.symbolic_max *)
| CondDim (name : string) (parent : Dimension) (condition : expr)
    (* ConditionalDimension(name, parent, condition=..., indirect=True) *)
| Add (a b : expr)
| Sub (a b : expr)
| Mul (a b : expr)
| Div (a b : expr)
| Floor (a : expr)                  (* floor(a) *)
| INT (a : expr)                    (* INT(a): cast to an integer *)
| Ge (a b : expr)                   (* a >= b *)
| Le (a b : expr)                   (* a <= b *)
| And1 (a : expr)                   (* sympy.And(a, evaluate=False) *)
| And2 (a b : expr)                 (* sympy.And(a, b, evaluate=False) *)
| Access (f : string) (idx : list expr).
    (* a function carrier: the field [f] at the indices [idx] *)

Definition Q_eq_dec (a b : Q) : {a = b} + {a <> b}.
Proof. decide equality; [apply Pos.eq_dec | apply Z.eq_dec]. Defined.

(** Structural equality, the equality of dictionary keys. *)
Definition expr_eq_dec : forall a b : expr, {a = b} + {a <> b}.
Proof.
  fix IH 1.
  intros a b.
  decide equality;
    try apply string_dec; try apply Q_eq_dec; apply (list_eq_dec IH).
Defined.

(** [Eq(lhs, rhs, implicit_dims=...)] and its subclass
    [Inc(lhs, rhs, implicit_dims=...)]. *)
Inductive Equation : Type :=
| Eq (lhs rhs : expr) (implicit_dims : list Dimension)
| Inc (lhs rhs : expr) (implicit_dims : list Dimension).

Definition is_Inc (e : Equation) : bool :=
  match e with Inc _ _ _ => true | Eq _ _ _ => false end.

Definition eq_lhs (e : Equation) : expr :=
  match e with Eq l _ _ | Inc l _ _ => l end.

(** [e.xreplace(rule)]: top-down replacement of the sub-expressions that
    are keys of [rule].  Dimensions, conditional ones included, are atoms.
    [e.subs(rule)] is modelled by the same function: the rules the
    interpolators build replace dimensions by expressions in which no key
    occurs, where sequential and simultaneous substitution agree. *)
Fixpoint xreplace (rule : dict expr expr) (e : expr) : expr :=
  match dict_lookup expr_eq_dec rule e with
  | Some e' => e'
  | None =>
      match e with
      | Add a b => Add (xreplace rule a) (xreplace rule b)
      | Sub a b => Sub (xreplace rule a) (xreplace rule b)
      | Mul a b => Mul (xreplace rule a) (xreplace rule b)
      | Div a b => Div (xreplace rule a) (xreplace rule b)
      | Floor a => Floor (xreplace rule a)
      | INT a => INT (xreplace rule a)
      | Ge a b => Ge (xreplace rule a) (xreplace rule b)
      | Le a b => Le (xreplace rule a) (xreplace rule b)
      | And1 a => And1 (xreplace rule a)
      | And2 a b => And2 (xreplace rule a) (xreplace rule b)
      | Access f idx => Access f (map (xreplace rule) idx)
      | _ => e
      end
  end.

Definition subs (rule : dict expr expr) (e : expr) : expr := xreplace rule e.

(** Modelled from the spec: [prod] of [devito.tools] is not part of the
    modelled file; the combined weight is "the product of per-axis weights",
    here the factors multiplied from left to right onto 1. *)
Definition prod (l : list expr) : expr := fold_left Mul l (Num 1).

(** *** Meaning of scalar expressions and of conditions

    A valuation gives the run-time value of the atoms.  An indirect
    conditional dimension named [n] takes the value of the index symbol
    [n] it was created from. *)
Record valuation : Type := {
  val_sym : string -> Q;
  val_spacing : Dimension -> Q;
  val_min : Dimension -> Q;
  val_max : Dimension -> Q
}.

Definition lift2 (f : Q -> Q -> Q) (x y : option Q) : option Q :=
  match x, y with
  | Some a, Some b => Some (f a b)
  | _, _ => None
  end.

Fixpoint eval (rho : valuation) (e : expr) : option Q :=
  match e with
  | Num q => Some q
  | Sym n => Some (val_sym rho n)
  | Spacing d => Some (val_spacing rho d)
  | SymbolicMin d => Some (val_min rho d)
  | SymbolicMax d => Some (val_max rho d)
  | CondDim n _ _ => Some (val_sym rho n)
  | Add a b => lift2 Qplus (eval rho a) (eval rho b)
  | Sub a b => lift2 Qminus (eval rho a) (eval rho b)
  | Mul a b => lift2 Qmult (eval rho a) (eval rho b)
  | Div a b =>
      match eval rho a, eval rho b with
      | Some x, Some y => if Qeq_bool y 0 then None else Some (x / y)%Q
      | _, _ => None
      end
  | Floor a => option_map (fun x => inject_Z (Qfloor x)) (eval rho a)
  | INT a => option_map (fun x => inject_Z (Z.quot (Qnum x) (Zpos (Qden x)))) (eval rho a)
  | _ => None
  end.

Fixpoint holds (rho : valuation) (c : expr) : option bool :=
  match c with
  | Ge a b =>
      match eval rho a, eval rho b with
      | Some x, Some y => Some (Qle_bool y x)
      | _, _ => None
      end
  | Le a b =>
      match eval rho a, eval rho b with
      | Some x, Some y => Some (Qle_bool x y)
      | _, _ => None
      end
  | And1 a => holds rho a
  | And2 a b =>
      match holds rho a, holds rho b with
      | Some x, Some y => Some (x && y)
      | _, _ => None
      end
  | _ => None
  end.

(** Does the dimension [d] occur as an index in [e]?  A conditional
    dimension is an atom of its own. *)
Fixpoint mentions_dim (d : Dimension) (e : expr) : bool :=
  match e with
  | Dim d' => if string_dec d' d then true else false
  | Add a b | Sub a b | Mul a b | Div a b | Ge a b | Le a b | And2 a b =>
      mentions_dim d a || mentions_dim d b
  | Floor a | INT a | And1 a => mentions_dim d a
  | Access _ idx => existsb (mentions_dim d) idx
  | _ => false
  end.

End Symbolics.

Import Symbolics.

(* ------------------------------------------------------------------ *)
(** ** Collaborators read by the interpolators *)

(** Modelled from the spec: the [Grid] class is not part of the modelled
    file; "Grid: d axes, each with a minimum/maximum valid index and a
    spacing value".  [grid.dimensions] lists the axes and [grid.dim] is their
    number. *)
Record Grid : Type := { grid_dimensions : list Dimension }.

Definition grid_dim (g : Grid) : nat := List.length (grid_dimensions g).

(** The attributes of a sparse function that the interpolators read.
    [_point_symbols] is a tuple with per-dimension getters: iterating it
    yields its values, [_point_symbols[d]] looks [d] up.  [_position_map] is
    an ordered dictionary from position expressions to position symbols.
    [as_expr] is the sparse function itself, as the expression that
    [interpolate] writes to. *)
Module Sparse.
Record SparseFunction : Type := {
  name : string;
  r : Z;
  grid : Grid;
  dimensions : list Dimension;
  _point_symbols : dict Dimension expr;
  _position_map : dict expr expr;
  _coordinate_indices : list expr;
  _sparse_dim : Dimension;
  gridpoints : option expr;
  interpolation_coeffs : expr;
  interpolation_coeffs_dimensions : list Dimension;
  as_expr : expr
}.
End Sparse.

Abbreviation SparseFunction := Sparse.SparseFunction.

(** The class [WeightedInterpolation] and its two subclasses; a value is an
    instance of one of the three classes, and a method is resolved by a match
    on the class. *)
Inductive Interpolator : Type :=
| WeightedInterpolation (sfunction : SparseFunction)
| LinearInterpolator (sfunction : SparseFunction)
| PrecomputedInterpolator (sfunction : SparseFunction).

Definition sfunction (self : Interpolator) : SparseFunction :=
  match self with
  | WeightedInterpolation s | LinearInterpolator s
  | PrecomputedInterpolator s => s
  end.

(** ** [UnevaluatedSparseOperation], [Interpolation], [Injection]

    A callback returns a list of equations ([Eq] or its subclass [Inc]), so
    the assertion of [_evaluate] holds by typing. *)
Record UnevaluatedSparseOperation : Type := {
  interpolator : Interpolator;
  callback : unit -> result (list Equation)
}.

Inductive SparseOperation : Type :=
| Interpolation (expr : expr) (offset : Z) (increment : bool)
    (self_subs : dict Symbolics.expr Symbolics.expr)
    (base : UnevaluatedSparseOperation)
| Injection (field expr : expr) (offset : Z)
    (base : UnevaluatedSparseOperation).

Definition op_base (op : SparseOperation) : UnevaluatedSparseOperation :=
  match op with
  | Interpolation _ _ _ _ b | Injection _ _ _ b => b
  end.

Definition op_offset (op : SparseOperation) : Z :=
  match op with
  | Interpolation _ o _ _ _ | Injection _ _ o _ => o
  end.

Definition _evaluate (op : SparseOperation) : result (list Equation) :=
  callback (op_base op) tt.

(** ** [WeightedInterpolation] and its two subclasses *)

Definition grid (self : Interpolator) : Grid := Sparse.grid (sfunction self).

Definition _psym (self : Interpolator) : dict Dimension expr :=
  Sparse._point_symbols (sfunction self).

Definition _gdim (self : Interpolator) : list Dimension :=
  grid_dimensions (grid self).

(** [as_tuple(implicit_dims) + self.sfunction.dimensions]; the argument is
    given as a list ([None] is the empty list). *)
Definition implicit_dims (self : Interpolator) (implicit_dims : list Dimension)
  : list Dimension :=
  implicit_dims ++ Sparse.dimensions (sfunction self).

Definition r (self : Interpolator) : Z := Sparse.r (sfunction self).

Definition _interp_points (self : Interpolator) : list Z :=
  match self with
  | WeightedInterpolation _ | LinearInterpolator _ =>
      range (- r self + 1) (r self + 1)
  | PrecomputedInterpolator _ => range ((- r self) / 2 + 1) (r self / 2 + 1)
  end.

Definition _nd_points (self : Interpolator) : list (list Z) :=
  product (_interp_points self) (grid_dim (grid self)).

Definition _icoeffs (self : Interpolator) : expr :=
  Sparse.interpolation_coeffs (sfunction self).

Definition _idim (self : Interpolator) : result Dimension :=
  getitem (Sparse.interpolation_coeffs_dimensions (sfunction self)) (-1).

Definition _ddim (self : Interpolator) : result Dimension :=
  getitem (Sparse.interpolation_coeffs_dimensions (sfunction self)) 1.

Definition _weights (self : Interpolator) : result (dict Dimension (list expr)) :=
  match self with
  | WeightedInterpolation _ => Raise NotImplementedError
  | LinearInterpolator _ =>
      Ok (dict_of string_dec
            (map (fun dp : Dimension * expr =>
                    let (d, p) := dp in
                    (d, [Sub (Num 1) (Div p (Spacing d)); Div p (Spacing d)]))
                 (zip (_gdim self) (dict_values (_psym self)))))
  | PrecomputedInterpolator _ =>
      kvs <- mapM (fun did : nat * Dimension =>
                     let (di, d) := did in
                     ws <- mapM (fun k : Z =>
                                   ddim <- _ddim self ;;
                                   idim <- _idim self ;;
                                   Ok (subs (dict_of expr_eq_dec
                                               [(Dim ddim, Num (inject_Z (Z.of_nat di)));
                                                (Dim idim, Num (inject_Z k))])
                                            (_icoeffs self)))
                                (_interp_points self) ;;
                     Ok (d, ws))
                  (enumerate (_gdim self)) ;;
      Ok (dict_of string_dec kvs)
  end.

(** The [_weights] property is read inside the loop, once per factor. *)
Definition _interpolation_coeffs (self : Interpolator) : result (list expr) :=
  coeffs <- foldM (fun (coeffs : dict (list Z) expr) (p : list Z) =>
                     fs <- mapM (fun di : Dimension * Z =>
                                   let (d, i) := di in
                                   ws <- _weights self ;;
                                   wd <- dict_get string_dec ws d ;;
                                   getitem wd i)
                                (zip (_gdim self) p) ;;
                     Ok (dict_set (list_eq_dec Z.eq_dec) coeffs p (prod fs)))
                  (_nd_points self) [] ;;
  Ok (dict_values coeffs).

Definition _coeff_temps (self : Interpolator) (implicit_dims : list Dimension)
  : result (list Equation) :=
  match self with
  | LinearInterpolator s =>
      let pmap := dict_values (Sparse._position_map s) in
      mapM (fun dpos : Dimension * expr =>
              let (d, pos) := dpos in
              p <- dict_get string_dec (_psym self) d ;;
              Ok (Eq p (Sub pos (Mul (Spacing d)
                                     (INT (Floor (Div pos (Spacing d))))))
                     implicit_dims))
           (zip (_gdim self) pmap)
  | WeightedInterpolation _ | PrecomputedInterpolator _ => Ok []
  end.

Definition _positions (self : Interpolator) (implicit_dims : list Dimension)
  : list Equation :=
  let from_map s :=
    map (fun kv : expr * expr => let (k, v) := kv in Eq v k implicit_dims)
        (dict_items (Sparse._position_map s)) in
  match self with
  | WeightedInterpolation s | LinearInterpolator s => from_map s
  | PrecomputedInterpolator s =>
      match Sparse.gridpoints s with
      | None => from_map s
      | Some _ => []
      end
  end.

Definition subs_coords (self : Interpolator) (_expr : expr)
    (idx_subs : list (dict expr expr)) : result (list expr) :=
  coeffs <- _interpolation_coeffs self ;;
  Ok (map (fun bv : expr * dict expr expr =>
             let (b, v_sub) := bv in
             Mul (xreplace v_sub _expr) (xreplace v_sub b))
          (zip coeffs idx_subs)).

Definition subs_coords_eq (self : Interpolator) (field _expr : expr)
    (idx_subs : list (dict expr expr)) (implicit_dims : list Dimension)
  : result (list Equation) :=
  coeffs <- _interpolation_coeffs self ;;
  Ok (map (fun bv : expr * dict expr expr =>
             let (b, vsub) := bv in
             Inc (xreplace vsub field) (Mul (xreplace vsub _expr) b)
                 implicit_dims)
          (zip coeffs idx_subs)).

(** ['ii_%s_%s_%d' % (self.sfunction.name, d.name, ri)] *)
Definition ii_name (self : Interpolator) (d : Dimension) (ri : nat) : string :=
  ("ii_" ++ Sparse.name (sfunction self) ++ "_" ++ d ++ "_"
     ++ NilEmpty.string_of_uint (Nat.to_uint ri))%string.

(** The guard of the index symbol [p] along [d]. *)
Definition oob_condition (self : Interpolator) (d : Dimension) (p : expr) : expr :=
  let lb := And1 (Ge p (Sub (SymbolicMin d) (Num (inject_Z (r self))))) in
  let ub := And1 (Le p (Add (SymbolicMax d) (Num (inject_Z (r self))))) in
  And2 lb ub.

(** The state of the loops of [_interpolation_indices]: the dictionaries
    [points] and [mapper], and the list [temps]. *)
Definition indices_state : Type :=
  (dict Dimension (list expr) * dict Dimension (list expr) * list Equation)%type.

Section Operations.

(** The expression collaborator: [v.origin] of a function carrier,
    [retrieve_function_carriers], and the [evaluate] attribute of an
    expression ([None] when reading it raises [AttributeError]). *)
Variable origin : expr -> dict Dimension expr.
Variable retrieve_function_carriers : expr -> list expr.
Variable evaluate : expr -> option expr.

(** Body of the inner loop: one offset [r0] (the [ri]-th) of the axis [d]
    whose base position is [pos]. *)
Definition indices_step (self : Interpolator) (implicit_dims : list Dimension)
    (d : Dimension) (pos : expr) (st : indices_state) (rir : nat * Z)
  : result indices_state :=
  let '(points, mapper, temps) := st in
  let (ri, r0) := rir in
  let p := Sym (ii_name self d ri) in
  points <- dict_append string_dec points d p ;;
  let condition := oob_condition self d p in
  mapper <- dict_append string_dec mapper d
              (CondDim (ii_name self d ri) (Sparse._sparse_dim (sfunction self))
                       condition) ;;
  Ok (points, mapper,
      temps ++ [Eq p (Add pos (Num (inject_Z r0))) implicit_dims]).

(** The two nested loops of [_interpolation_indices], "Create positions and
    indices temporaries/indirections", from the state they start in. *)
Definition index_loops (self : Interpolator) (implicit_dims : list Dimension)
    (st : indices_state) : result indices_state :=
  let pmap := Sparse._coordinate_indices (sfunction self) in
  foldM (fun (st : indices_state) (didpos : (nat * Dimension) * expr) =>
           let '((di, d), pos) := didpos in
           foldM (indices_step self implicit_dims d pos)
                 (enumerate (_interp_points self)) st)
        (zip (enumerate (_gdim self)) pmap) st.

(** The substitution dictionary of the neighbor [p]. *)
Definition neighbor_subs (mapper : dict Dimension (list expr))
    (variables : list expr) (p : list Z) : result (dict expr expr) :=
  kvs <- mapM (fun v : expr =>
                 rule <- mapM (fun kcpi : (Dimension * list expr) * Z =>
                                 let '((k, c), pi) := kcpi in
                                 g <- getitem c pi ;;
                                 Ok (Dim k,
                                     Sub g (dict_get_default string_dec
                                              (origin v) k (Num 0))))
                              (zip (dict_items mapper) p) ;;
                 Ok (v, subs (dict_of expr_eq_dec rule) v))
              variables ;;
  Ok (dict_of expr_eq_dec kvs).

Definition _interpolation_indices (self : Interpolator) (variables : list expr)
    (offset : Z) (field_offset : dict Dimension expr)
    (implicit_dims : list Dimension)
  : result (list (dict expr expr) * list Equation) :=
  let points := dict_of string_dec (map (fun d => (d, [])) (_gdim self)) in
  let mapper := dict_of string_dec (map (fun d => (d, [])) (_gdim self)) in
  let temps := _positions self implicit_dims in
  coeff_temps <- _coeff_temps self implicit_dims ;;
  let temps := temps ++ coeff_temps in
  st <- index_loops self implicit_dims (points, mapper, temps) ;;
  let '(points, mapper, temps) := st in
  idx_subs <- mapM (neighbor_subs mapper variables) (_nd_points self) ;;
  Ok (idx_subs, temps).

Definition interpolate_callback (self : Interpolator) (expr : expr)
    (offset : Z) (increment : bool) (self_subs : dict Symbolics.expr Symbolics.expr)
    (implicit_dims : list Dimension) (_ : unit) : result (list Equation) :=
  let _expr := match evaluate expr with Some e => e | None => expr end in
  let variables := retrieve_function_carriers _expr in
  v0 <- getitem variables 0 ;;
  let field_offset := origin v0 in
  '(idx_subs, temps) <- _interpolation_indices self variables offset
                          field_offset implicit_dims ;;
  args <- subs_coords self _expr idx_subs ;;
  let rhs := Sym "sum" in
  let summands :=
    [Eq rhs (Num 0) implicit_dims]
      ++ map (fun i => Inc rhs i implicit_dims) args in
  let lhs := subs self_subs (Sparse.as_expr (sfunction self)) in
  let ecls := if increment then Inc else Eq in
  let last := [ecls lhs rhs implicit_dims] in
  Ok (temps ++ summands ++ last).

Definition interpolate (self : Interpolator) (expr : expr) (offset : Z)
    (increment : bool) (self_subs : dict Symbolics.expr Symbolics.expr)
    (implicit_dims0 : list Dimension) : SparseOperation :=
  let implicit_dims := implicit_dims self implicit_dims0 in
  Interpolation expr offset increment self_subs
    {| interpolator := self;
       callback := interpolate_callback self expr offset increment self_subs
                     implicit_dims |}.

Definition inject_callback (self : Interpolator) (field expr : expr)
    (offset : Z) (implicit_dims : list Dimension) (_ : unit)
  : result (list Equation) :=
  let _expr := match evaluate expr with Some e => e | None => expr end in
  let variables := retrieve_function_carriers _expr ++ [field] in
  let field_offset := origin field in
  '(idx_subs, temps) <- _interpolation_indices self variables offset
                          field_offset implicit_dims ;;
  eqns <- subs_coords_eq self field _expr idx_subs implicit_dims ;;
  Ok (temps ++ eqns).

Definition inject (self : Interpolator) (field expr : expr) (offset : Z)
    (implicit_dims0 : list Dimension) : SparseOperation :=
  let implicit_dims := implicit_dims self implicit_dims0 in
  Injection field expr offset
    {| interpolator := self;
       callback := inject_callback self field expr offset implicit_dims |}.

End Operations.

(* ------------------------------------------------------------------ *)
(** ** Combining deferred operations *)

(** What a Python list handed to the compiler may hold: a deferred
    operation, an equation, or a nested list. *)
Inductive item : Type :=
| ItemOp (op : SparseOperation)
| ItemEq (e : Equation)
| ItemList (l : list item).

(** Modelled from the spec: [flatten] of [devito.tools] is not part of the
    modelled file; "combine(a, b) = flatten([a, b])", an "order-preserving,
    flattening operator" that turns a hierarchy of nested lists into a plain
    list.  Only lists are iterated; a deferred operation is an element. *)
Fixpoint flatten_item (el : item) : list item :=
  match el with
  | ItemList sub => flat_map flatten_item sub
  | _ => [el]
  end.

Definition flatten (l : list item) : list item := flat_map flatten_item l.

(** [UnevaluatedSparseOperation.__add__] and [__radd__]. *)
Definition __add__ (self : SparseOperation) (other : item) : list item :=
  flatten [ItemOp self; other].

Definition __radd__ (self : SparseOperation) (other : item) : list item :=
  flatten [other; ItemOp self].

(** Python's dispatch of [a + b]: the left operand's [__add__] when it is a
    deferred operation, list concatenation for two lists, and otherwise the
    right operand's [__radd__]; [None] is a [TypeError]. *)
Definition py_add (a b : item) : option (list item) :=
  match a, b with
  | ItemOp x, _ => Some (__add__ x b)
  | ItemList l1, ItemList l2 => Some (l1 ++ l2)
  | _, ItemOp y => Some (__radd__ y a)
  | _, _ => None
  end.

(** Modelled from the spec: forcing a combined list is done by the compiler,
    which is not part of the modelled file; it "forces each element in order
    and flattens". *)
Fixpoint force_item (el : item) : result (list Equation) :=
  match el with
  | ItemOp op => _evaluate op
  | ItemEq e => Ok [e]
  | ItemList sub => ls <- mapM force_item sub ;; Ok (List.concat ls)
  end.

Definition force (l : list item) : result (list Equation) :=
  ls <- mapM force_item l ;; Ok (List.concat ls).

(* ------------------------------------------------------------------ *)
(** ** Closed forms used in the statements *)

(** The index symbols, guarded dimensions and defining equations that
    [_interpolation_indices] creates for the axis [d]. *)
Definition index_symbol (self : Interpolator) (d : Dimension) (ri : nat) : expr :=
  Sym (ii_name self d ri).

Definition guarded_dimension (self : Interpolator) (d : Dimension) (ri : nat)
  : expr :=
  CondDim (ii_name self d ri) (Sparse._sparse_dim (sfunction self))
          (oob_condition self d (index_symbol self d ri)).

Definition axis_guards (self : Interpolator) (d : Dimension) : list expr :=
  map (fun rir : nat * Z => guarded_dimension self d (fst rir))
      (enumerate (_interp_points self)).

Definition axis_symbols (self : Interpolator) (d : Dimension) : list expr :=
  map (fun rir : nat * Z => index_symbol self d (fst rir))
      (enumerate (_interp_points self)).

Definition index_equation (self : Interpolator) (implicit_dims : list Dimension)
    (d : Dimension) (pos : expr) (ri : nat) (r0 : Z) : Equation :=
  Eq (index_symbol self d ri) (Add pos (Num (inject_Z r0))) implicit_dims.

Definition axis_equations (self : Interpolator) (implicit_dims : list Dimension)
    (d : Dimension) (pos : expr) : list Equation :=
  map (fun rir : nat * Z =>
         index_equation self implicit_dims d pos (fst rir) (snd rir))
      (enumerate (_interp_points self)).

Definition index_equations (self : Interpolator) (implicit_dims : list Dimension)
  : list Equation :=
  flat_map (fun dpos : Dimension * expr =>
              axis_equations self implicit_dims (fst dpos) (snd dpos))
           (zip (_gdim self) (Sparse._coordinate_indices (sfunction self))).

(** The mapper once the loops are over, when every axis has a base
    position. *)
Definition full_mapper (self : Interpolator) : dict Dimension (list expr) :=
  map (fun d => (d, axis_guards self d)) (_gdim self).

(** One factor of a combined weight, and the combined weight of the
    neighbor [p]. *)
Definition weight_at (self : Interpolator) (di : Dimension * Z) : result expr :=
  let (d, i) := di in
  ws <- _weights self ;;
  wd <- dict_get string_dec ws d ;;
  getitem wd i.

Definition neighbor_coeff (self : Interpolator) (p : list Z) : result expr :=
  fs <- mapM (weight_at self) (zip (_gdim self) p) ;;
  Ok (prod fs).

(** Sum of the values of a list of scalar expressions. *)
Fixpoint sum_eval (rho : valuation) (l : list expr) : option Q :=
  match l with
  | [] => Some 0%Q
  | e :: l' => lift2 Qplus (eval rho e) (sum_eval rho l')
  end.

(* ------------------------------------------------------------------ *)
(** ** A concrete setting

    A two-dimensional grid over [x] and [y], a sparse function [src] of
    radius 1 for the linear scheme and one of radius 4 with a coefficient
    table for the precomputed scheme, and a field [u]. *)

Module Example.
Local Open Scope string_scope.

Definition grid2 : Grid := {| grid_dimensions := ["x"; "y"] |}.

Definition u : expr := Access "u" [Dim "time"; Dim "x"; Dim "y"].

Definition coords (k : Z) : expr :=
  Access "src_coords" [Dim "p_src"; Num (inject_Z k)].

Definition base_cell (pos : string) (d : Dimension) : expr :=
  INT (Floor (Div (Sym pos) (Spacing d))).

Definition src (radius : Z) (gp : option expr) : SparseFunction :=
  {| Sparse.name := "src";
     Sparse.r := radius;
     Sparse.grid := grid2;
     Sparse.dimensions := ["p_src"];
     Sparse._point_symbols := [("x", Sym "px"); ("y", Sym "py")];
     Sparse._position_map := [(coords 0, Sym "posx"); (coords 1, Sym "posy")];
     Sparse._coordinate_indices := [base_cell "posx" "x"; base_cell "posy" "y"];
     Sparse._sparse_dim := "p_src";
     Sparse.gridpoints := gp;
     Sparse.interpolation_coeffs :=
       Access "src_coeffs" [Dim "p_src"; Dim "d"; Dim "i"];
     Sparse.interpolation_coeffs_dimensions :=
       ["p_src"; "d"; "i"];
     Sparse.as_expr := Access "src" [Dim "time"; Dim "p_src"] |}.

Definition linear : Interpolator := LinearInterpolator (src 1 None).
Definition linear_r2 : Interpolator := LinearInterpolator (src 2 None).
Definition precomputed : Interpolator := PrecomputedInterpolator (src 4 None).

(** The expression collaborator of the setting: no staggering, carriers
    are the field accesses of the expression, and plain expressions have
    no [evaluate] attribute. *)
Definition origin (_ : expr) : dict Dimension expr := [].

Fixpoint carriers (e : expr) : list expr :=
  match e with
  | Access _ _ => [e]
  | Add a b | Sub a b | Mul a b | Div a b | Ge a b | Le a b | And2 a b =>
      (carriers a ++ carriers b)%list
  | Floor a | INT a | And1 a => carriers a
  | _ => []
  end.

Definition retrieve_function_carriers (e : expr) : list expr :=
  nodup expr_eq_dec (carriers e).

Definition evaluate (_ : expr) : option expr := None.

(** A point at local coordinate (0.3, 0.7) of a grid of spacing 1. *)
Definition rho : valuation :=
  {| val_sym := fun n =>
       if string_dec n "px" then (3 # 10)%Q
       else if string_dec n "py" then (7 # 10)%Q else 0%Q;
     val_spacing := fun _ => 1%Q;
     val_min := fun _ => 0%Q;
     val_max := fun _ => 10%Q |}.

Definition interpolation : SparseOperation :=
  interpolate origin retrieve_function_carriers evaluate
    linear u 0 false [] [].

Definition injection : SparseOperation :=
  inject origin retrieve_function_carriers evaluate
    linear u (Sym "v") 0 [].

End Example.

(** The two weights of the linear scheme along [d], for the local position
    symbol [p]. *)
Definition linear_axis_weights (d : Dimension) (p : expr) : list expr :=
  [Sub (Num 1) (Div p (Spacing d)); Div p (Spacing d)].

(** The table lookups of the precomputed scheme along the [di]-th axis. *)
Definition precomputed_axis_weights (self : Interpolator) (ddim idim : Dimension)
    (di : nat) : list expr :=
  map (fun k : Z =>
         subs (dict_of expr_eq_dec
                 [(Dim ddim, Num (inject_Z (Z.of_nat di)));
                  (Dim idim, Num (inject_Z k))])
              (_icoeffs self))
      (_interp_points self).

(** The offset whose guarded dimension and weight the component [i] of a
    neighbor tuple selects: both per-axis lists follow [_interp_points] and
    both are read at the list position [i]. *)
Definition selected_position (self : Interpolator) (i : Z) : nat :=
  py_index (List.length (_interp_points self)) i.

Section Rules.
Variable origin : expr -> dict Dimension expr.

(** The rule replacing the grid dimensions in the carrier [v], for the
    neighbor [p]. *)
Definition neighbor_rule (self : Interpolator) (v : expr) (p : list Z)
  : dict expr expr :=
  dict_of expr_eq_dec
    (map (fun kpi : Dimension * Z =>
            (Dim (fst kpi),
             Sub (guarded_dimension self (fst kpi)
                    (selected_position self (snd kpi)))
                 (dict_get_default string_dec (origin v) (fst kpi) (Num 0))))
         (zip (_gdim self) p)).

Definition neighbor_dict (self : Interpolator) (variables : list expr)
    (p : list Z) : dict expr expr :=
  dict_of expr_eq_dec
    (map (fun v => (v, subs (neighbor_rule self v p) v)) variables).
End Rules.

(** ** Guarded accesses *)

(** No dimension of [dims] occurs as an index in [e]. *)
Definition dims_free (dims : list Dimension) (e : expr) : Prop :=
  forall d, In d dims -> mentions_dim d e = false.

(** Every occurrence of a dimension of [dims] in [e] lies inside one of the
    carriers [vars]. *)
Fixpoint covered (vars : list expr) (dims : list Dimension) (e : expr) : bool :=
  if in_dec expr_eq_dec e vars then true
  else
    match e with
    | Dim d => if in_dec string_dec d dims then false else true
    | Add a b | Sub a b | Mul a b | Div a b | Ge a b | Le a b | And2 a b =>
        covered vars dims a && covered vars dims b
    | Floor a | INT a | And1 a => covered vars dims a
    | Access _ idx => forallb (covered vars dims) idx
    | _ => true
    end.

(** The output of the index builder in the concrete setting. *)
Definition example_indices : list (dict expr expr) * list Equation :=
  Eval vm_compute in
    match _interpolation_indices Example.origin Example.linear [Example.u]
            0 [] [] with
    | Ok x => x
    | Raise _ => ([], [])
    end.

(** ** Closed forms of the per-neighbor equations *)

Section Summands.
Variable origin : expr -> dict Dimension expr.

(** The contribution of the neighbor [p], of combined weight [b], to an
    interpolation of [_expr]. *)
Definition interpolate_summand (self : Interpolator) (variables : list expr)
    (_expr : expr) (bp : expr * list Z) : expr :=
  let vsub := neighbor_dict origin self variables (snd bp) in
  Mul (xreplace vsub _expr) (xreplace vsub (fst bp)).

(** The increment of [field] at the neighbor [p], of combined weight [b],
    by an injection of [_expr]. *)
Definition inject_increment (self : Interpolator) (variables : list expr)
    (field _expr : expr) (implicit_dims : list Dimension) (bp : expr * list Z)
  : Equation :=
  let vsub := neighbor_dict origin self variables (snd bp) in
  Inc (xreplace vsub field) (Mul (xreplace vsub _expr) (fst bp)) implicit_dims.
End Summands.

(** The temporaries that precede the per-neighbor equations. *)
Definition index_temporaries (self : Interpolator) (implicit_dims : list Dimension)
    (coeff_temps : list Equation) : list Equation :=
  _positions self implicit_dims ++ coeff_temps
    ++ index_equations self implicit_dims.

(** The equations of the interpolation and of the injection of the concrete
    setting. *)
Definition example_interpolation_eqs : list Equation :=
  Eval vm_compute in
    match _evaluate Example.interpolation with Ok l => l | Raise _ => [] end.

Definition example_injection_eqs : list Equation :=
  Eval vm_compute in
    match _evaluate Example.injection with Ok l => l | Raise _ => [] end.

(** An element that is not a list. *)
Definition is_atom (el : item) : bool :=
  match el with ItemList _ => false | _ => true end.

(** ** Closed form of the linear weights *)

(** The grid axes paired with their local position symbols, as [_weights]
    zips them. *)
Definition axes (self : Interpolator) : list (Dimension * expr) :=
  zip (_gdim self) (dict_values (_psym self)).

(** The weight that the component [i] of a neighbor tuple selects on the
    axis [dp] of the linear scheme. *)
Definition linear_pick (dpi : (Dimension * expr) * Z) : expr :=
  nth (Z.to_nat (snd dpi))
      (linear_axis_weights (fst (fst dpi)) (snd (fst dpi))) (Num 0).

Definition linear_coeff (self : Interpolator) (t : list Z) : expr :=
  prod (map linear_pick (zip (axes self) t)).

(* ------------------------------------------------------------------ *)
(** ** Further observations on equations and names *)

Definition eq_rhs (e : Equation) : expr :=
  match e with Eq _ r _ | Inc _ r _ => r end.

Definition eq_implicit_dims (e : Equation) : list Dimension :=
  match e with Eq _ _ ds | Inc _ _ ds => ds end.

(** Does the character [c] occur in [s]? *)
Fixpoint occurs (c : ascii) (s : string) : bool :=
  match s with
  | EmptyString => false
  | String c' s' => if ascii_dec c' c then true else occurs c s'
  end.

(** Further settings: the same sparse function under another name, on a
    grid without axes, and handled by the base class. *)
Module Edge.
Local Open Scope string_scope.

Definition named (n : string) : SparseFunction :=
  {| Sparse.name := n;
     Sparse.r := 1;
     Sparse.grid := Example.grid2;
     Sparse.dimensions := ["p_src"];
     Sparse._point_symbols := [("x", Sym "px"); ("y", Sym "py")];
     Sparse._position_map :=
       [(Example.coords 0, Sym "posx"); (Example.coords 1, Sym "posy")];
     Sparse._coordinate_indices :=
       [Example.base_cell "posx" "x"; Example.base_cell "posy" "y"];
     Sparse._sparse_dim := "p_src";
     Sparse.gridpoints := None;
     Sparse.interpolation_coeffs :=
       Access "src_coeffs" [Dim "p_src"; Dim "d"; Dim "i"];
     Sparse.interpolation_coeffs_dimensions := ["p_src"; "d"; "i"];
     Sparse.as_expr := Access "src" [Dim "time"; Dim "p_src"] |}.

(** A sparse function of radius [radius] whose coefficient table has the
    dimensions [table_dims]. *)
Definition tabulated (radius : Z) (gp : option expr)
    (table_dims : list Dimension) : SparseFunction :=
  {| Sparse.name := "src";
     Sparse.r := radius;
     Sparse.grid := Example.grid2;
     Sparse.dimensions := ["p_src"];
     Sparse._point_symbols := [("x", Sym "px"); ("y", Sym "py")];
     Sparse._position_map :=
       [(Example.coords 0, Sym "posx"); (Example.coords 1, Sym "posy")];
     Sparse._coordinate_indices :=
       [Example.base_cell "posx" "x"; Example.base_cell "posy" "y"];
     Sparse._sparse_dim := "p_src";
     Sparse.gridpoints := gp;
     Sparse.interpolation_coeffs :=
       Access "src_coeffs" (map Dim table_dims);
     Sparse.interpolation_coeffs_dimensions := table_dims;
     Sparse.as_expr := Access "src" [Dim "time"; Dim "p_src"] |}.

(** A point on a grid node: both local positions are 0. *)
Definition on_node : valuation :=
  {| val_sym := fun _ => 0%Q;
     val_spacing := fun _ => 1%Q;
     val_min := fun _ => 0%Q;
     val_max := fun _ => 10%Q |}.

(** A point whose positions are 2.3 and 5.7, on a grid of spacing 1. *)
Definition positioned : valuation :=
  {| val_sym := fun n =>
       if string_dec n "posx" then (23 # 10)%Q
       else if string_dec n "posy" then (57 # 10)%Q else 0%Q;
     val_spacing := fun _ => 1%Q;
     val_min := fun _ => 0%Q;
     val_max := fun _ => 10%Q |}.

(** A sparse function with a base position for the first axis only. *)
Definition first_axis_only (radius : Z) : SparseFunction :=
  {| Sparse.name := "src";
     Sparse.r := radius;
     Sparse.grid := Example.grid2;
     Sparse.dimensions := ["p_src"];
     Sparse._point_symbols := [("x", Sym "px"); ("y", Sym "py")];
     Sparse._position_map :=
       [(Example.coords 0, Sym "posx"); (Example.coords 1, Sym "posy")];
     Sparse._coordinate_indices := [Example.base_cell "posx" "x"];
     Sparse._sparse_dim := "p_src";
     Sparse.gridpoints := None;
     Sparse.interpolation_coeffs :=
       Access "src_coeffs" [Dim "p_src"; Dim "d"; Dim "i"];
     Sparse.interpolation_coeffs_dimensions := ["p_src"; "d"; "i"];
     Sparse.as_expr := Access "src" [Dim "time"; Dim "p_src"] |}.

(** The field read one grid point further along [x], as the evaluation of
    a derivative leaves it. *)
Definition u_shifted : expr :=
  Access "u" [Dim "time"; Add (Dim "x") (Spacing "x"); Dim "y"].

(** The second index of the [x] axis sits on the upper bound of the guarded
    range of a grid whose [x] runs from 0 to 10, with spacing 1. *)
Definition upper_halo : valuation :=
  {| val_sym := fun n => if string_dec n "ii_src_x_1" then 11%Q else 0%Q;
     val_spacing := fun _ => 1%Q;
     val_min := fun _ => 0%Q;
     val_max := fun _ => 10%Q |}.

End Edge.

(** ** Conditional dimensions inside expressions *)

(** The conditional dimensions that occur in [e], the indices of its
    accesses included.  A conditional dimension is an atom: its condition
    is not searched. *)
Fixpoint conditional_dimensions (e : expr) : list expr :=
  match e with
  | CondDim _ _ _ => [e]
  | Add a b | Sub a b | Mul a b | Div a b | Ge a b | Le a b | And2 a b =>
      conditional_dimensions a ++ conditional_dimensions b
  | Floor a | INT a | And1 a => conditional_dimensions a
  | Access _ idx => flat_map conditional_dimensions idx
  | _ => []
  end.

(** [c] is one of the guarded dimensions that the index builder creates:
    that of an axis of the grid and of a position of the offset range. *)
Definition is_guarded_dimension (self : Interpolator) (c : expr) : Prop :=
  exists j d ri off,
    nth_error (_gdim self) j = Some d
    /\ nth_error (_interp_points self) ri = Some off
    /\ c = guarded_dimension self d ri.

(** No grid dimension is left in [e], and every conditional dimension in it
    is a guarded dimension of the index builder. *)
Definition guarded_access (self : Interpolator) (e : expr) : Prop :=
  dims_free (_gdim self) e
  /\ Forall (is_guarded_dimension self) (conditional_dimensions e).

(** ** Carriers inside expressions *)

(** Is [e] a function carrier? *)
Definition is_access (e : expr) : bool :=
  match e with Access _ _ => true | _ => false end.

(** No function carrier occurs in [e], down to where [xreplace] descends. *)
Fixpoint access_free (e : expr) : bool :=
  match e with
  | Access _ _ => false
  | Add a b | Sub a b | Mul a b | Div a b | Ge a b | Le a b | And2 a b =>
      access_free a && access_free b
  | Floor a | INT a | And1 a => access_free a
  | _ => true
  end.


(** An expression without grid dimension and without conditional
    dimension. *)
Definition plain (self : Interpolator) (e : expr) : Prop :=
  dims_free (_gdim self) e /\ conditional_dimensions e = [].

(** The expressions that the sparse function brings along are plain: its
    position map, its base positions, its local position symbols and its
    coefficient table. *)
Definition sparse_data_plain (self : Interpolator) : Prop :=
  (forall kv, In kv (Sparse._position_map (sfunction self)) ->
              plain self (fst kv) /\ plain self (snd kv))
  /\ Forall (plain self) (Sparse._coordinate_indices (sfunction self))
  /\ (forall dp, In dp (_psym self) -> plain self (snd dp))
  /\ plain self (_icoeffs self).

(** Both sides of an equation are accessed through guarded dimensions
    only. *)
Definition guarded_equation (self : Interpolator) (e : Equation) : Prop :=
  guarded_access self (eq_lhs e) /\ guarded_access self (eq_rhs e).


(* ================================================================== *)
(** * Properties *)

Unset Implicit Arguments.

(** ** Lists, ranges and products *)

Section PyFacts.
Context {A B : Type}.

Lemma mapM_ok_map (f : A -> result B) (g : A -> B) (l : list A) :
  (forall x, In x l -> f x = Ok (g x)) -> mapM f l = Ok (map g l).
Proof.
  induction l as [|x xs IH]; intros H; simpl; [reflexivity|].
  rewrite (H x (or_introl eq_refl)); simpl.
  rewrite IH; [reflexivity|]. intros y Hy. apply H. now right.
Qed.

Lemma mapM_ok_length (f : A -> result B) (l : list A) (ys : list B) :
  mapM f l = Ok ys -> List.length ys = List.length l.
Proof.
  revert ys. induction l as [|x xs IH]; intros ys; simpl.
  - intros [= <-]. reflexivity.
  - destruct (f x) as [y|e]; simpl; [|discriminate].
    destruct (mapM f xs) as [ys'|e]; simpl; [|discriminate].
    intros [= <-]. simpl. now rewrite (IH ys' eq_refl).
Qed.

Lemma mapM_ok_Forall2 (f : A -> result B) (l : list A) (ys : list B) :
  mapM f l = Ok ys -> Forall2 (fun x y => f x = Ok y) l ys.
Proof.
  revert ys. induction l as [|x xs IH]; intros ys; simpl.
  - intros [= <-]. constructor.
  - destruct (f x) as [y|e] eqn:Hx; simpl; [|discriminate].
    destruct (mapM f xs) as [ys'|e]; simpl; [|discriminate].
    intros [= <-]. constructor; auto.
Qed.

Lemma mapM_ok_nth (f : A -> result B) (l : list A) (ys : list B) k x :
  mapM f l = Ok ys -> nth_error l k = Some x ->
  exists y, nth_error ys k = Some y /\ f x = Ok y.
Proof.
  intros H. apply mapM_ok_Forall2 in H. revert k.
  induction H as [|a b l' ys' Hab _ IH]; intros k Hk.
  - destruct k; discriminate.
  - destruct k as [|k]; simpl in *.
    + injection Hk as <-. eauto.
    + auto.
Qed.

End PyFacts.

Lemma range_length a b : List.length (range a b) = Z.to_nat (b - a).
Proof. unfold range. now rewrite length_map, length_seq. Qed.

Lemma range_In a b x : In x (range a b) <-> a <= x < b.
Proof.
  unfold range. rewrite in_map_iff. split.
  - intros (i & <- & Hi). apply in_seq in Hi. lia.
  - intros H. exists (Z.to_nat (x - a)). split; [lia|]. apply in_seq. lia.
Qed.

Lemma range_NoDup a b : NoDup (range a b).
Proof.
  unfold range. apply Injective_map_NoDup; [|apply seq_NoDup].
  intros i j H. lia.
Qed.

Lemma enumerate_length {A} (l : list A) :
  List.length (enumerate l) = List.length l.
Proof. unfold enumerate. rewrite length_combine, length_seq. lia. Qed.

Lemma combine_seq_nth {A} (l : list A) s k x :
  nth_error l k = Some x ->
  nth_error (combine (seq s (List.length l)) l) k = Some ((s + k)%nat, x).
Proof.
  revert s k. induction l as [|y l IH]; intros s k H; [destruct k; discriminate|].
  destruct k as [|k]; simpl in *.
  - injection H as ->. now rewrite Nat.add_0_r.
  - rewrite (IH (S s) k H). do 2 f_equal. lia.
Qed.

Lemma enumerate_nth {A} (l : list A) k x :
  nth_error l k = Some x -> nth_error (enumerate l) k = Some (k, x).
Proof. intros H. unfold enumerate. now rewrite (combine_seq_nth l 0 k x H). Qed.

Lemma product_length {A} (pool : list A) n :
  List.length (product pool n) = (List.length pool ^ n)%nat.
Proof.
  induction n as [|n IH]; simpl; [reflexivity|].
  induction pool as [|x xs IHp] in IH |- *; simpl; [reflexivity|].
  rewrite length_app, length_map. simpl in IH.
  generalize dependent (product (x :: xs) n). intros tuples Ht.
  assert (Hflat : forall l : list A,
             List.length (flat_map (fun y => map (cons y) tuples) l)
             = (List.length l * List.length tuples)%nat).
  { induction l as [|y l IHl]; simpl; [reflexivity|].
    now rewrite length_app, length_map, IHl. }
  rewrite Hflat, Ht. reflexivity.
Qed.

Lemma product_In {A} (pool : list A) n (t : list A) :
  In t (product pool n) <-> List.length t = n /\ Forall (fun x => In x pool) t.
Proof.
  revert t. induction n as [|n IH]; intros t; simpl.
  - split.
    + intros [<-|[]]. split; [reflexivity | constructor].
    + intros [Hl _]. destruct t; [now left | discriminate].
  - rewrite in_flat_map. split.
    + intros (x & Hx & Ht). apply in_map_iff in Ht as (t' & <- & Ht').
      apply IH in Ht' as [Hl Hf]. split; [simpl; lia | now constructor].
    + intros [Hl Hf]. destruct t as [|x t']; [discriminate|].
      inversion Hf; subst. exists x. split; [assumption|].
      apply in_map. apply IH. split; [simpl in Hl; lia | assumption].
Qed.

Lemma product_NoDup {A} (pool : list A) n :
  NoDup pool -> NoDup (product pool n).
Proof.
  intros Hp. induction n as [|n IH]; simpl.
  - constructor; [intros [] | constructor].
  - generalize dependent (product pool n). intros tuples Ht.
    induction Hp as [|x xs Hx _ IHp]; simpl; [constructor|].
    apply NoDup_app.
    + apply Injective_map_NoDup; [intros a b [= ->]; reflexivity | assumption].
    + assumption.
    + intros t H1 H2. apply in_map_iff in H1 as (t1 & <- & _).
      apply in_flat_map in H2 as (y & Hy & H2).
      apply in_map_iff in H2 as (t2 & [= <- _] & _). contradiction.
Qed.

(** ** Dictionaries *)

Section DictFacts.
Context {K V : Type}.
Variable K_eq_dec : forall a b : K, {a = b} + {a <> b}.

Lemma dict_lookup_mid (pre post : dict K V) k v :
  ~ In k (map fst pre) ->
  dict_lookup K_eq_dec (pre ++ (k, v) :: post) k = Some v.
Proof.
  induction pre as [|[k' v'] pre IH]; simpl; intros H.
  - destruct (K_eq_dec k k); [reflexivity | congruence].
  - destruct (K_eq_dec k' k) as [->|_]; [exfalso; auto | apply IH; auto].
Qed.

Lemma dict_set_mid (pre post : dict K V) k v v' :
  ~ In k (map fst pre) ->
  dict_set K_eq_dec (pre ++ (k, v) :: post) k v' = pre ++ (k, v') :: post.
Proof.
  induction pre as [|[k0 v0] pre IH]; simpl; intros H.
  - destruct (K_eq_dec k k); [reflexivity | congruence].
  - destruct (K_eq_dec k0 k) as [->|_]; [exfalso; auto|].
    rewrite IH; auto.
Qed.

Lemma dict_set_absent (d : dict K V) k v :
  ~ In k (map fst d) -> dict_set K_eq_dec d k v = d ++ [(k, v)].
Proof.
  induction d as [|[k0 v0] d IH]; simpl; intros H; [reflexivity|].
  destruct (K_eq_dec k0 k) as [->|_]; [exfalso; auto|].
  rewrite IH; auto.
Qed.

(** A comprehension over distinct keys lists its pairs in order. *)
Lemma dict_of_app (d0 kvs : dict K V) :
  NoDup (map fst (d0 ++ kvs)) ->
  fold_left (fun d kv => dict_set K_eq_dec d (fst kv) (snd kv)) kvs d0
  = d0 ++ kvs.
Proof.
  revert d0. induction kvs as [|[k v] kvs IH]; intros d0 Hnd; simpl.
  - now rewrite app_nil_r.
  - rewrite dict_set_absent.
    + rewrite IH; rewrite <- app_assoc; [reflexivity | assumption].
    + rewrite map_app in Hnd. simpl in Hnd.
      apply NoDup_remove_2 in Hnd. intros Hin. apply Hnd.
      apply in_or_app. now left.
Qed.

Lemma dict_of_NoDup (kvs : dict K V) :
  NoDup (map fst kvs) -> dict_of K_eq_dec kvs = kvs.
Proof. intros H. unfold dict_of. now rewrite dict_of_app. Qed.

(** Every key of a comprehension is bound to the value computed from one
    of its occurrences. *)
Lemma dict_of_lookup_graph (f : K -> V) (l : list K) k :
  In k l -> dict_lookup K_eq_dec (dict_of K_eq_dec (map (fun x => (x, f x)) l)) k
            = Some (f k).
Proof.
  unfold dict_of.
  assert (Hgen : forall d0,
             (In k l \/ dict_lookup K_eq_dec d0 k = Some (f k)) ->
             dict_lookup K_eq_dec
               (fold_left (fun d kv => dict_set K_eq_dec d (fst kv) (snd kv))
                          (map (fun x => (x, f x)) l) d0) k = Some (f k)).
  { induction l as [|x l IH]; simpl; intros d0 H.
    - destruct H as [[]|H]; assumption.
    - apply IH.
      assert (Hset : forall (d : dict K V) k' v',
                 dict_lookup K_eq_dec (dict_set K_eq_dec d k' v') k
                 = if K_eq_dec k' k then Some v' else dict_lookup K_eq_dec d k).
      { clear. induction d as [|[k0 v0] d IHd]; intros k' v'; simpl.
        - reflexivity.
        - destruct (K_eq_dec k0 k') as [->|Hne]; simpl.
          + now destruct (K_eq_dec k' k).
          + destruct (K_eq_dec k0 k) as [->|Hne'].
            * destruct (K_eq_dec k' k); [congruence | reflexivity].
            * apply IHd. }
      rewrite Hset. destruct (K_eq_dec x k) as [->|Hne]; [now right|].
      destruct H as [[H|H]|H]; [congruence | now left | now right]. }
  intros H. apply Hgen. now left.
Qed.

(** A loop that stores one value per distinct key is a comprehension. *)
Lemma foldM_dict_set_mapM (F : K -> result V) (ks : list K) (d0 : dict K V) :
  NoDup (map fst d0 ++ ks) ->
  foldM (fun d k => v <- F k ;; Ok (dict_set K_eq_dec d k v)) ks d0
  = (vs <- mapM F ks ;; Ok (d0 ++ combine ks vs)).
Proof.
  revert d0. induction ks as [|k ks IH]; intros d0 Hnd; simpl.
  - now rewrite app_nil_r.
  - destruct (F k) as [v|e]; simpl; [|reflexivity].
    rewrite dict_set_absent.
    + rewrite IH.
      * destruct (mapM F ks) as [vs|e]; simpl; [|reflexivity].
        now rewrite <- app_assoc.
      * rewrite map_app, <- app_assoc. exact Hnd.
    + apply NoDup_remove_2 in Hnd. intros Hin. apply Hnd.
      apply in_or_app. now left.
Qed.

End DictFacts.

(** ** The offset ranges *)

Lemma linear_interp_points s :
  _interp_points (LinearInterpolator s)
  = range (- Sparse.r s + 1) (Sparse.r s + 1).
Proof. reflexivity. Qed.

Lemma linear_interp_points_length s :
  List.length (_interp_points (LinearInterpolator s))
  = Z.to_nat (2 * Sparse.r s).
Proof. rewrite linear_interp_points, range_length. f_equal. lia. Qed.

Lemma base_interp_points s :
  _interp_points (WeightedInterpolation s)
  = _interp_points (LinearInterpolator s).
Proof. reflexivity. Qed.

Lemma precomputed_interp_points_length s :
  List.length (_interp_points (PrecomputedInterpolator s)) = Z.to_nat (Sparse.r s).
Proof.
  unfold _interp_points, r. simpl. rewrite range_length. f_equal.
  pose proof (Z.div_mod (Sparse.r s) 2 ltac:(lia)).
  pose proof (Z.mod_pos_bound (Sparse.r s) 2 ltac:(lia)).
  pose proof (Z.div_mod (- Sparse.r s) 2 ltac:(lia)).
  pose proof (Z.mod_pos_bound (- Sparse.r s) 2 ltac:(lia)).
  lia.
Qed.

Lemma interp_points_NoDup self : NoDup (_interp_points self).
Proof. destruct self; apply range_NoDup. Qed.

Lemma nd_points_NoDup self : NoDup (_nd_points self).
Proof. apply product_NoDup, interp_points_NoDup. Qed.

Lemma nd_points_length self :
  List.length (_nd_points self)
  = (List.length (_interp_points self) ^ grid_dim (grid self))%nat.
Proof. apply product_length. Qed.

Lemma nd_points_tuple self p :
  In p (_nd_points self) -> List.length p = List.length (_gdim self).
Proof. intros H. apply product_In in H. apply H. Qed.

(** ** The combined weights *)

Lemma foldM_ext {A S} (f g : S -> A -> result S) (l : list A) (s : S) :
  (forall s x, f s x = g s x) -> foldM f l s = foldM g l s.
Proof.
  intros H. revert s. induction l as [|x xs IH]; intros s; simpl; [reflexivity|].
  rewrite H. destruct (g s x); simpl; auto.
Qed.

Lemma combine_map_snd {A B} (l : list A) (l' : list B) :
  List.length l = List.length l' -> map snd (combine l l') = l'.
Proof.
  revert l'. induction l as [|x l IH]; intros [|y l'] H; simpl in *;
    try discriminate; [reflexivity|].
  f_equal. apply IH. lia.
Qed.

(** The loop of [_interpolation_coeffs] computes one combined weight per
    neighbor tuple, in the order of [_nd_points]. *)
Lemma interpolation_coeffs_mapM self :
  _interpolation_coeffs self = mapM (neighbor_coeff self) (_nd_points self).
Proof.
  unfold _interpolation_coeffs.
  erewrite foldM_ext with
    (g := fun d k => v <- neighbor_coeff self k ;;
                     Ok (dict_set (list_eq_dec Z.eq_dec) d k v)).
  - rewrite foldM_dict_set_mapM by (simpl; apply nd_points_NoDup).
    destruct (mapM (neighbor_coeff self) (_nd_points self)) as [vs|e] eqn:H;
      simpl; [|reflexivity].
    unfold dict_values. rewrite combine_map_snd; [reflexivity|].
    symmetry. eapply mapM_ok_length; eassumption.
  - intros d p. unfold neighbor_coeff, weight_at.
    destruct (mapM _ (zip (_gdim self) p)); reflexivity.
Qed.

Lemma interpolation_coeffs_length self ws :
  _interpolation_coeffs self = Ok ws ->
  List.length ws = List.length (_nd_points self).
Proof. rewrite interpolation_coeffs_mapM. apply mapM_ok_length. Qed.

(** ** The loops of the index builder *)

Section IndexLoops.
Variable self : Interpolator.
Variable implicit_dims : list Dimension.

Lemma dict_append_mid {V} (pre post : dict Dimension (list V)) d l x :
  ~ In d (map fst pre) ->
  dict_append string_dec (pre ++ (d, l) :: post) d x
  = Ok (pre ++ (d, l ++ [x]) :: post).
Proof.
  intros H. unfold dict_append, dict_get.
  rewrite dict_lookup_mid by assumption. simpl.
  now rewrite dict_set_mid.
Qed.

(** The inner loop appends, for the axis [d], one symbol, one guarded
    dimension and one defining equation per enumerated offset. *)
Lemma inner_loop d pos (l : list (nat * Z)) :
  forall pre_p post_p lp pre_m post_m lm temps,
    ~ In d (map fst pre_p) -> ~ In d (map fst pre_m) ->
    foldM (indices_step self implicit_dims d pos) l
          (pre_p ++ (d, lp) :: post_p, pre_m ++ (d, lm) :: post_m, temps)
    = Ok (pre_p ++ (d, lp ++ map (fun rir => index_symbol self d (fst rir)) l)
                :: post_p,
          pre_m ++ (d, lm ++ map (fun rir => guarded_dimension self d (fst rir)) l)
                :: post_m,
          temps ++ map (fun rir => index_equation self implicit_dims d pos
                                     (fst rir) (snd rir)) l).
Proof.
  induction l as [|[ri r0] l IH]; intros pre_p post_p lp pre_m post_m lm temps Hp Hm.
  - simpl. now rewrite !app_nil_r.
  - simpl. rewrite !dict_append_mid by assumption. simpl.
    rewrite IH by assumption. rewrite <- !app_assoc. reflexivity.
Qed.

(** The outer loop fills the entries of the axes it visits, in order. *)
Lemma outer_loop (ax : list ((nat * Dimension) * expr)) :
  forall pre_p pre_m post_p post_m temps,
    NoDup (map fst pre_p ++ map (fun a => snd (fst a)) ax) ->
    NoDup (map fst pre_m ++ map (fun a => snd (fst a)) ax) ->
    foldM (fun (st : indices_state) (didpos : (nat * Dimension) * expr) =>
             let '((di, d), pos) := didpos in
             foldM (indices_step self implicit_dims d pos)
                   (enumerate (_interp_points self)) st)
          ax
          (pre_p ++ map (fun a => (snd (fst a), [])) ax ++ post_p,
           pre_m ++ map (fun a => (snd (fst a), [])) ax ++ post_m,
           temps)
    = Ok (pre_p ++ map (fun a => (snd (fst a), axis_symbols self (snd (fst a)))) ax
                ++ post_p,
          pre_m ++ map (fun a => (snd (fst a), axis_guards self (snd (fst a)))) ax
                ++ post_m,
          temps ++ flat_map (fun a => axis_equations self implicit_dims
                                        (snd (fst a)) (snd a)) ax).
Proof.
  induction ax as [|[[di d] pos] ax IH];
    intros pre_p pre_m post_p post_m temps Hp Hm.
  - simpl. now rewrite app_nil_r.
  - simpl.
    assert (Hdp : ~ In d (map fst pre_p)).
    { simpl in Hp. apply NoDup_remove_2 in Hp. intros Hin. apply Hp.
      apply in_or_app. now left. }
    assert (Hdm : ~ In d (map fst pre_m)).
    { simpl in Hm. apply NoDup_remove_2 in Hm. intros Hin. apply Hm.
      apply in_or_app. now left. }
    rewrite inner_loop by assumption. simpl.
    specialize (IH (pre_p ++ [(d, axis_symbols self d)])
                   (pre_m ++ [(d, axis_guards self d)]) post_p post_m
                   (temps ++ axis_equations self implicit_dims d pos)).
    rewrite <- !app_assoc in IH. simpl in IH.
    unfold axis_symbols, axis_guards, axis_equations in *.
    rewrite IH.
    + rewrite <- ?app_assoc. reflexivity.
    + rewrite map_app, <- app_assoc. exact Hp.
    + rewrite map_app, <- app_assoc. exact Hm.
Qed.

End IndexLoops.

Lemma combine_map_l {A B C} (h : A -> C) (l : list A) (l' : list B) :
  combine (map h l) l' = map (fun ab => (h (fst ab), snd ab)) (combine l l').
Proof.
  revert l'. induction l as [|x l IH]; intros [|y l']; simpl; try reflexivity.
  now rewrite IH.
Qed.

Lemma combine_fst_full {A B} (l : list A) (l' : list B) :
  List.length l = List.length l' -> map fst (combine l l') = l.
Proof.
  revert l'. induction l as [|x l IH]; intros [|y l'] H; simpl in *;
    try discriminate; [reflexivity|].
  f_equal. apply IH. lia.
Qed.

Lemma zip_enumerate_axes {A B} (l : list A) (l' : list B) :
  map (fun a : (nat * A) * B => (snd (fst a), snd a)) (zip (enumerate l) l')
  = zip l l'.
Proof.
  unfold zip, enumerate. generalize 0%nat. revert l'.
  induction l as [|x l IH]; intros [|y l'] s; simpl; try reflexivity.
  now rewrite IH.
Qed.

Lemma zip_enumerate_dims {A B} (l : list A) (l' : list B) :
  List.length l' = List.length l ->
  map (fun a : (nat * A) * B => snd (fst a)) (zip (enumerate l) l') = l.
Proof.
  intros H.
  transitivity (map fst (map (fun a : (nat * A) * B => (snd (fst a), snd a))
                             (zip (enumerate l) l'))).
  - now rewrite map_map.
  - rewrite zip_enumerate_axes. apply combine_fst_full. lia.
Qed.

Lemma getitem_in_bounds {A} (l : list A) (i : Z) :
  - Z.of_nat (List.length l) <= i < Z.of_nat (List.length l) ->
  exists x, getitem l i = Ok x
            /\ nth_error l (py_index (List.length l) i) = Some x.
Proof.
  intros H. unfold getitem, py_index.
  set (j := if i <? 0 then i + Z.of_nat (List.length l) else i).
  assert (Hj : 0 <= j < Z.of_nat (List.length l)).
  { unfold j. destruct (Z.ltb_spec i 0); lia. }
  destruct (Z.leb_spec 0 j); [|lia].
  destruct (Z.ltb_spec j (Z.of_nat (List.length l))); [|lia].
  simpl. destruct (nth_error l (Z.to_nat j)) as [x|] eqn:Hn.
  - exists x. auto.
  - apply nth_error_None in Hn. lia.
Qed.

(** Every offset of the range is a valid Python index into a list that has
    one entry per offset. *)
Lemma interp_points_index_bounds self i :
  In i (_interp_points self) ->
  - Z.of_nat (List.length (_interp_points self)) <= i
    < Z.of_nat (List.length (_interp_points self)).
Proof.
  destruct self as [s|s|s].
  - rewrite base_interp_points, linear_interp_points_length,
      linear_interp_points.
    intros H. apply range_In in H. lia.
  - rewrite linear_interp_points_length, linear_interp_points.
    intros H. apply range_In in H. lia.
  - rewrite precomputed_interp_points_length.
    unfold _interp_points, r. simpl. intros H. apply range_In in H.
    pose proof (Z.div_mod (Sparse.r s) 2 ltac:(lia)).
    pose proof (Z.mod_pos_bound (Sparse.r s) 2 ltac:(lia)).
    pose proof (Z.div_mod (- Sparse.r s) 2 ltac:(lia)).
    pose proof (Z.mod_pos_bound (- Sparse.r s) 2 ltac:(lia)).
    lia.
Qed.

Lemma selected_position_lt self i :
  In i (_interp_points self) ->
  (selected_position self i < List.length (_interp_points self))%nat.
Proof.
  intros H. apply interp_points_index_bounds in H.
  unfold selected_position, py_index. destruct (Z.ltb_spec i 0); lia.
Qed.

(** Distinct offsets of the range select distinct list positions. *)
Lemma selected_position_injective self i i' :
  In i (_interp_points self) -> In i' (_interp_points self) ->
  selected_position self i = selected_position self i' -> i = i'.
Proof.
  unfold selected_position, py_index.
  destruct self as [s|s|s].
  - rewrite base_interp_points, linear_interp_points_length,
      linear_interp_points.
    intros H H'. apply range_In in H, H'.
    destruct (Z.ltb_spec i 0), (Z.ltb_spec i' 0); lia.
  - rewrite linear_interp_points_length, linear_interp_points.
    intros H H'. apply range_In in H, H'.
    destruct (Z.ltb_spec i 0), (Z.ltb_spec i' 0); lia.
  - rewrite precomputed_interp_points_length.
    unfold _interp_points, r. simpl. intros H H'. apply range_In in H, H'.
    pose proof (Z.div_mod (Sparse.r s) 2 ltac:(lia)).
    pose proof (Z.mod_pos_bound (Sparse.r s) 2 ltac:(lia)).
    pose proof (Z.div_mod (- Sparse.r s) 2 ltac:(lia)).
    pose proof (Z.mod_pos_bound (- Sparse.r s) 2 ltac:(lia)).
    destruct (Z.ltb_spec i 0), (Z.ltb_spec i' 0); lia.
Qed.

Lemma axis_guards_length self d :
  List.length (axis_guards self d) = List.length (_interp_points self).
Proof. unfold axis_guards. now rewrite length_map, enumerate_length. Qed.

Lemma axis_guards_nth self d k :
  (k < List.length (_interp_points self))%nat ->
  nth_error (axis_guards self d) k = Some (guarded_dimension self d k).
Proof.
  intros Hk. unfold axis_guards. rewrite nth_error_map.
  destruct (nth_error (_interp_points self) k) as [x|] eqn:Hx.
  - now rewrite (enumerate_nth _ _ _ Hx).
  - apply nth_error_None in Hx. lia.
Qed.

(** Reading the guard list of an axis at a component of a neighbor tuple
    always succeeds. *)
Lemma axis_guards_getitem self d i :
  In i (_interp_points self) ->
  getitem (axis_guards self d) i
  = Ok (guarded_dimension self d (selected_position self i)).
Proof.
  intros Hi.
  destruct (getitem_in_bounds (axis_guards self d) i) as (x & Hx & Hn).
  { rewrite axis_guards_length. now apply interp_points_index_bounds. }
  rewrite Hx. f_equal.
  rewrite axis_guards_length in Hn. fold (selected_position self i) in Hn.
  rewrite axis_guards_nth in Hn by now apply selected_position_lt.
  congruence.
Qed.

(** ** Closed form of [_interpolation_indices] *)

Section IndicesClosedForm.
Variable origin : expr -> dict Dimension expr.
Variable self : Interpolator.

Hypothesis gdim_distinct : NoDup (_gdim self).
Hypothesis one_position_per_axis :
  List.length (Sparse._coordinate_indices (sfunction self))
  = List.length (_gdim self).

Lemma empty_lists_dict {V} :
  dict_of string_dec (map (fun d : Dimension => (d, @nil V)) (_gdim self))
  = map (fun d => (d, [])) (_gdim self).
Proof.
  apply dict_of_NoDup. rewrite map_map. simpl. now rewrite map_id.
Qed.

Lemma neighbor_subs_closed variables p :
  In p (_nd_points self) ->
  neighbor_subs origin (full_mapper self) variables p
  = Ok (neighbor_dict origin self variables p).
Proof.
  intros Hp. apply product_In in Hp as [_ Hp].
  unfold neighbor_subs, neighbor_dict.
  rewrite (mapM_ok_map _ (fun v => (v, subs (neighbor_rule origin self v p) v)));
    [reflexivity|].
  intros v _. unfold neighbor_rule, dict_items, full_mapper, zip.
  rewrite combine_map_l.
  erewrite mapM_ok_map with
    (g := fun kcpi : (Dimension * list expr) * Z =>
            (Dim (fst (fst kcpi)),
             Sub (guarded_dimension self (fst (fst kcpi))
                    (selected_position self (snd kcpi)))
                 (dict_get_default string_dec (origin v) (fst (fst kcpi))
                    (Num 0)))).
  - simpl. rewrite map_map. reflexivity.
  - intros [[k c] i] Hin. apply in_map_iff in Hin as ([k' i'] & [= <- <- <-] & Hin).
    simpl. rewrite axis_guards_getitem; [reflexivity|].
    apply in_combine_r in Hin. rewrite Forall_forall in Hp. auto.
Qed.

Lemma index_loops_closed implicit_dims temps0 :
  index_loops self implicit_dims
    (map (fun d => (d, [])) (_gdim self),
     map (fun d => (d, [])) (_gdim self), temps0)
  = Ok (map (fun d => (d, axis_symbols self d)) (_gdim self),
        full_mapper self,
        temps0 ++ index_equations self implicit_dims).
Proof.
  unfold index_loops. cbv zeta.
  pose proof (zip_enumerate_dims (_gdim self)
                (Sparse._coordinate_indices (sfunction self))
                one_position_per_axis) as Hd.
  pose proof (zip_enumerate_axes (_gdim self)
                (Sparse._coordinate_indices (sfunction self))) as Ha.
  unfold index_equations. rewrite <- Ha.
  remember (zip (enumerate (_gdim self))
                (Sparse._coordinate_indices (sfunction self))) as ax eqn:Hax.
  clear Hax Ha.
  assert (Hm : forall (V : Type) (f : Dimension -> V),
             map (fun a : (nat * Dimension) * expr =>
                    (snd (fst a), f (snd (fst a)))) ax
             = map (fun d => (d, f d)) (_gdim self)).
  { intros V f. rewrite <- Hd, map_map. reflexivity. }
  pose proof (outer_loop self implicit_dims ax [] [] [] [] temps0) as Hloop.
  simpl in Hloop. rewrite !app_nil_r in Hloop.
  rewrite (Hm _ (fun _ => [])), (Hm _ (axis_symbols self)),
    (Hm _ (axis_guards self)), Hd in Hloop.
  specialize (Hloop gdim_distinct gdim_distinct).
  etransitivity; [exact Hloop|].
  unfold full_mapper. do 2 f_equal.
  now rewrite !flat_map_concat_map, map_map.
Qed.

Theorem interpolation_indices_closed variables offset field_offset implicit_dims :
  _interpolation_indices origin self variables offset field_offset implicit_dims
  = (coeff_temps <- _coeff_temps self implicit_dims ;;
     Ok (map (neighbor_dict origin self variables) (_nd_points self),
         _positions self implicit_dims ++ coeff_temps
           ++ index_equations self implicit_dims)).
Proof.
  unfold _interpolation_indices.
  destruct (_coeff_temps self implicit_dims) as [ct|e]; simpl; [|reflexivity].
  rewrite !empty_lists_dict, index_loops_closed. simpl.
  rewrite (mapM_ok_map _ (neighbor_dict origin self variables))
    by (intros p Hp; now apply neighbor_subs_closed).
  simpl. now rewrite <- app_assoc.
Qed.

End IndicesClosedForm.

(** ** Substitution removes the grid dimensions *)

(** Induction on expressions, with the indices of an access. *)
Lemma expr_nested_ind (P : expr -> Prop) :
  (forall q, P (Num q)) ->
  (forall n, P (Sym n)) ->
  (forall d, P (Dim d)) ->
  (forall d, P (Spacing d)) ->
  (forall d, P (SymbolicMin d)) ->
  (forall d, P (SymbolicMax d)) ->
  (forall n parent c, P (CondDim n parent c)) ->
  (forall a b, P a -> P b -> P (Add a b)) ->
  (forall a b, P a -> P b -> P (Sub a b)) ->
  (forall a b, P a -> P b -> P (Mul a b)) ->
  (forall a b, P a -> P b -> P (Div a b)) ->
  (forall a, P a -> P (Floor a)) ->
  (forall a, P a -> P (INT a)) ->
  (forall a b, P a -> P b -> P (Ge a b)) ->
  (forall a b, P a -> P b -> P (Le a b)) ->
  (forall a, P a -> P (And1 a)) ->
  (forall a b, P a -> P b -> P (And2 a b)) ->
  (forall f idx, Forall P idx -> P (Access f idx)) ->
  forall e, P e.
Proof.
  intros HNum HSym HDim HSp HMin HMax HCond HAdd HSub HMul HDiv HFloor HINT
         HGe HLe HAnd1 HAnd2 HAcc.
  fix IH 1. intros e. destruct e.
  - apply HNum.
  - apply HSym.
  - apply HDim.
  - apply HSp.
  - apply HMin.
  - apply HMax.
  - apply HCond.
  - apply HAdd; apply IH.
  - apply HSub; apply IH.
  - apply HMul; apply IH.
  - apply HDiv; apply IH.
  - apply HFloor; apply IH.
  - apply HINT; apply IH.
  - apply HGe; apply IH.
  - apply HLe; apply IH.
  - apply HAnd1; apply IH.
  - apply HAnd2; apply IH.
  - apply HAcc. induction idx as [|x idx IHidx]; constructor.
    + apply IH.
    + apply IHidx.
Qed.

Lemma existsb_map_false {A B} (f : A -> B) (g : B -> bool) (l : list A) :
  Forall (fun x => g (f x) = false) l -> existsb g (map f l) = false.
Proof.
  induction 1 as [|x l Hx _ IH]; simpl; [reflexivity|]. now rewrite Hx, IH.
Qed.

Section Removal.
Variable rule : dict expr expr.
Variable dims : list Dimension.

(** Every dimension of [dims] is a key of the rule, and the expressions
    the rule introduces are free of them. *)
Hypothesis rule_covers :
  forall d, In d dims -> exists e', dict_lookup expr_eq_dec rule (Dim d) = Some e'.
Hypothesis rule_values_free :
  forall k e', dict_lookup expr_eq_dec rule k = Some e' -> dims_free dims e'.

Lemma xreplace_dims_free e : dims_free dims (xreplace rule e).
Proof.
  induction e using expr_nested_ind; intros x Hx; simpl;
    match goal with
    | |- context [dict_lookup expr_eq_dec rule ?k] =>
        destruct (dict_lookup expr_eq_dec rule k) as [e'|] eqn:Hk;
        [exact (rule_values_free _ _ Hk x Hx)|]
    end; simpl;
    try reflexivity;
    try (rewrite ?IHe1, ?IHe2, ?IHe by assumption; reflexivity).
  - destruct (string_dec d x) as [->|_]; [|reflexivity].
    destruct (rule_covers x Hx) as [e' He']. congruence.
  - apply existsb_map_false. revert H. apply Forall_impl. intros a Ha. now apply Ha.
Qed.
End Removal.

Section DictFacts2.
Context {K V : Type}.
Variable K_eq_dec : forall a b : K, {a = b} + {a <> b}.

Lemma dict_lookup_set (d : dict K V) k k' v' :
  dict_lookup K_eq_dec (dict_set K_eq_dec d k' v') k
  = if K_eq_dec k' k then Some v' else dict_lookup K_eq_dec d k.
Proof.
  induction d as [|[k0 v0] d IHd]; simpl.
  - reflexivity.
  - destruct (K_eq_dec k0 k') as [->|Hne]; simpl.
    + now destruct (K_eq_dec k' k).
    + destruct (K_eq_dec k0 k) as [->|Hne'].
      * destruct (K_eq_dec k' k); [congruence | reflexivity].
      * apply IHd.
Qed.

(** A binding of a comprehension comes from one of its pairs. *)
Lemma dict_of_lookup_In (kvs : list (K * V)) k v :
  dict_lookup K_eq_dec (dict_of K_eq_dec kvs) k = Some v -> In (k, v) kvs.
Proof.
  unfold dict_of.
  assert (Hgen : forall d0,
             dict_lookup K_eq_dec
               (fold_left (fun d kv => dict_set K_eq_dec d (fst kv) (snd kv))
                          kvs d0) k = Some v ->
             In (k, v) kvs \/ dict_lookup K_eq_dec d0 k = Some v).
  { induction kvs as [|[k1 v1] kvs IH]; simpl; intros d0 H; [now right|].
    apply IH in H as [H|H]; [left; now right|].
    rewrite dict_lookup_set in H. simpl in H.
    destruct (K_eq_dec k1 k) as [->|_]; [|now right].
    injection H as ->. left. now left. }
  intros H. apply Hgen in H as [H|H]; [assumption | discriminate].
Qed.

Lemma dict_lookup_NoDup_In (d : dict K V) k v :
  NoDup (map fst d) -> In (k, v) d -> dict_lookup K_eq_dec d k = Some v.
Proof.
  induction d as [|[k0 v0] d IH]; simpl; intros Hnd Hin; [contradiction|].
  inversion Hnd as [|? ? Hnotin Hnd']; subst.
  destruct Hin as [[= -> ->]|Hin].
  - destruct (K_eq_dec k k); [reflexivity | congruence].
  - destruct (K_eq_dec k0 k) as [->|_]; [|auto].
    exfalso. apply Hnotin. apply in_map_iff. exists (k, v). auto.
Qed.
End DictFacts2.

Lemma combine_fst_NoDup {A B} (l : list A) (l' : list B) :
  NoDup l -> NoDup (map fst (zip l l')).
Proof.
  unfold zip. intros H. revert l'.
  induction H as [|x l Hx _ IH]; intros l'; simpl; [constructor|].
  destruct l' as [|y l']; simpl; constructor.
  - intros Hin. apply Hx. apply in_map_iff in Hin as ([x' y'] & <- & Hin).
    now apply in_combine_l in Hin.
  - apply IH.
Qed.

Lemma combine_nth_In {A B} (l : list A) (l' : list B) j x y :
  nth_error l j = Some x -> nth_error l' j = Some y -> In (x, y) (zip l l').
Proof.
  unfold zip. revert j l'.
  induction l as [|x0 l IH]; intros j l' Hx Hy; [destruct j; discriminate|].
  destruct l' as [|y0 l']; [destruct j; discriminate|].
  destruct j as [|j]; simpl in *.
  - injection Hx as ->. injection Hy as ->. now left.
  - right. eauto.
Qed.

(** ** The substitution dictionaries *)

Section NeighborRules.
Variable origin : expr -> dict Dimension expr.
Variable self : Interpolator.

Hypothesis gdim_distinct : NoDup (_gdim self).

Lemma neighbor_rule_list v p :
  neighbor_rule origin self v p
  = map (fun kpi : Dimension * Z =>
           (Dim (fst kpi),
            Sub (guarded_dimension self (fst kpi)
                   (selected_position self (snd kpi)))
                (dict_get_default string_dec (origin v) (fst kpi) (Num 0))))
        (zip (_gdim self) p).
Proof.
  unfold neighbor_rule. apply dict_of_NoDup.
  rewrite map_map. simpl.
  rewrite <- (map_map fst Dim).
  apply Injective_map_NoDup; [intros a b [= ->]; reflexivity|].
  now apply combine_fst_NoDup.
Qed.

(** The rule of a neighbor binds each grid dimension to its guarded
    dimension, corrected by the origin of the carrier. *)
Lemma neighbor_rule_lookup v p j d i :
  nth_error (_gdim self) j = Some d -> nth_error p j = Some i ->
  dict_lookup expr_eq_dec (neighbor_rule origin self v p) (Dim d)
  = Some (Sub (guarded_dimension self d (selected_position self i))
              (dict_get_default string_dec (origin v) d (Num 0))).
Proof.
  intros Hd Hi.
  apply dict_lookup_NoDup_In.
  - rewrite neighbor_rule_list, map_map. simpl.
    rewrite <- (map_map fst Dim).
    apply Injective_map_NoDup; [intros a b [= ->]; reflexivity|].
    now apply combine_fst_NoDup.
  - rewrite neighbor_rule_list. apply in_map_iff. exists (d, i). split; [reflexivity|].
    eapply combine_nth_In; eassumption.
Qed.

Lemma neighbor_rule_value v p k e' :
  dict_lookup expr_eq_dec (neighbor_rule origin self v p) k = Some e' ->
  exists d i, In d (_gdim self) /\ In i p /\ k = Dim d
              /\ e' = Sub (guarded_dimension self d (selected_position self i))
                          (dict_get_default string_dec (origin v) d (Num 0)).
Proof.
  intros H. apply dict_of_lookup_In in H.
  apply in_map_iff in H as ([d i] & [= <- <-] & Hin).
  exists d, i. simpl. repeat split.
  - now apply in_combine_l in Hin.
  - now apply in_combine_r in Hin.
Qed.

Lemma neighbor_dict_lookup_var variables p v :
  In v variables ->
  dict_lookup expr_eq_dec (neighbor_dict origin self variables p) v
  = Some (subs (neighbor_rule origin self v p) v).
Proof.
  intros H. unfold neighbor_dict.
  now rewrite (dict_of_lookup_graph expr_eq_dec
                 (fun v => subs (neighbor_rule origin self v p) v)).
Qed.

Lemma neighbor_dict_lookup_other variables p e :
  ~ In e variables ->
  dict_lookup expr_eq_dec (neighbor_dict origin self variables p) e = None.
Proof.
  intros H. unfold neighbor_dict.
  destruct (dict_lookup _ _ e) as [e'|] eqn:He; [|reflexivity].
  apply dict_of_lookup_In in He. apply in_map_iff in He as (v & [= <- _] & Hin).
  contradiction.
Qed.

(** [field.xreplace(vsub)] when the field is one of the carriers. *)
Lemma xreplace_carrier variables p v :
  In v variables ->
  xreplace (neighbor_dict origin self variables p) v
  = subs (neighbor_rule origin self v p) v.
Proof.
  intros H. destruct v; simpl;
    rewrite (neighbor_dict_lookup_var variables p _ H); reflexivity.
Qed.

End NeighborRules.

(** ** The index and guard builder *)

Lemma index_equation_emitted self implicit_dims j d pos ri off :
  nth_error (_gdim self) j = Some d ->
  nth_error (Sparse._coordinate_indices (sfunction self)) j = Some pos ->
  nth_error (_interp_points self) ri = Some off ->
  In (index_equation self implicit_dims d pos ri off)
     (index_equations self implicit_dims).
Proof.
  intros Hd Hpos Hoff. unfold index_equations. apply in_flat_map.
  exists (d, pos). split; [eapply combine_nth_In; eassumption|].
  simpl. unfold axis_equations. apply in_map_iff.
  exists (ri, off). split; [reflexivity|].
  eapply nth_error_In. apply enumerate_nth. eassumption.
Qed.

Lemma full_mapper_get self :
  NoDup (_gdim self) ->
  forall j d, nth_error (_gdim self) j = Some d ->
              dict_get string_dec (full_mapper self) d = Ok (axis_guards self d).
Proof.
  intros Hnd j d Hd. unfold dict_get, full_mapper.
  rewrite (dict_lookup_NoDup_In string_dec _ d (axis_guards self d)).
  - reflexivity.
  - rewrite map_map. simpl. now rewrite map_id.
  - apply in_map_iff. exists d. split; [reflexivity|].
    eapply nth_error_In. eassumption.
Qed.

(** The guard holds exactly on the halo-extended range, bounds included. *)
Lemma oob_condition_holds self d n rho :
  exists b,
    holds rho (oob_condition self d (Sym n)) = Some b
    /\ (b = true <->
        (val_min rho d - inject_Z (r self) <= val_sym rho n)%Q
        /\ (val_sym rho n <= val_max rho d + inject_Z (r self))%Q).
Proof.
  eexists. split; [reflexivity|].
  rewrite andb_true_iff, !Qle_bool_iff. reflexivity.
Qed.

Lemma origin_corrected_guard_free (origin : expr -> dict Dimension expr) self v d k :
  (forall k o, dict_lookup string_dec (origin v) k = Some o ->
               dims_free (_gdim self) o) ->
  dims_free (_gdim self)
    (Sub (guarded_dimension self d k)
         (dict_get_default string_dec (origin v) d (Num 0))).
Proof.
  intros Ho x Hx. simpl. unfold dict_get_default.
  destruct (dict_lookup string_dec (origin v) d) as [o|] eqn:E; [|reflexivity].
  exact (Ho d o E x Hx).
Qed.

(** A carrier of the neighbor dictionary is rewritten into an access that
    no longer mentions a grid dimension. *)
Lemma carrier_dims_free (origin : expr -> dict Dimension expr) self v p :
  NoDup (_gdim self) ->
  List.length p = List.length (_gdim self) ->
  (forall k o, dict_lookup string_dec (origin v) k = Some o ->
               dims_free (_gdim self) o) ->
  dims_free (_gdim self) (subs (neighbor_rule origin self v p) v).
Proof.
  intros Hnd Hlen Ho. unfold subs. apply xreplace_dims_free.
  - intros d Hd. apply In_nth_error in Hd as [j Hj].
    destruct (nth_error p j) as [i|] eqn:Hi.
    + eexists. eapply neighbor_rule_lookup; eassumption.
    + apply nth_error_None in Hi.
      assert (j < List.length (_gdim self))%nat by (apply nth_error_Some; congruence).
      lia.
  - intros k e' Hk. apply neighbor_rule_value in Hk as (d & i & _ & _ & _ & ->).
    now apply origin_corrected_guard_free.
Qed.

Lemma forallb_Forall_covered vars dims idx (P : expr -> Prop) :
  Forall (fun e => covered vars dims e = true -> P e) idx ->
  forallb (covered vars dims) idx = true -> Forall P idx.
Proof.
  induction 1 as [|x l Hx _ IH]; simpl; intros Hc; constructor;
    apply andb_true_iff in Hc as [H1 H2]; auto.
Qed.

(** An expression whose grid-indexed accesses are all carriers is free of
    grid dimensions once a neighbor dictionary has been applied. *)
Lemma covered_dims_free (origin : expr -> dict Dimension expr) self variables p e :
  NoDup (_gdim self) ->
  List.length p = List.length (_gdim self) ->
  (forall v k o, dict_lookup string_dec (origin v) k = Some o ->
                 dims_free (_gdim self) o) ->
  covered variables (_gdim self) e = true ->
  dims_free (_gdim self) (xreplace (neighbor_dict origin self variables p) e).
Proof.
  intros Hnd Hlen Ho.
  induction e using expr_nested_ind; simpl;
    match goal with
    | |- context [in_dec expr_eq_dec ?k variables] =>
        destruct (in_dec expr_eq_dec k variables) as [Hin|Hout];
        [intros _; rewrite (neighbor_dict_lookup_var origin self variables p _ Hin);
         apply carrier_dims_free; [assumption | assumption | apply Ho]
        |rewrite (neighbor_dict_lookup_other origin self variables p _ Hout)]
    end;
    try (intros _ x Hx; reflexivity);
    try (intros Hc x Hx; apply andb_true_iff in Hc as [H1 H2]; simpl;
         rewrite (IHe1 H1 x Hx), (IHe2 H2 x Hx); reflexivity);
    try (intros Hc x Hx; simpl; exact (IHe Hc x Hx)).
  - intros Hc x Hx. simpl.
    destruct (in_dec string_dec d (_gdim self)) as [Hd|Hd]; [discriminate|].
    destruct (string_dec d x) as [->|_]; [contradiction | reflexivity].
  - intros Hc x Hx. simpl. apply existsb_map_false.
    pose proof (forallb_Forall_covered _ _ _ _ H Hc) as HF.
    revert HF. apply Forall_impl. intros a Ha. now apply Ha.
Qed.

Lemma interpolation_indices_ok_inv (origin : expr -> dict Dimension expr) self
    variables offset field_offset implicit_dims idx_subs temps :
  NoDup (_gdim self) ->
  List.length (Sparse._coordinate_indices (sfunction self))
  = List.length (_gdim self) ->
  _interpolation_indices origin self variables offset field_offset implicit_dims
  = Ok (idx_subs, temps) ->
  exists coeff_temps,
    _coeff_temps self implicit_dims = Ok coeff_temps
    /\ idx_subs = map (neighbor_dict origin self variables) (_nd_points self)
    /\ temps = _positions self implicit_dims ++ coeff_temps
                 ++ index_equations self implicit_dims.
Proof.
  intros Hnd Hlen H.
  rewrite interpolation_indices_closed in H by assumption.
  destruct (_coeff_temps self implicit_dims) as [ct|e]; simpl in H; [|discriminate].
  injection H as <- <-. eauto.
Qed.

Lemma example_gdim_distinct : NoDup (_gdim Example.linear).
Proof.
  repeat constructor; simpl; intuition discriminate.
Qed.

Lemma example_origin_free v k o :
  dict_lookup string_dec (Example.origin v) k = Some o ->
  dims_free (_gdim Example.linear) o.
Proof. discriminate. Qed.


(** ** The operation builders *)

Lemma combine_map_r {A B C} (h : B -> C) (l : list A) (l' : list B) :
  combine l (map h l') = map (fun ab => (fst ab, h (snd ab))) (combine l l').
Proof.
  revert l'. induction l as [|x l IH]; intros [|y l']; simpl; try reflexivity.
  now rewrite IH.
Qed.

Section Builders.
Variable origin : expr -> dict Dimension expr.
Variable retrieve_function_carriers : expr -> list expr.
Variable evaluate : expr -> option expr.
Variable self : Interpolator.

Hypothesis gdim_distinct : NoDup (_gdim self).
Hypothesis one_position_per_axis :
  List.length (Sparse._coordinate_indices (sfunction self))
  = List.length (_gdim self).

(** The callback of [interpolate], with the index builder in closed form. *)
Lemma interpolate_callback_closed expr offset increment self_subs implicit_dims :
  interpolate_callback origin retrieve_function_carriers evaluate self expr
    offset increment self_subs implicit_dims tt
  = (let _expr := match evaluate expr with Some e => e | None => expr end in
     let variables := retrieve_function_carriers _expr in
     v0 <- getitem variables 0 ;;
     coeff_temps <- _coeff_temps self implicit_dims ;;
     coeffs <- _interpolation_coeffs self ;;
     Ok (index_temporaries self implicit_dims coeff_temps
           ++ [Eq (Sym "sum") (Num 0) implicit_dims]
           ++ map (fun bp => Inc (Sym "sum")
                               (interpolate_summand origin self variables _expr bp)
                               implicit_dims)
                  (zip coeffs (_nd_points self))
           ++ [(if increment then Inc else Eq)
                 (subs self_subs (Sparse.as_expr (sfunction self)))
                 (Sym "sum") implicit_dims])).
Proof.
  unfold interpolate_callback. cbv zeta.
  destruct (getitem _ 0) as [v0|e]; simpl; [|reflexivity].
  rewrite interpolation_indices_closed by assumption.
  destruct (_coeff_temps self implicit_dims) as [ct|e]; simpl; [|reflexivity].
  unfold subs_coords.
  destruct (_interpolation_coeffs self) as [coeffs|e]; simpl; [|reflexivity].
  unfold zip. rewrite combine_map_r, !map_map. unfold index_temporaries.
  rewrite <- !app_assoc. reflexivity.
Qed.

(** The callback of [inject], with the index builder in closed form. *)
Lemma inject_callback_closed field expr offset implicit_dims :
  inject_callback origin retrieve_function_carriers evaluate self field expr
    offset implicit_dims tt
  = (let _expr := match evaluate expr with Some e => e | None => expr end in
     let variables := retrieve_function_carriers _expr ++ [field] in
     coeff_temps <- _coeff_temps self implicit_dims ;;
     coeffs <- _interpolation_coeffs self ;;
     Ok (index_temporaries self implicit_dims coeff_temps
           ++ map (inject_increment origin self variables field _expr implicit_dims)
                  (zip coeffs (_nd_points self)))).
Proof.
  unfold inject_callback. cbv zeta.
  rewrite interpolation_indices_closed by assumption.
  destruct (_coeff_temps self implicit_dims) as [ct|e]; simpl; [|reflexivity].
  unfold subs_coords_eq.
  destruct (_interpolation_coeffs self) as [coeffs|e]; simpl; [|reflexivity].
  unfold zip. rewrite combine_map_r, !map_map. reflexivity.
Qed.

End Builders.

Lemma nth_error_combine {A B} (l : list A) (l' : list B) k a b :
  nth_error l k = Some a -> nth_error l' k = Some b ->
  nth_error (combine l l') k = Some (a, b).
Proof.
  revert k l'. induction l as [|x l IH]; intros k l' Ha Hb;
    [destruct k; discriminate|].
  destruct l' as [|y l']; [destruct k; discriminate|].
  destruct k as [|k]; simpl in *.
  - now injection Ha as ->; injection Hb as ->.
  - auto.
Qed.






(** ** Guarded accesses in the produced equations *)

(** A substitution whose values only hold conditional dimensions with the
    property [P] keeps that property of an expression. *)
Lemma conditional_dimensions_xreplace (P : expr -> Prop) (rule : dict expr expr) e :
  (forall k v, dict_lookup expr_eq_dec rule k = Some v ->
               Forall P (conditional_dimensions v)) ->
  Forall P (conditional_dimensions e) ->
  Forall P (conditional_dimensions (xreplace rule e)).
Proof.
  intros Hrule.
  induction e using expr_nested_ind; intros He; simpl;
    match goal with
    | |- context [dict_lookup expr_eq_dec rule ?k] =>
        destruct (dict_lookup expr_eq_dec rule k) as [e'|] eqn:Hk;
        [exact (Hrule _ _ Hk)|]
    end; simpl in *;
    try assumption;
    try (apply Forall_app in He as [H1 H2]; apply Forall_app; split; auto; fail);
    try (auto; fail).
  clear Hk. induction H as [|a idx Ha _ IH]; simpl in *; [constructor|].
  apply Forall_app in He as [H1 H2]. apply Forall_app. split; auto.
Qed.

Lemma guarded_dimension_is_guarded self d i :
  In d (_gdim self) -> In i (_interp_points self) ->
  is_guarded_dimension self (guarded_dimension self d (selected_position self i)).
Proof.
  intros Hd Hi. apply In_nth_error in Hd as [j Hj].
  pose proof (selected_position_lt self i Hi) as Hlt.
  destruct (nth_error (_interp_points self) (selected_position self i))
    as [off|] eqn:Hoff; [|apply nth_error_None in Hoff; lia].
  exists j, d, (selected_position self i), off. auto.
Qed.

(** The rule of a neighbor introduces guarded dimensions only. *)
Lemma neighbor_rule_guarded (origin : expr -> dict Dimension expr) self v p k e' :
  (forall v k o, dict_lookup string_dec (origin v) k = Some o ->
                 dims_free (_gdim self) o /\ conditional_dimensions o = []) ->
  In p (_nd_points self) ->
  dict_lookup expr_eq_dec (neighbor_rule origin self v p) k = Some e' ->
  Forall (is_guarded_dimension self) (conditional_dimensions e').
Proof.
  intros Ho Hp Hk. apply product_In in Hp as [_ Hp].
  apply neighbor_rule_value in Hk as (d & i & Hd & Hi & _ & ->).
  rewrite Forall_forall in Hp.
  cbn [conditional_dimensions]. apply Forall_app. split.
  - unfold guarded_dimension at 1. cbn [conditional_dimensions].
    constructor; [|constructor].
    apply guarded_dimension_is_guarded; auto.
  - unfold dict_get_default.
    destruct (dict_lookup string_dec (origin v) d) as [o|] eqn:E;
      [|constructor].
    destruct (Ho v d o E) as [_ ->]. constructor.
Qed.

(** So does the dictionary of a neighbor, for carriers that hold no
    conditional dimension. *)
Lemma neighbor_dict_guarded (origin : expr -> dict Dimension expr) self
    variables p k e' :
  (forall v k o, dict_lookup string_dec (origin v) k = Some o ->
                 dims_free (_gdim self) o /\ conditional_dimensions o = []) ->
  (forall v, In v variables -> conditional_dimensions v = []) ->
  In p (_nd_points self) ->
  dict_lookup expr_eq_dec (neighbor_dict origin self variables p) k = Some e' ->
  Forall (is_guarded_dimension self) (conditional_dimensions e').
Proof.
  intros Ho Hv Hp Hk. unfold neighbor_dict in Hk.
  apply dict_of_lookup_In in Hk. apply in_map_iff in Hk as (v & [= <- <-] & Hin).
  unfold subs. apply conditional_dimensions_xreplace.
  - intros k0 v0. now apply neighbor_rule_guarded.
  - rewrite (Hv v Hin). constructor.
Qed.

Lemma covered_carrier vars dims v : In v vars -> covered vars dims v = true.
Proof.
  intros H. destruct v; simpl;
    match goal with
    | |- context [in_dec expr_eq_dec ?k vars] =>
        destruct (in_dec expr_eq_dec k vars); [reflexivity | contradiction]
    end.
Qed.

(** An expression whose grid-indexed accesses are carriers, rewritten for a
    neighbor, is accessed through guarded dimensions only. *)
Lemma xreplace_guarded_access (origin : expr -> dict Dimension expr) self
    variables p e :
  NoDup (_gdim self) ->
  (forall v k o, dict_lookup string_dec (origin v) k = Some o ->
                 dims_free (_gdim self) o /\ conditional_dimensions o = []) ->
  (forall v, In v variables -> conditional_dimensions v = []) ->
  In p (_nd_points self) ->
  covered variables (_gdim self) e = true ->
  conditional_dimensions e = [] ->
  guarded_access self (xreplace (neighbor_dict origin self variables p) e).
Proof.
  intros Hnd Ho Hv Hp Hcov Hcd. split.
  - apply covered_dims_free; try assumption.
    + now apply nd_points_tuple.
    + intros v k o Hk. exact (proj1 (Ho v k o Hk)).
  - apply conditional_dimensions_xreplace.
    + intros k v. now apply neighbor_dict_guarded.
    + rewrite Hcd. constructor.
Qed.

(** *** The parts of the equations that are not rewritten *)

Lemma mapM_ok_In {A B} (f : A -> result B) (l : list A) (ys : list B) y :
  mapM f l = Ok ys -> In y ys -> exists x, In x l /\ f x = Ok y.
Proof.
  intros H Hy. apply In_nth_error in Hy as [k Hk].
  apply mapM_ok_Forall2 in H. revert k Hk.
  induction H as [|a b l' ys' Hab _ IH]; intros k Hk.
  - destruct k; discriminate.
  - destruct k as [|k]; simpl in Hk.
    + injection Hk as <-. exists a. split; [now left | assumption].
    + destruct (IH k Hk) as (x & Hx & Hfx). exists x. split; [now right | assumption].
Qed.

Lemma getitem_ok_In {A} (l : list A) (i : Z) x : getitem l i = Ok x -> In x l.
Proof.
  unfold getitem. destruct (_ && _); [|discriminate].
  destruct (nth_error l _) as [y|] eqn:E; [|discriminate].
  intros [= <-]. eapply nth_error_In. exact E.
Qed.

Lemma dict_lookup_some_In {K V} (K_eq_dec : forall a b : K, {a = b} + {a <> b})
    (d : dict K V) k v :
  dict_lookup K_eq_dec d k = Some v -> In (k, v) d.
Proof.
  induction d as [|[k0 v0] d IH]; simpl; [discriminate|].
  destruct (K_eq_dec k0 k) as [->|_].
  - intros [= ->]. now left.
  - intros H. right. now apply IH.
Qed.

Lemma mentions_dim_xreplace d (rule : dict expr expr) e :
  (forall k v, dict_lookup expr_eq_dec rule k = Some v ->
               mentions_dim d v = false) ->
  mentions_dim d e = false -> mentions_dim d (xreplace rule e) = false.
Proof.
  intros Hrule.
  induction e using expr_nested_ind; intros He; simpl;
    match goal with
    | |- context [dict_lookup expr_eq_dec rule ?k] =>
        destruct (dict_lookup expr_eq_dec rule k) as [e'|] eqn:Hk;
        [exact (Hrule _ _ Hk)|]
    end; simpl in *;
    try assumption;
    try (apply orb_false_iff in He as [H1 H2];
         rewrite IHe1, IHe2 by assumption; reflexivity);
    try (auto; fail).
  clear Hk. apply existsb_map_false.
  induction H as [|a idx Ha _ IH]; simpl in He; constructor;
    apply orb_false_iff in He as [H1 H2]; auto.
Qed.

Lemma xreplace_keeps_dims_free dims (rule : dict expr expr) e :
  (forall k v, dict_lookup expr_eq_dec rule k = Some v -> dims_free dims v) ->
  dims_free dims e -> dims_free dims (xreplace rule e).
Proof.
  intros Hrule He d Hd. apply mentions_dim_xreplace.
  - intros k v Hk. exact (Hrule k v Hk d Hd).
  - exact (He d Hd).
Qed.

Lemma plain_guarded self e : plain self e -> guarded_access self e.
Proof. intros [Hf Hc]. split; [exact Hf | rewrite Hc; constructor]. Qed.

Lemma plain_atom self e :
  (forall d, mentions_dim d e = false) -> conditional_dimensions e = [] ->
  plain self e.
Proof. intros Hm Hc. split; [intros d _; apply Hm | exact Hc]. Qed.

Lemma plain_binary self (op : expr -> expr -> expr) a b :
  (forall d, mentions_dim d (op a b) = mentions_dim d a || mentions_dim d b) ->
  conditional_dimensions (op a b)
  = conditional_dimensions a ++ conditional_dimensions b ->
  plain self a -> plain self b -> plain self (op a b).
Proof.
  intros Hm Hc [Fa Ca] [Fb Cb]. split.
  - intros d Hd. now rewrite Hm, (Fa d Hd), (Fb d Hd).
  - now rewrite Hc, Ca, Cb.
Qed.

Lemma plain_unary self (op : expr -> expr) a :
  (forall d, mentions_dim d (op a) = mentions_dim d a) ->
  conditional_dimensions (op a) = conditional_dimensions a ->
  plain self a -> plain self (op a).
Proof.
  intros Hm Hc [Fa Ca]. split.
  - intros d Hd. now rewrite Hm, (Fa d Hd).
  - now rewrite Hc, Ca.
Qed.

Ltac plain_tac :=
  repeat first
    [ assumption
    | apply (plain_binary _ Add); [reflexivity | reflexivity | |]
    | apply (plain_binary _ Sub); [reflexivity | reflexivity | |]
    | apply (plain_binary _ Mul); [reflexivity | reflexivity | |]
    | apply (plain_binary _ Div); [reflexivity | reflexivity | |]
    | apply (plain_unary _ Floor); [reflexivity | reflexivity |]
    | apply (plain_unary _ INT); [reflexivity | reflexivity |]
    | apply plain_atom; [reflexivity | reflexivity] ].

Lemma guarded_access_Mul self a b :
  guarded_access self a -> guarded_access self b ->
  guarded_access self (Mul a b).
Proof.
  intros [Fa Ca] [Fb Cb]. split.
  - intros d Hd. simpl. now rewrite (Fa d Hd), (Fb d Hd).
  - simpl. apply Forall_app. now split.
Qed.

Lemma xreplace_plain self (rule : dict expr expr) e :
  (forall k v, dict_lookup expr_eq_dec rule k = Some v -> plain self v) ->
  plain self e -> plain self (xreplace rule e).
Proof.
  intros Hrule [Fe Ce]. split.
  - apply xreplace_keeps_dims_free; [|exact Fe].
    intros k v Hk. exact (proj1 (Hrule k v Hk)).
  - pose proof (conditional_dimensions_xreplace (fun _ => False) rule e) as H.
    destruct (conditional_dimensions (xreplace rule e)) as [|c cs];
      [reflexivity|].
    exfalso.
    assert (HF : Forall (fun _ : expr => False) (c :: cs)).
    { apply H.
      - intros k v Hk. rewrite (proj2 (Hrule k v Hk)). constructor.
      - rewrite Ce. constructor. }
    inversion HF. assumption.
Qed.

(** A per-axis weight is built from the local position symbols or from the
    coefficient table. *)
Lemma weight_at_plain self di f :
  sparse_data_plain self -> weight_at self di = Ok f -> plain self f.
Proof.
  intros (_ & _ & Hpsym & Hic) H. destruct di as [d i].
  unfold weight_at in H.
  destruct (_weights self) as [wts|e] eqn:Hw; cbn [bind] in H; [|discriminate].
  destruct (dict_get string_dec wts d) as [wd|e] eqn:Hwd; cbn [bind] in H;
    [|discriminate].
  apply getitem_ok_In in H.
  unfold dict_get in Hwd.
  destruct (dict_lookup string_dec wts d) as [wd'|] eqn:Hl; [|discriminate].
  injection Hwd as ->.
  destruct self as [s|s|s].
  - discriminate.
  - cbn [_weights] in Hw. injection Hw as <-.
    apply dict_of_lookup_In in Hl.
    apply in_map_iff in Hl as ([d' p] & [= <- <-] & Hin).
    assert (Hp : plain (LinearInterpolator s) p).
    { apply in_combine_r in Hin. unfold dict_values in Hin.
      apply in_map_iff in Hin as (dp & <- & Hdp). now apply Hpsym. }
    destruct H as [<-|[<-|[]]]; plain_tac.
  - cbn [_weights] in Hw.
    match type of Hw with
    | bind ?m _ = _ => destruct m as [kvs|e] eqn:Hk; cbn [bind] in Hw;
                       [|discriminate]
    end.
    injection Hw as <-.
    apply dict_of_lookup_In in Hl.
    destruct (mapM_ok_In _ _ _ _ Hk Hl) as ([di d'] & _ & Hrow).
    cbv beta iota in Hrow.
    match type of Hrow with
    | bind ?m _ = _ => destruct m as [ws|e] eqn:Hws; cbn [bind] in Hrow;
                       [|discriminate]
    end.
    injection Hrow as <- <-.
    destruct (mapM_ok_In _ _ _ _ Hws H) as (k & _ & Hcell).
    cbv beta in Hcell.
    destruct (_ddim (PrecomputedInterpolator s)) as [ddim|e]; cbn [bind] in Hcell;
      [|discriminate].
    destruct (_idim (PrecomputedInterpolator s)) as [idim|e]; cbn [bind] in Hcell;
      [|discriminate].
    injection Hcell as <-.
    unfold subs. apply xreplace_plain; [|exact Hic].
    intros k0 v Hk0. apply dict_of_lookup_In in Hk0.
    destruct Hk0 as [[= <- <-]|[[= <- <-]|[]]]; plain_tac.
Qed.

Lemma prod_plain self fs : Forall (plain self) fs -> plain self (prod fs).
Proof.
  unfold prod.
  assert (H : forall acc, plain self acc -> Forall (plain self) fs ->
                          plain self (fold_left Mul fs acc)).
  { induction fs as [|f fs IH]; intros acc Hacc HF; [exact Hacc|].
    inversion HF; subst. simpl. apply IH; [|assumption]. plain_tac. }
  apply H. plain_tac.
Qed.

Lemma coeffs_plain self ws :
  sparse_data_plain self -> _interpolation_coeffs self = Ok ws ->
  Forall (plain self) ws.
Proof.
  intros Hs Hws. rewrite interpolation_coeffs_mapM in Hws.
  apply Forall_forall. intros w Hw.
  destruct (mapM_ok_In _ _ _ _ Hws Hw) as (t & _ & Ht).
  unfold neighbor_coeff in Ht.
  destruct (mapM (weight_at self) (zip (_gdim self) t)) as [fs|e] eqn:Hfs;
    cbn [bind] in Ht; [|discriminate].
  injection Ht as <-. apply prod_plain. apply Forall_forall. intros f Hf.
  destruct (mapM_ok_In _ _ _ _ Hfs Hf) as (di & _ & Hdi).
  exact (weight_at_plain self di f Hs Hdi).
Qed.

(** The temporaries are built from the data of the sparse function. *)
Lemma index_temporaries_plain self idims ct :
  sparse_data_plain self -> _coeff_temps self idims = Ok ct ->
  Forall (fun e => plain self (eq_lhs e) /\ plain self (eq_rhs e))
         (index_temporaries self idims ct).
Proof.
  intros (Hmap & Hci & Hpsym & _) Hct. unfold index_temporaries.
  apply Forall_app; split; [|apply Forall_app; split].
  - assert (Hfrom : forall s, sfunction self = s ->
              Forall (fun e => plain self (eq_lhs e) /\ plain self (eq_rhs e))
                     (map (fun kv : expr * expr =>
                             let (k, v) := kv in Eq v k idims)
                          (dict_items (Sparse._position_map s)))).
    { intros s <-. apply Forall_forall. intros e He.
      apply in_map_iff in He as ([k v] & <- & Hin).
      destruct (Hmap (k, v) Hin) as [Hk Hv]. now split. }
    unfold _positions. destruct self as [s|s|s]; try (now apply Hfrom).
    destruct (Sparse.gridpoints s); [constructor | now apply Hfrom].
  - destruct self as [s|s|s]; try (injection Hct as <-; constructor).
    unfold _coeff_temps in Hct. apply Forall_forall. intros e He.
    destruct (mapM_ok_In _ _ _ _ Hct He) as ([d pos] & Hin & Hrow).
    cbv beta iota in Hrow.
    destruct (dict_get string_dec (_psym (LinearInterpolator s)) d) as [p|err]
      eqn:Hp; cbn [bind] in Hrow; [|discriminate].
    injection Hrow as <-. cbn [eq_lhs eq_rhs].
    unfold dict_get in Hp.
    destruct (dict_lookup string_dec (_psym (LinearInterpolator s)) d)
      as [p'|] eqn:Hl; [|discriminate].
    injection Hp as ->. apply dict_lookup_some_In in Hl.
    assert (Hpp : plain (LinearInterpolator s) p) by exact (Hpsym (d, p) Hl).
    assert (Hpos : plain (LinearInterpolator s) pos).
    { apply in_combine_r in Hin. unfold dict_values in Hin.
      apply in_map_iff in Hin as (kv & <- & Hkv). exact (proj2 (Hmap kv Hkv)). }
    split; plain_tac.
  - unfold index_equations. apply Forall_forall. intros e He.
    apply in_flat_map in He as ([d pos] & Hin & He).
    apply in_map_iff in He as ([ri off] & <- & _).
    apply in_combine_r in Hin. rewrite Forall_forall in Hci.
    pose proof (Hci pos Hin) as Hpos.
    unfold index_equation, index_symbol. cbn [eq_lhs eq_rhs fst snd].
    split; plain_tac.
Qed.

(** A combined weight rewritten for a neighbor, as [subs_coords] does. *)
Lemma xreplace_weight_guarded (origin : expr -> dict Dimension expr) self
    variables p b :
  NoDup (_gdim self) ->
  (forall v k o, dict_lookup string_dec (origin v) k = Some o ->
                 dims_free (_gdim self) o /\ conditional_dimensions o = []) ->
  (forall v, In v variables -> conditional_dimensions v = []) ->
  In p (_nd_points self) ->
  plain self b ->
  guarded_access self (xreplace (neighbor_dict origin self variables p) b).
Proof.
  intros Hnd Ho Hv Hp [Fb Cb]. split.
  - apply xreplace_keeps_dims_free; [|exact Fb].
    intros k e' Hk. unfold neighbor_dict in Hk.
    apply dict_of_lookup_In in Hk.
    apply in_map_iff in Hk as (v & [= <- <-] & Hin).
    apply carrier_dims_free; [assumption | now apply nd_points_tuple |].
    intros k o Hk. exact (proj1 (Ho v k o Hk)).
  - apply conditional_dimensions_xreplace.
    + intros k v. now apply neighbor_dict_guarded.
    + rewrite Cb. constructor.
Qed.


(** C1.  For every axis and every offset of the per-axis range, the index
    builder emits the defining equation [index = base_position + offset]
    and its loops store, in the mapper entry of the axis, an indirect
    conditional dimension named after the index, whose condition is the
    unevaluated conjunction [index >= symbolic_min - r] and
    [index <= symbolic_max + r]; that condition is true exactly when the
    index lies in the range, bounds included, so it is false for an index
    outside of it.  The substitution of every neighbor replaces each grid
    dimension, in every carrier, by such a guarded dimension minus the
    origin of the carrier.  In the equations that forcing [inject] and
    [interpolate] yields, the per-neighbor equations follow the temporaries,
    one per neighbor tuple; when the grid-indexed accesses of the expression
    are its carriers, the field that an injection increments and the
    expression that either operation reads hold no grid dimension any more,
    and every conditional dimension in them is a guarded dimension of the
    index builder, whose value is the index it is named after.  When the
    expressions that the sparse function brings along hold no grid dimension
    either, this is so of both sides of every equation produced. *)
Theorem guarded_indices_safe
    (origin : expr -> dict Dimension expr)
    (retrieve_function_carriers : expr -> list expr)
    (evaluate : expr -> option expr)
    (self : Interpolator) :
  NoDup (_gdim self) ->
  List.length (Sparse._coordinate_indices (sfunction self))
  = List.length (_gdim self) ->
  (forall v k o, dict_lookup string_dec (origin v) k = Some o ->
                 dims_free (_gdim self) o /\ conditional_dimensions o = []) ->
  (forall variables offset field_offset implicit_dims idx_subs temps,
      _interpolation_indices origin self variables offset field_offset
        implicit_dims
      = Ok (idx_subs, temps) ->
      (forall j d pos ri off,
          nth_error (_gdim self) j = Some d ->
          nth_error (Sparse._coordinate_indices (sfunction self)) j = Some pos ->
          nth_error (_interp_points self) ri = Some off ->
          In (Eq (Sym (ii_name self d ri)) (Add pos (Num (inject_Z off)))
                 implicit_dims) temps)
      /\ (forall k p,
             nth_error (_nd_points self) k = Some p ->
             exists vsub,
               nth_error idx_subs k = Some vsub
               /\ (forall v, In v variables ->
                     xreplace vsub v = subs (neighbor_rule origin self v p) v
                     /\ dims_free (_gdim self) (xreplace vsub v)
                     /\ forall j d i,
                         nth_error (_gdim self) j = Some d ->
                         nth_error p j = Some i ->
                         exists ri off,
                           nth_error (_interp_points self) ri = Some off
                           /\ dict_lookup expr_eq_dec
                                (neighbor_rule origin self v p) (Dim d)
                              = Some (Sub (guarded_dimension self d ri)
                                          (dict_get_default string_dec
                                             (origin v) d (Num 0))))
               /\ (forall e, covered variables (_gdim self) e = true ->
                             dims_free (_gdim self) (xreplace vsub e))))
  /\ (forall implicit_dims temps0,
         exists points mapper temps1,
           index_loops self implicit_dims
             (dict_of string_dec (map (fun d => (d, [])) (_gdim self)),
              dict_of string_dec (map (fun d => (d, [])) (_gdim self)),
              temps0)
           = Ok (points, mapper, temps1)
           /\ forall j d ri off,
               nth_error (_gdim self) j = Some d ->
               nth_error (_interp_points self) ri = Some off ->
               exists guards,
                 dict_get string_dec mapper d = Ok guards
                 /\ nth_error guards ri = Some (guarded_dimension self d ri))
  /\ (forall c,
         is_guarded_dimension self c ->
         exists d n,
           In d (_gdim self)
           /\ c = CondDim n (Sparse._sparse_dim (sfunction self))
                    (And2 (And1 (Ge (Sym n)
                                    (Sub (SymbolicMin d)
                                         (Num (inject_Z (r self))))))
                          (And1 (Le (Sym n)
                                    (Add (SymbolicMax d)
                                         (Num (inject_Z (r self)))))))
           /\ forall rho, eval rho c = Some (val_sym rho n))
  /\ (forall d n rho,
         exists b,
           holds rho (And2 (And1 (Ge (Sym n) (Sub (SymbolicMin d)
                                                  (Num (inject_Z (r self))))))
                           (And1 (Le (Sym n) (Add (SymbolicMax d)
                                                  (Num (inject_Z (r self)))))))
           = Some b
           /\ (b = true <->
               (val_min rho d - inject_Z (r self) <= val_sym rho n)%Q
               /\ (val_sym rho n <= val_max rho d + inject_Z (r self))%Q))
  /\ (forall field expr offset implicit_dims0 eqs,
         let idims := implicit_dims self implicit_dims0 in
         let _expr := match evaluate expr with Some e => e | None => expr end in
         let variables := retrieve_function_carriers _expr ++ [field] in
         covered variables (_gdim self) _expr = true ->
         (forall e, In e (_expr :: variables) -> conditional_dimensions e = []) ->
         _evaluate (inject origin retrieve_function_carriers evaluate self
                      field expr offset implicit_dims0) = Ok eqs ->
         exists coeff_temps incs,
           _coeff_temps self idims = Ok coeff_temps
           /\ eqs = index_temporaries self idims coeff_temps ++ incs
           /\ List.length incs = List.length (_nd_points self)
           /\ Forall (fun e => exists target body w,
                                 e = Inc target (Mul body w) idims
                                 /\ guarded_access self target
                                 /\ guarded_access self body) incs
           /\ (sparse_data_plain self -> Forall (guarded_equation self) eqs))
  /\ (forall expr offset increment self_subs implicit_dims0 eqs,
         let idims := implicit_dims self implicit_dims0 in
         let _expr := match evaluate expr with Some e => e | None => expr end in
         let variables := retrieve_function_carriers _expr in
         covered variables (_gdim self) _expr = true ->
         (forall e, In e (_expr :: variables) -> conditional_dimensions e = []) ->
         _evaluate (interpolate origin retrieve_function_carriers evaluate self
                      expr offset increment self_subs implicit_dims0) = Ok eqs ->
         exists coeff_temps incs last,
           _coeff_temps self idims = Ok coeff_temps
           /\ eqs = index_temporaries self idims coeff_temps
                      ++ [Eq (Sym "sum") (Num 0) idims] ++ incs ++ [last]
           /\ List.length incs = List.length (_nd_points self)
           /\ Forall (fun e => exists body w,
                                 e = Inc (Sym "sum") (Mul body w) idims
                                 /\ guarded_access self body) incs
           /\ (sparse_data_plain self ->
               guarded_access self
                 (subs self_subs (Sparse.as_expr (sfunction self))) ->
               Forall (guarded_equation self) eqs)).
Proof.
  intros Hnd Hlen Ho.
  assert (Ho1 : forall v k o, dict_lookup string_dec (origin v) k = Some o ->
                              dims_free (_gdim self) o)
    by (intros v k o Hk; exact (proj1 (Ho v k o Hk))).
  split; [|split; [|split; [|split; [|split]]]].
  - intros variables offset field_offset implicit_dims idx_subs temps H.
    apply interpolation_indices_ok_inv in H as (ct & Hct & -> & ->);
      try assumption.
    split.
    + intros j d pos ri off Hd Hpos Hoff.
      apply in_or_app. right. apply in_or_app. right.
      exact (index_equation_emitted self implicit_dims j d pos ri off
               Hd Hpos Hoff).
    + intros k p Hp.
      assert (Hlp : List.length p = List.length (_gdim self))
        by (apply nd_points_tuple; eapply nth_error_In; eassumption).
      assert (Hpts : Forall (fun x => In x (_interp_points self)) p).
      { apply nth_error_In in Hp. now apply product_In in Hp. }
      exists (neighbor_dict origin self variables p). split; [|split].
      * rewrite nth_error_map, Hp. reflexivity.
      * intros v Hv. rewrite (xreplace_carrier origin self variables p v Hv).
        split; [reflexivity|]. split.
        -- apply carrier_dims_free; [assumption | assumption | apply Ho1].
        -- intros j d i Hd Hi.
           assert (Hin : In i (_interp_points self)).
           { rewrite Forall_forall in Hpts. apply Hpts.
             eapply nth_error_In; eassumption. }
           pose proof (selected_position_lt self i Hin) as Hlt.
           destruct (nth_error (_interp_points self) (selected_position self i))
             as [off|] eqn:Hoff; [|apply nth_error_None in Hoff; lia].
           exists (selected_position self i), off. split; [assumption|].
           exact (neighbor_rule_lookup origin self Hnd v p j d i Hd Hi).
      * intros e He. now apply covered_dims_free.
  - intros implicit_dims temps0. do 3 eexists. split.
    + rewrite !(empty_lists_dict self Hnd).
      exact (index_loops_closed self Hnd Hlen implicit_dims temps0).
    + intros j d ri off Hd Hoff. exists (axis_guards self d). split.
      * exact (full_mapper_get self Hnd j d Hd).
      * apply axis_guards_nth. apply nth_error_Some. congruence.
  - intros c (j & d & ri & off & Hd & _ & ->).
    exists d, (ii_name self d ri). split; [eapply nth_error_In; eassumption|].
    split; reflexivity.
  - intros d n rho. exact (oob_condition_holds self d n rho).
  - intros field expr offset implicit_dims0 eqs idims _expr variables
           Hcov Hcd Heq.
    change (inject_callback origin retrieve_function_carriers evaluate self
              field expr offset idims tt = Ok eqs) in Heq.
    rewrite inject_callback_closed in Heq by assumption. cbv zeta in Heq.
    fold _expr variables in Heq.
    destruct (_coeff_temps self idims) as [ct|e] eqn:Hct; cbn [bind] in Heq;
      [|discriminate].
    destruct (_interpolation_coeffs self) as [coeffs|e] eqn:Hc;
      cbn [bind] in Heq; [|discriminate].
    injection Heq as <-.
    assert (Hv : forall v, In v variables -> conditional_dimensions v = [])
      by (intros v Hv; apply Hcd; now right).
    assert (Hfield : forall p, In p (_nd_points self) ->
              guarded_access self
                (xreplace (neighbor_dict origin self variables p) field)).
    { intros p Hp. apply xreplace_guarded_access; try assumption.
      - apply covered_carrier. apply in_or_app. right. now left.
      - apply Hcd. right. apply in_or_app. right. now left. }
    assert (Hbody : forall p, In p (_nd_points self) ->
              guarded_access self
                (xreplace (neighbor_dict origin self variables p) _expr)).
    { intros p Hp. apply xreplace_guarded_access; try assumption.
      apply Hcd. now left. }
    exists ct, (map (inject_increment origin self variables field _expr idims)
                    (zip coeffs (_nd_points self))).
    split; [reflexivity|]. split; [reflexivity|]. split; [|split].
    + rewrite length_map. unfold zip. rewrite length_combine.
      rewrite (interpolation_coeffs_length self coeffs Hc). lia.
    + apply Forall_forall. intros e He.
      apply in_map_iff in He as ([b p] & <- & Hin).
      apply in_combine_r in Hin.
      do 3 eexists. split; [reflexivity|]. cbn [snd]. split; auto.
    + intros Hs. apply Forall_app. split.
      * eapply Forall_impl;
          [|exact (index_temporaries_plain self idims ct Hs Hct)].
        intros e [H1 H2]. split; now apply plain_guarded.
      * pose proof (coeffs_plain self coeffs Hs Hc) as Hw.
        rewrite Forall_forall in Hw.
        apply Forall_forall. intros e He.
        apply in_map_iff in He as ([b p] & <- & Hin).
        pose proof (in_combine_l _ _ _ _ Hin) as Hb.
        apply in_combine_r in Hin.
        unfold guarded_equation, inject_increment. cbn [eq_lhs eq_rhs fst snd].
        split; [now apply Hfield|].
        apply guarded_access_Mul; [now apply Hbody|].
        apply plain_guarded. now apply Hw.
  - intros expr offset increment self_subs implicit_dims0 eqs idims _expr
           variables Hcov Hcd Heq.
    change (interpolate_callback origin retrieve_function_carriers evaluate
              self expr offset increment self_subs idims tt = Ok eqs) in Heq.
    rewrite interpolate_callback_closed in Heq by assumption. cbv zeta in Heq.
    fold _expr variables in Heq.
    destruct (getitem variables 0) as [v0|e]; cbn [bind] in Heq;
      [|discriminate].
    destruct (_coeff_temps self idims) as [ct|e] eqn:Hct; cbn [bind] in Heq;
      [|discriminate].
    destruct (_interpolation_coeffs self) as [coeffs|e] eqn:Hc;
      cbn [bind] in Heq; [|discriminate].
    injection Heq as <-.
    assert (Hv : forall v, In v variables -> conditional_dimensions v = [])
      by (intros v Hv; apply Hcd; now right).
    assert (Hbody : forall p, In p (_nd_points self) ->
              guarded_access self
                (xreplace (neighbor_dict origin self variables p) _expr)).
    { intros p Hp. apply xreplace_guarded_access; try assumption.
      apply Hcd. now left. }
    assert (Hsum : guarded_access self (Sym "sum"))
      by (apply plain_guarded; plain_tac).
    do 3 eexists. split; [reflexivity|]. split; [reflexivity|]. split; [|split].
    + rewrite length_map. unfold zip. rewrite length_combine.
      rewrite (interpolation_coeffs_length self coeffs Hc). lia.
    + apply Forall_forall. intros e He.
      apply in_map_iff in He as ([b p] & <- & Hin).
      apply in_combine_r in Hin.
      do 2 eexists. split; [reflexivity|]. cbn [snd]. auto.
    + intros Hs Hlast.
      apply Forall_app. split; [|constructor; [|apply Forall_app; split]].
      * eapply Forall_impl;
          [|exact (index_temporaries_plain self idims ct Hs Hct)].
        intros e [H1 H2]. split; now apply plain_guarded.
      * split; [exact Hsum | cbn [eq_rhs]; apply plain_guarded; plain_tac].
      * pose proof (coeffs_plain self coeffs Hs Hc) as Hw.
        rewrite Forall_forall in Hw.
        apply Forall_forall. intros e He.
        apply in_map_iff in He as ([b p] & <- & Hin).
        pose proof (in_combine_l _ _ _ _ Hin) as Hb.
        apply in_combine_r in Hin.
        unfold guarded_equation, interpolate_summand.
        cbn [eq_lhs eq_rhs fst snd].
        split; [exact Hsum|].
        apply guarded_access_Mul; [now apply Hbody|].
        apply xreplace_weight_guarded; try assumption. now apply Hw.
      * constructor; [|constructor].
        destruct increment; split; assumption.
Qed.

Lemma example_origin_plain v k o :
  dict_lookup string_dec (Example.origin v) k = Some o ->
  dims_free (_gdim Example.linear) o /\ conditional_dimensions o = [].
Proof. discriminate. Qed.

Lemma example_plain e :
  mentions_dim "x"%string e = false -> mentions_dim "y"%string e = false ->
  conditional_dimensions e = [] -> plain Example.linear e.
Proof.
  intros Hx Hy Hc. split; [|exact Hc].
  intros d [<-|[<-|[]]]; assumption.
Qed.

Lemma example_data_plain : sparse_data_plain Example.linear.
Proof.
  split; [|split; [|split]].
  - intros kv [<-|[<-|[]]]; split; apply example_plain; reflexivity.
  - repeat constructor; apply example_plain; reflexivity.
  - intros dp [<-|[<-|[]]]; apply example_plain; reflexivity.
  - apply example_plain; reflexivity.
Qed.

Lemma guarded_indices_safe_witness :
  exists coeff_temps incs,
    example_injection_eqs
    = index_temporaries Example.linear ["p_src"%string] coeff_temps ++ incs
    /\ List.length incs = 4%nat
    /\ Forall (fun e => guarded_access Example.linear (eq_lhs e)) incs
    /\ Forall (guarded_equation Example.linear) example_injection_eqs.
Proof.
  destruct (guarded_indices_safe Example.origin
              Example.retrieve_function_carriers Example.evaluate
              Example.linear example_gdim_distinct eq_refl
              example_origin_plain) as (_ & _ & _ & _ & Hinj & _).
  destruct (Hinj Example.u (Sym "v"%string) 0 [] example_injection_eqs)
    as (ct & incs & _ & Heq & Hl & HF & Hall).
  - reflexivity.
  - intros e [<-|[<-|[]]]; reflexivity.
  - reflexivity.
  - exists ct, incs. split; [exact Heq|]. split; [exact Hl|]. split.
    + eapply Forall_impl; [|exact HF].
      intros e (target & body & w & -> & Ht & _). exact Ht.
    + exact (Hall example_data_plain).
Defined.

(** The guard bounds the index, not the expression it is used in: for a
    carrier read one grid point further along [x], the last increment of
    the interpolation reads the field at the guarded index plus the spacing.
    With the index on the upper bound 11 of the guarded range [-1, 11], the
    guard is true and the field is read at 12. *)
Lemma shifted_carrier_escapes_guard :
  let guard := oob_condition Example.linear "x"%string
                 (Sym "ii_src_x_1"%string) in
  let index :=
    Add (Sub (CondDim "ii_src_x_1"%string "p_src"%string guard) (Num 0))
        (Spacing "x"%string) in
  exists eqs gy w,
    _evaluate (interpolate Example.origin Example.retrieve_function_carriers
                 Example.evaluate Example.linear Edge.u_shifted 0 false [] [])
    = Ok eqs
    /\ In (Inc (Sym "sum"%string)
               (Mul (Access "u"%string [Dim "time"%string; index; gy]) w)
               ["p_src"%string]) eqs
    /\ covered (Example.retrieve_function_carriers Edge.u_shifted)
               (_gdim Example.linear) Edge.u_shifted = true
    /\ holds Edge.upper_halo guard = Some true
    /\ exists v,
        eval Edge.upper_halo index = Some v
        /\ (v == 12)%Q
        /\ ~ (v <= val_max Edge.upper_halo "x"%string
                   + inject_Z (r Example.linear))%Q.
Proof.
  intros guard index. do 3 eexists.
  split; [vm_compute; reflexivity|].
  split; [do 12 right; left; reflexivity|].
  split; [reflexivity|]. split; [reflexivity|].
  eexists. split; [reflexivity|]. split; [reflexivity|].
  intros H. vm_compute in H. apply H. reflexivity.
Qed.

(** One substitution dictionary per neighbor tuple, whatever the inputs. *)
Lemma interpolation_indices_length (origin : expr -> dict Dimension expr) self
    variables offset field_offset implicit_dims idx_subs temps :
  _interpolation_indices origin self variables offset field_offset implicit_dims
  = Ok (idx_subs, temps) ->
  List.length idx_subs = List.length (_nd_points self).
Proof.
  unfold _interpolation_indices. intros H.
  destruct (_coeff_temps self implicit_dims); simpl in H; [|discriminate].
  destruct (index_loops _ _ _) as [[[pts mp] tmps]|]; simpl in H; [|discriminate].
  destruct (mapM _ (_nd_points self)) as [subs'|] eqn:Hm; simpl in H;
    [|discriminate].
  injection H as <- _. now apply mapM_ok_length in Hm.
Qed.

(** C9.  When the expression of [interpolate] has no carrier, forcing the
    operation raises [IndexError]; and whatever the expression, forcing
    either raises or returns the whole list: temporaries, initialisation of
    the accumulator, one increment per neighbor tuple and the final
    write. *)
Theorem interpolate_without_operands
    (origin : expr -> dict Dimension expr)
    (retrieve_function_carriers : expr -> list expr)
    (evaluate : expr -> option expr)
    (self : Interpolator) (expr : expr) (offset : Z) (increment : bool)
    (self_subs : dict Symbolics.expr Symbolics.expr)
    (implicit_dims0 : list Dimension) :
  let idims := implicit_dims self implicit_dims0 in
  let _expr := match evaluate expr with Some e => e | None => expr end in
  let op := interpolate origin retrieve_function_carriers evaluate self
              expr offset increment self_subs implicit_dims0 in
  retrieve_function_carriers _expr = [] ->
  _evaluate op = Raise IndexError
  /\ forall expr',
      let op' := interpolate origin retrieve_function_carriers evaluate self
                   expr' offset increment self_subs implicit_dims0 in
      (exists e, _evaluate op' = Raise e)
      \/ (exists temps increments final,
             _evaluate op'
             = Ok (temps ++ [Eq (Sym "sum") (Num 0) idims]
                         ++ increments ++ [final])
             /\ List.length increments = List.length (_nd_points self)
             /\ Forall (fun e => is_Inc e = true
                                 /\ eq_lhs e = Sym "sum") increments
             /\ final = (if increment then Inc else Eq)
                          (subs self_subs (Sparse.as_expr (sfunction self)))
                          (Sym "sum") idims).
Proof.
  intros idims _expr op Hnone. split.
  - unfold op, _evaluate, interpolate, interpolate_callback. simpl.
    fold _expr. rewrite Hnone. reflexivity.
  - intros expr' op'. unfold op', _evaluate, interpolate, interpolate_callback.
    simpl. fold idims.
    destruct (getitem _ 0) as [v0|e]; simpl; [|left; eauto].
    destruct (_interpolation_indices _ _ _ _ _ _) as [[idx_subs temps]|e] eqn:Hidx;
      simpl; [|left; eauto].
    unfold subs_coords.
    destruct (_interpolation_coeffs self) as [coeffs|e] eqn:Hc; simpl;
      [|left; eauto].
    right. eexists temps, _, _. split; [reflexivity|]. split; [|split].
    + rewrite !length_map. unfold zip. rewrite length_combine.
      rewrite (interpolation_coeffs_length self coeffs Hc).
      apply interpolation_indices_length in Hidx. lia.
    + apply Forall_forall. intros e He.
      apply in_map_iff in He as (a & <- & _). split; reflexivity.
    + reflexivity.
Qed.

Lemma interpolate_without_operands_witness :
  _evaluate (interpolate Example.origin Example.retrieve_function_carriers
               Example.evaluate Example.linear (Num 2) 0 false [] [])
  = Raise IndexError.
Proof.
  exact (proj1 (interpolate_without_operands Example.origin
                  Example.retrieve_function_carriers Example.evaluate
                  Example.linear (Num 2) 0 false [] [] eq_refl)).
Defined.

(** C10.  The equations produced by [interpolate] and by [inject] do not
    depend on the [offset] argument, and the index builder depends neither
    on [offset] nor on [field_offset]: two calls that differ only there
    yield equal results.  The offset is only recorded in the returned
    operation. *)
Theorem offset_independence
    (origin : expr -> dict Dimension expr)
    (retrieve_function_carriers : expr -> list expr)
    (evaluate : expr -> option expr)
    (self : Interpolator) (field expr : expr) (offset1 offset2 : Z)
    (increment : bool) (self_subs : dict Symbolics.expr Symbolics.expr)
    (implicit_dims0 : list Dimension) :
  _evaluate (interpolate origin retrieve_function_carriers evaluate self expr
               offset1 increment self_subs implicit_dims0)
  = _evaluate (interpolate origin retrieve_function_carriers evaluate self expr
                 offset2 increment self_subs implicit_dims0)
  /\ _evaluate (inject origin retrieve_function_carriers evaluate self field
                  expr offset1 implicit_dims0)
     = _evaluate (inject origin retrieve_function_carriers evaluate self field
                    expr offset2 implicit_dims0)
  /\ (forall variables field_offset1 field_offset2 idims,
         _interpolation_indices origin self variables offset1 field_offset1 idims
         = _interpolation_indices origin self variables offset2 field_offset2
             idims)
  /\ op_offset (interpolate origin retrieve_function_carriers evaluate self expr
                  offset1 increment self_subs implicit_dims0) = offset1
  /\ op_offset (inject origin retrieve_function_carriers evaluate self field
                  expr offset1 implicit_dims0) = offset1.
Proof.
  split; [|split; [|split; [|split]]].
  - unfold _evaluate, interpolate, interpolate_callback. simpl.
    destruct (getitem _ 0); reflexivity.
  - reflexivity.
  - intros variables fo1 fo2 idims. reflexivity.
  - reflexivity.
  - reflexivity.
Qed.

(** ** The precomputed scheme *)

Lemma enumerate_snd {A} (l : list A) : map snd (enumerate l) = l.
Proof.
  unfold enumerate. apply combine_map_snd. now rewrite length_seq.
Qed.

Lemma precomputed_weights_ok s ddim idim :
  let self := PrecomputedInterpolator s in
  NoDup (_gdim self) ->
  _ddim self = Ok ddim -> _idim self = Ok idim ->
  _weights self
  = Ok (map (fun did : nat * Dimension =>
               (snd did, precomputed_axis_weights self ddim idim (fst did)))
            (enumerate (_gdim self))).
Proof.
  intros self Hnd Hd Hi. unfold _weights. fold self.
  rewrite (mapM_ok_map _ (fun did : nat * Dimension =>
             (snd did, precomputed_axis_weights self ddim idim (fst did)))).
  - simpl. f_equal. apply dict_of_NoDup.
    rewrite map_map. simpl. now rewrite enumerate_snd.
  - intros [di d] _. unfold precomputed_axis_weights.
    rewrite (mapM_ok_map _ (fun k : Z =>
               subs (dict_of expr_eq_dec
                       [(Dim ddim, Num (inject_Z (Z.of_nat di)));
                        (Dim idim, Num (inject_Z k))]) (_icoeffs self))).
    + reflexivity.
    + intros k _. rewrite Hd, Hi. reflexivity.
Qed.

(** C8.  The per-axis offsets of the precomputed scheme are
    exactly the integers [x] with [(-r)//2 + 1 <= x < r//2 + 1], each
    once; there are [r] of them (none when [r] is not positive), not [2r];
    and the weight list of an axis holds one table lookup per offset of that
    range, in the order of the range. *)
Theorem precomputed_offsets_and_weights (s : SparseFunction)
    (ddim idim : Dimension) :
  let self := PrecomputedInterpolator s in
  NoDup (_gdim self) ->
  _ddim self = Ok ddim -> _idim self = Ok idim ->
  (forall x, In x (_interp_points self)
             <-> (- r self) / 2 + 1 <= x < r self / 2 + 1)
  /\ NoDup (_interp_points self)
  /\ List.length (_interp_points self) = Z.to_nat (r self)
  /\ exists ws,
      _weights self = Ok ws
      /\ forall di d,
          nth_error (_gdim self) di = Some d ->
          dict_get string_dec ws d
          = Ok (map (fun k : Z =>
                       subs (dict_of expr_eq_dec
                               [(Dim ddim, Num (inject_Z (Z.of_nat di)));
                                (Dim idim, Num (inject_Z k))])
                            (_icoeffs self))
                    (_interp_points self)).
Proof.
  intros self Hnd Hd Hi. split; [|split; [|split]].
  - intros x. apply range_In.
  - apply interp_points_NoDup.
  - apply precomputed_interp_points_length.
  - eexists. split; [exact (precomputed_weights_ok s ddim idim Hnd Hd Hi)|].
    intros di d Hdi. unfold dict_get.
    rewrite (dict_lookup_NoDup_In string_dec _ d
               (precomputed_axis_weights self ddim idim di)).
    + reflexivity.
    + rewrite map_map. simpl. now rewrite enumerate_snd.
    + apply in_map_iff. exists (di, d). split; [reflexivity|].
      eapply nth_error_In. apply enumerate_nth. exact Hdi.
Qed.

Lemma precomputed_offsets_and_weights_witness :
  List.length (_interp_points Example.precomputed) = 4%nat.
Proof.
  destruct (precomputed_offsets_and_weights (Example.src 4 None) "d"%string "i"%string
              example_gdim_distinct eq_refl eq_refl) as (_ & _ & H & _).
  exact H.
Defined.

(** The precomputed range of radius 4 has 4 offsets, not 8. *)
Lemma precomputed_range_is_not_2r :
  r Example.precomputed = 4
  /\ _interp_points Example.precomputed = [-1; 0; 1; 2]
  /\ List.length (_interp_points Example.precomputed)
     <> Z.to_nat (2 * r Example.precomputed).
Proof. repeat split. discriminate. Qed.

(** ** Combining deferred operations *)

Lemma item_nested_ind (P : item -> Prop) :
  (forall op, P (ItemOp op)) ->
  (forall e, P (ItemEq e)) ->
  (forall l, Forall P l -> P (ItemList l)) ->
  forall el, P el.
Proof.
  intros HOp HEq HList. fix IH 1. intros [op|e|l].
  - apply HOp.
  - apply HEq.
  - apply HList. induction l as [|x l IHl]; constructor; [apply IH | apply IHl].
Qed.

Lemma flatten_item_atoms el : Forall (fun x => is_atom x = true) (flatten_item el).
Proof.
  induction el as [op|e|l IH] using item_nested_ind; simpl.
  - repeat constructor.
  - repeat constructor.
  - induction IH as [|x l Hx _ IHl]; simpl; [constructor|].
    apply Forall_app. split; assumption.
Qed.

Lemma flatten_atoms l : Forall (fun x => is_atom x = true) (flatten l).
Proof. exact (flatten_item_atoms (ItemList l)). Qed.

Lemma flatten_of_atoms l :
  Forall (fun x => is_atom x = true) l -> flatten l = l.
Proof.
  unfold flatten. induction 1 as [|x l Hx _ IH]; simpl; [reflexivity|].
  rewrite IH. destruct x; [reflexivity | reflexivity | discriminate].
Qed.

Lemma flatten_app l1 l2 : flatten (l1 ++ l2) = flatten l1 ++ flatten l2.
Proof. unfold flatten. apply flat_map_app. Qed.

Lemma mapM_app {A B} (f : A -> result B) (l1 l2 : list A) :
  mapM f (l1 ++ l2)
  = (a <- mapM f l1 ;; b <- mapM f l2 ;; Ok (a ++ b)).
Proof.
  induction l1 as [|x l1 IH]; simpl.
  - now destruct (mapM f l2).
  - destruct (f x) as [y|e]; simpl; [|reflexivity].
    rewrite IH. destruct (mapM f l1) as [a|e]; simpl; [|reflexivity].
    now destruct (mapM f l2).
Qed.

Lemma force_app l1 l2 :
  force (l1 ++ l2) = (a <- force l1 ;; b <- force l2 ;; Ok (a ++ b)).
Proof.
  unfold force. rewrite mapM_app.
  destruct (mapM force_item l1) as [a|e]; simpl; [|reflexivity].
  destruct (mapM force_item l2) as [b|e]; simpl; [|reflexivity].
  now rewrite concat_app.
Qed.

Lemma force_singleton el : force [el] = force_item el.
Proof.
  unfold force. simpl. destruct (force_item el) as [l|e]; simpl; [|reflexivity].
  now rewrite app_nil_r.
Qed.

(** Forcing after flattening is forcing. *)
Lemma force_flatten_item el : force (flatten_item el) = force_item el.
Proof.
  induction el as [op|e|l IH] using item_nested_ind.
  - apply force_singleton.
  - apply force_singleton.
  - simpl. induction IH as [|x l Hx _ IHl]; simpl; [reflexivity|].
    rewrite force_app, Hx, IHl.
    destruct (force_item x) as [a|e]; simpl; [|reflexivity].
    now destruct (mapM force_item l).
Qed.

Lemma force_flatten l : force (flatten l) = force l.
Proof. exact (force_flatten_item (ItemList l)). Qed.

(** C6.  [op1 + op2] is the flat list of the two operations, still
    deferred and in that order; forcing its elements in order and
    concatenating yields the equations of [op1] followed by those of [op2].
    Adding a third operation, or operations and raw lists of equations on
    either side, keeps the list flat and in order; the result does not
    depend on how the operands are grouped; and forcing commutes with
    flattening. *)
Theorem add_is_flat_and_ordered (op1 op2 op3 : SparseOperation) :
  py_add (ItemOp op1) (ItemOp op2) = Some [ItemOp op1; ItemOp op2]
  /\ force (__add__ op1 (ItemOp op2))
     = (l1 <- _evaluate op1 ;; l2 <- _evaluate op2 ;; Ok (l1 ++ l2))
  /\ py_add (ItemList (__add__ op1 (ItemOp op2))) (ItemOp op3)
     = Some [ItemOp op1; ItemOp op2; ItemOp op3]
  /\ py_add (ItemOp op1) (ItemList (__add__ op2 (ItemOp op3)))
     = Some [ItemOp op1; ItemOp op2; ItemOp op3]
  /\ (forall eqs : list Equation,
         py_add (ItemList (map ItemEq eqs)) (ItemOp op1)
         = Some (map ItemEq eqs ++ [ItemOp op1])
         /\ py_add (ItemOp op1) (ItemList (map ItemEq eqs))
            = Some (ItemOp op1 :: map ItemEq eqs))
  /\ (forall a b c : item,
         flatten [ItemList (flatten [a; b]); c] = flatten [a; b; c]
         /\ flatten [a; ItemList (flatten [b; c])] = flatten [a; b; c])
  /\ (forall l, Forall (fun x => is_atom x = true) (flatten l))
  /\ (forall l, force (flatten l) = force l).
Proof.
  split; [reflexivity|]. split.
  { unfold __add__, flatten, force. simpl.
    destruct (_evaluate op1) as [l1|e]; simpl; [|reflexivity].
    destruct (_evaluate op2) as [l2|e]; simpl; [|reflexivity].
    now rewrite app_nil_r. }
  split; [reflexivity|]. split; [reflexivity|]. split.
  { intros eqs. unfold py_add, __add__, __radd__, flatten. simpl.
    assert (Hflat : flat_map flatten_item (map ItemEq eqs) = map ItemEq eqs).
    { induction eqs as [|e eqs IH]; simpl; [reflexivity | now rewrite IH]. }
    rewrite Hflat, app_nil_r. split; [|reflexivity].
    destruct eqs; reflexivity. }
  split.
  { intros a b c. unfold flatten. simpl. rewrite !app_nil_r.
    fold (flatten (flatten_item a ++ flatten_item b)).
    fold (flatten (flatten_item b ++ flatten_item c)).
    rewrite !flatten_app.
    rewrite !(flatten_of_atoms _ (flatten_item_atoms _)).
    now rewrite app_assoc. }
  split; [exact flatten_atoms | exact force_flatten].
Qed.

(** The sum of two operations is a list of two deferred operations, not the
    list of their equations. *)
Lemma add_does_not_force :
  _evaluate Example.interpolation = Ok example_interpolation_eqs
  /\ _evaluate Example.injection = Ok example_injection_eqs
  /\ __add__ Example.interpolation (ItemOp Example.injection)
     <> map ItemEq (example_interpolation_eqs ++ example_injection_eqs).
Proof.
  split; [reflexivity|]. split; [reflexivity|].
  intros H. apply (f_equal (@List.length item)) in H. discriminate H.
Qed.

(** ** The linear scheme *)

Lemma mapM_zip_positions {A B C D} (f : A * C -> result D)
    (g : (A * B) * C -> D) (ds : list A) (ps : list B) (t : list C) :
  (List.length ds <= List.length ps)%nat ->
  (forall j d p i, nth_error ds j = Some d -> nth_error ps j = Some p ->
                   nth_error t j = Some i -> f (d, i) = Ok (g ((d, p), i))) ->
  mapM f (zip ds t) = Ok (map g (zip (zip ds ps) t)).
Proof.
  unfold zip. revert ps t.
  induction ds as [|d ds IH]; intros ps t Hlen H; simpl; [reflexivity|].
  destruct ps as [|p ps]; simpl in Hlen; [lia|].
  destruct t as [|i t]; simpl; [reflexivity|].
  rewrite (H 0%nat d p i eq_refl eq_refl eq_refl). simpl.
  rewrite (IH ps t); [reflexivity | lia |].
  intros j d' p' i' Hd Hp Hi. exact (H (S j) d' p' i' Hd Hp Hi).
Qed.

Section Linear.
Variable s : SparseFunction.
Let self := LinearInterpolator s.

Hypothesis gdim_distinct : NoDup (_gdim self).
Hypothesis one_symbol_per_axis :
  List.length (dict_values (_psym self)) = List.length (_gdim self).

Lemma linear_weights_ok :
  _weights self
  = Ok (map (fun dp : Dimension * expr =>
               (fst dp, linear_axis_weights (fst dp) (snd dp)))
            (axes self)).
Proof.
  unfold _weights, self. f_equal.
  rewrite dict_of_NoDup.
  - apply map_ext. now intros [d p].
  - rewrite map_map.
    erewrite map_ext with (g := fst) by (now intros [d p]).
    now apply combine_fst_NoDup.
Qed.

Lemma linear_axis_lookup j d p :
  nth_error (_gdim self) j = Some d ->
  nth_error (dict_values (_psym self)) j = Some p ->
  exists ws, _weights self = Ok ws
             /\ dict_get string_dec ws d = Ok (linear_axis_weights d p).
Proof.
  intros Hd Hp. eexists. split; [apply linear_weights_ok|].
  unfold dict_get.
  rewrite (dict_lookup_NoDup_In string_dec _ d (linear_axis_weights d p)).
  - reflexivity.
  - rewrite map_map. simpl. now apply combine_fst_NoDup.
  - apply in_map_iff. exists (d, p). split; [reflexivity|].
    eapply combine_nth_In; eassumption.
Qed.

Lemma linear_weight_at j d p i :
  nth_error (_gdim self) j = Some d ->
  nth_error (dict_values (_psym self)) j = Some p ->
  weight_at self (d, i) = getitem (linear_axis_weights d p) i.
Proof.
  intros Hd Hp. destruct (linear_axis_lookup j d p Hd Hp) as (ws & Hw & Hg).
  unfold weight_at. rewrite Hw. simpl. rewrite Hg. reflexivity.
Qed.

Hypothesis radius_one : r self = 1.

Lemma linear_points_r1 : _interp_points self = [0; 1].
Proof. unfold _interp_points, self. fold self. now rewrite radius_one. Qed.

Lemma linear_neighbor_coeff t :
  In t (_nd_points self) -> neighbor_coeff self t = Ok (linear_coeff self t).
Proof.
  intros Ht. apply product_In in Ht as [_ Ht]. rewrite linear_points_r1 in Ht.
  unfold neighbor_coeff, linear_coeff, axes.
  rewrite (mapM_zip_positions (weight_at self) linear_pick
             (_gdim self) (dict_values (_psym self)) t); [reflexivity | lia |].
  intros j d p i Hd Hp Hi.
  rewrite (linear_weight_at j d p i Hd Hp).
  rewrite Forall_forall in Ht.
  destruct (Ht i (nth_error_In _ _ Hi)) as [<-|[<-|[]]]; reflexivity.
Qed.

Lemma linear_coeffs_ok :
  _interpolation_coeffs self = Ok (map (linear_coeff self) (_nd_points self)).
Proof.
  rewrite interpolation_coeffs_mapM. apply mapM_ok_map.
  intros t Ht. now apply linear_neighbor_coeff.
Qed.

End Linear.

(** ** Partition of unity *)

Lemma sum_eval_app rho l1 l2 s1 s2 :
  sum_eval rho l1 = Some s1 -> sum_eval rho l2 = Some s2 ->
  exists s, sum_eval rho (l1 ++ l2) = Some s /\ (s == s1 + s2)%Q.
Proof.
  revert s1. induction l1 as [|e l1 IH]; intros s1 H1 H2; simpl in *.
  - injection H1 as <-. exists s2. split; [assumption | ring].
  - destruct (eval rho e) as [x|]; [|discriminate].
    destruct (sum_eval rho l1) as [s1'|]; [|discriminate].
    injection H1 as <-.
    destruct (IH s1' eq_refl H2) as (s & -> & Hs).
    simpl. eexists. split; [reflexivity|]. rewrite Hs. ring.
Qed.

Lemma linear_pick_values rho d p x :
  eval rho p = Some x -> ~ (val_spacing rho d == 0)%Q ->
  eval rho (linear_pick ((d, p), 0)) = Some (1 - x / val_spacing rho d)%Q
  /\ eval rho (linear_pick ((d, p), 1)) = Some (x / val_spacing rho d)%Q.
Proof.
  intros Hx Hh. unfold linear_pick. simpl. rewrite Hx.
  destruct (Qeq_bool (val_spacing rho d) 0) eqn:E.
  - apply Qeq_bool_iff in E. contradiction.
  - split; reflexivity.
Qed.

(** Summed over all tuples of [{0, 1}], the products of the selected
    weights give back the value they were accumulated onto. *)
Lemma linear_partition rho (A : list (Dimension * expr)) :
  (forall dp, In dp A ->
              (exists x, eval rho (snd dp) = Some x)
              /\ ~ (val_spacing rho (fst dp) == 0)%Q) ->
  forall acc a,
    eval rho acc = Some a ->
    exists s,
      sum_eval rho (map (fun t => fold_left Mul (map linear_pick (zip A t)) acc)
                        (product [0; 1] (List.length A)))
      = Some s
      /\ (s == a)%Q.
Proof.
  induction A as [|[d p] A IH]; intros HA acc a Hacc.
  - simpl. rewrite Hacc. simpl. eexists. split; [reflexivity | ring].
  - destruct (HA (d, p) (or_introl eq_refl)) as [[x Hx] Hh]. simpl in Hx, Hh.
    destruct (linear_pick_values rho d p x Hx Hh) as [H0 H1].
    assert (HA' : forall dp, In dp A ->
                             (exists x, eval rho (snd dp) = Some x)
                             /\ ~ (val_spacing rho (fst dp) == 0)%Q)
      by (intros dp Hdp; apply HA; now right).
    destruct (IH HA' (Mul acc (linear_pick ((d, p), 0)))
                (a * (1 - x / val_spacing rho d))%Q) as (s0 & Hs0 & Es0).
    { simpl. rewrite Hacc. simpl in H0. rewrite H0. reflexivity. }
    destruct (IH HA' (Mul acc (linear_pick ((d, p), 1)))
                (a * (x / val_spacing rho d))%Q) as (s1 & Hs1 & Es1).
    { simpl. rewrite Hacc. simpl in H1. rewrite H1. reflexivity. }
    change (product [0; 1] (List.length ((d, p) :: A)))
      with (map (cons 0) (product [0; 1] (List.length A))
            ++ map (cons 1) (product [0; 1] (List.length A)) ++ []).
    rewrite app_nil_r, map_app, !map_map.
    destruct (sum_eval_app rho _ _ s0 s1 Hs0 Hs1) as (s & Hs & Es).
    exists s. split; [exact Hs|].
    rewrite Es, Es0, Es1. ring.
Qed.

(** C3.  The linear scheme gives each axis, of spacing symbol [h] and local
    position symbol [p], the two weights [1 - p/h] and [p/h], read at the
    offsets 0 and 1.  With the radius 1 of that scheme the combined weights
    exist and their values sum to 1, whatever the values of the local
    positions (in particular on [0,1)^d) as long as no spacing is zero.  On
    the two-dimensional grid of spacing 1 with a point at (0.3, 0.7) the
    four combined weights are 0.21, 0.49, 0.09 and 0.21, in that order. *)
Theorem linear_weights_partition_of_unity (s : SparseFunction) :
  let self := LinearInterpolator s in
  NoDup (_gdim self) ->
  List.length (dict_values (_psym self)) = List.length (_gdim self) ->
  r self = 1 ->
  _interp_points self = [0; 1]
  /\ (forall j d p,
         nth_error (_gdim self) j = Some d ->
         nth_error (dict_values (_psym self)) j = Some p ->
         exists ws,
           _weights self = Ok ws
           /\ dict_get string_dec ws d
              = Ok [Sub (Num 1) (Div p (Spacing d)); Div p (Spacing d)])
  /\ (forall rho,
         (forall dp, In dp (axes self) ->
                     (exists x, eval rho (snd dp) = Some x)
                     /\ ~ (val_spacing rho (fst dp) == 0)%Q) ->
         exists ws total,
           _interpolation_coeffs self = Ok ws
           /\ sum_eval rho ws = Some total
           /\ (total == 1)%Q)
  /\ (exists ws,
         _interpolation_coeffs Example.linear = Ok ws
         /\ map (fun w => option_map Qred (eval Example.rho w)) ws
            = [Some (21 # 100); Some (49 # 100); Some (9 # 100); Some (21 # 100)]%Q
         /\ option_map Qred (sum_eval Example.rho ws) = Some 1%Q).
Proof.
  intros self Hnd Hlen Hr. subst self. split; [|split; [|split]].
  - exact (linear_points_r1 s Hr).
  - intros j d p Hd Hp. exact (linear_axis_lookup s Hnd j d p Hd Hp).
  - intros rho Hax.
    exists (map (linear_coeff (LinearInterpolator s))
                (_nd_points (LinearInterpolator s))).
    destruct (linear_partition rho (axes (LinearInterpolator s)) Hax
                (Num 1) 1%Q eq_refl) as (total & Hsum & Htotal).
    exists total. split; [exact (linear_coeffs_ok s Hnd Hlen Hr)|].
    split; [|exact Htotal].
    unfold _nd_points. rewrite (linear_points_r1 s Hr).
    replace (grid_dim (grid (LinearInterpolator s)))
      with (List.length (axes (LinearInterpolator s))).
    + exact Hsum.
    + unfold axes, zip, grid_dim. rewrite length_combine.
      fold (_gdim (LinearInterpolator s)). lia.
  - eexists. split; [vm_compute; reflexivity|]. split; reflexivity.
Qed.

Lemma example_axes_evaluate dp :
  In dp (axes Example.linear) ->
  (exists x, eval Example.rho (snd dp) = Some x)
  /\ ~ (val_spacing Example.rho (fst dp) == 0)%Q.
Proof.
  intros [<-|[<-|[]]]; (split; [eexists; reflexivity | discriminate]).
Qed.

Lemma linear_weights_partition_of_unity_witness :
  exists ws total,
    _interpolation_coeffs Example.linear = Ok ws
    /\ sum_eval Example.rho ws = Some total
    /\ (total == 1)%Q.
Proof.
  destruct (linear_weights_partition_of_unity (Example.src 1 None)
              example_gdim_distinct eq_refl eq_refl) as (_ & _ & H & _).
  exact (H Example.rho example_axes_evaluate).
Defined.

Lemma Forall2_map_r {A B} (R : A -> B -> Prop) (g : A -> B) (l : list A) :
  (forall x, In x l -> R x (g x)) -> Forall2 R l (map g l).
Proof.
  induction l as [|x l IH]; intros H; simpl; constructor.
  - apply H. now left.
  - apply IH. intros y Hy. apply H. now right.
Qed.

(** C7.  With the radius 1 of the linear scheme, on a grid of
    dimension [d] the scheme produces exactly [2^d] combined weights, one
    per neighbor tuple, and each is the product of exactly [d] factors, the
    factor of an axis being the weight of that axis selected by the
    component of the tuple. *)
Theorem linear_weight_count (s : SparseFunction) :
  let self := LinearInterpolator s in
  NoDup (_gdim self) ->
  List.length (dict_values (_psym self)) = List.length (_gdim self) ->
  r self = 1 ->
  exists ws,
    _interpolation_coeffs self = Ok ws
    /\ List.length ws = (2 ^ grid_dim (grid self))%nat
    /\ forall k w,
        nth_error ws k = Some w ->
        exists t fs,
          nth_error (_nd_points self) k = Some t
          /\ w = prod fs
          /\ List.length fs = grid_dim (grid self)
          /\ Forall2 (fun (dpi : (Dimension * expr) * Z) f =>
                        getitem (linear_axis_weights (fst (fst dpi))
                                   (snd (fst dpi))) (snd dpi) = Ok f)
                     (zip (axes self) t) fs.
Proof.
  intros self Hnd Hlen Hr. subst self.
  exists (map (linear_coeff (LinearInterpolator s))
              (_nd_points (LinearInterpolator s))).
  split; [exact (linear_coeffs_ok s Hnd Hlen Hr)|]. split.
  - rewrite length_map, nd_points_length, (linear_points_r1 s Hr). reflexivity.
  - intros k w Hk. rewrite nth_error_map in Hk.
    destruct (nth_error (_nd_points (LinearInterpolator s)) k) as [t|] eqn:Ht;
      [|discriminate].
    injection Hk as <-.
    exists t, (map linear_pick (zip (axes (LinearInterpolator s)) t)).
    pose proof (nth_error_In _ _ Ht) as Hin.
    apply product_In in Hin as [Htl Hpts].
    rewrite (linear_points_r1 s Hr) in Hpts.
    split; [reflexivity|]. split; [reflexivity|]. split.
    + rewrite length_map. unfold axes, zip. rewrite !length_combine.
      fold (_gdim (LinearInterpolator s)). unfold grid_dim in *.
      fold (_gdim (LinearInterpolator s)) in *. lia.
    + apply Forall2_map_r. intros [[d p] i] Hdpi.
      apply in_combine_r in Hdpi. rewrite Forall_forall in Hpts.
      destruct (Hpts i Hdpi) as [<-|[<-|[]]]; reflexivity.
Qed.

Lemma linear_weight_count_witness :
  exists ws,
    _interpolation_coeffs Example.linear = Ok ws /\ List.length ws = 4%nat.
Proof.
  destruct (linear_weight_count (Example.src 1 None)
              example_gdim_distinct eq_refl eq_refl) as (ws & Hws & Hl & _).
  exists ws. split; [exact Hws | exact Hl].
Defined.

(** With radius 2 on a two-dimensional grid the linear scheme produces no
    weight list at all: reading the two-element weight list of an axis at
    the offset 2 raises [IndexError]. *)
Lemma linear_radius_two_raises :
  r Example.linear_r2 = 2
  /\ grid_dim (grid Example.linear_r2) = 2%nat
  /\ _interpolation_coeffs Example.linear_r2 = Raise IndexError
  /\ ~ (exists ws, _interpolation_coeffs Example.linear_r2 = Ok ws
                   /\ List.length ws = (2 ^ 2)%nat).
Proof.
  split; [reflexivity|]. split; [reflexivity|].
  assert (H : _interpolation_coeffs Example.linear_r2 = Raise IndexError)
    by (vm_compute; reflexivity).
  split; [exact H|]. intros (ws & Hws & _). rewrite H in Hws. discriminate.
Qed.

(** ** Weights and substitutions of a neighbor *)

Lemma mapM_ok_exists {A B} (f : A -> result B) (l : list A) :
  (forall x, In x l -> exists y, f x = Ok y) -> exists ys, mapM f l = Ok ys.
Proof.
  induction l as [|x l IH]; intros H; simpl; [eauto|].
  destruct (H x (or_introl eq_refl)) as [y ->]. simpl.
  destruct IH as [ys ->]; [intros z Hz; apply H; now right|].
  simpl. eauto.
Qed.

(** The precomputed scheme always produces its combined weights: the
    weight list of an axis has one entry per offset, and every offset is a
    valid index into it. *)
Lemma precomputed_coeffs_produced s ddim idim :
  NoDup (_gdim (PrecomputedInterpolator s)) ->
  _ddim (PrecomputedInterpolator s) = Ok ddim ->
  _idim (PrecomputedInterpolator s) = Ok idim ->
  exists ws, _interpolation_coeffs (PrecomputedInterpolator s) = Ok ws.
Proof.
  intros Hnd Hd Hi. rewrite interpolation_coeffs_mapM.
  apply mapM_ok_exists. intros t Ht. apply product_In in Ht as [_ Ht].
  unfold neighbor_coeff.
  destruct (mapM_ok_exists (weight_at (PrecomputedInterpolator s))
              (zip (_gdim (PrecomputedInterpolator s)) t)) as [fs ->];
    [|simpl; eauto].
  intros [d i] Hdi. unfold weight_at.
  rewrite (precomputed_weights_ok s ddim idim Hnd Hd Hi). simpl.
  pose proof (in_combine_l _ _ _ _ Hdi) as Hdin.
  apply In_nth_error in Hdin as [j Hj].
  unfold dict_get.
  rewrite (dict_lookup_NoDup_In string_dec _ d
             (precomputed_axis_weights (PrecomputedInterpolator s) ddim idim j)).
  - simpl.
    destruct (getitem_in_bounds
                (precomputed_axis_weights (PrecomputedInterpolator s) ddim idim j)
                i) as (x & Hx & _); [|eauto].
    unfold precomputed_axis_weights. rewrite length_map.
    apply interp_points_index_bounds.
    rewrite Forall_forall in Ht. apply Ht.
    exact (in_combine_r _ _ _ _ Hdi).
  - rewrite map_map. simpl. now rewrite enumerate_snd.
  - apply in_map_iff. exists (j, d). split; [reflexivity|].
    eapply nth_error_In. apply enumerate_nth. exact Hj.
Qed.

(** C2.  The list of combined weights and the list of substitution
    dictionaries are produced (the weights by the precomputed scheme for
    every radius, and by the linear scheme for its radius 1; the
    dictionaries whenever the coefficient temporaries are); they have the
    same length, the number of neighbor tuples; the tuples are the
    cartesian product of the per-axis offset range, each exactly once; and
    for every index [k] the weight [k] and the dictionary [k] are those of
    the same tuple, the [k]-th of the product: on each axis both read their
    per-axis list (the weights of the axis, the guarded dimensions of the
    axis) at the same component of that tuple, and distinct offsets read
    distinct positions of a list that has one entry per offset. *)
Theorem weights_and_substitutions_aligned
    (origin : expr -> dict Dimension expr) (self : Interpolator)
    (variables : list expr) (offset : Z) (field_offset : dict Dimension expr)
    (idims : list Dimension) :
  NoDup (_gdim self) ->
  List.length (Sparse._coordinate_indices (sfunction self))
  = List.length (_gdim self) ->
  (forall s ddim idim,
      self = PrecomputedInterpolator s ->
      _ddim self = Ok ddim -> _idim self = Ok idim ->
      exists ws, _interpolation_coeffs self = Ok ws)
  /\ (forall s,
         self = LinearInterpolator s ->
         List.length (dict_values (_psym self)) = List.length (_gdim self) ->
         r self = 1 ->
         exists ws, _interpolation_coeffs self = Ok ws)
  /\ (forall coeff_temps,
         _coeff_temps self idims = Ok coeff_temps ->
         exists idx_subs temps,
           _interpolation_indices origin self variables offset field_offset idims
           = Ok (idx_subs, temps))
  /\ forall ws idx_subs temps,
      _interpolation_coeffs self = Ok ws ->
      _interpolation_indices origin self variables offset field_offset idims
      = Ok (idx_subs, temps) ->
      List.length ws = List.length idx_subs
      /\ List.length ws
         = (List.length (_interp_points self) ^ grid_dim (grid self))%nat
      /\ NoDup (_nd_points self)
      /\ (forall t,
             In t (_nd_points self)
             <-> List.length t = grid_dim (grid self)
                 /\ Forall (fun x => In x (_interp_points self)) t)
      /\ (forall i i',
             In i (_interp_points self) -> In i' (_interp_points self) ->
             py_index (List.length (_interp_points self)) i
             = py_index (List.length (_interp_points self)) i' ->
             i = i')
      /\ forall k,
          (k < List.length ws)%nat ->
          exists t fs,
            nth_error (_nd_points self) k = Some t
            /\ nth_error ws k = Some (prod fs)
            /\ nth_error idx_subs k
               = Some (neighbor_dict origin self variables t)
            /\ forall j d i,
                nth_error (_gdim self) j = Some d ->
                nth_error t j = Some i ->
                (exists wts wd f,
                    _weights self = Ok wts
                    /\ dict_get string_dec wts d = Ok wd
                    /\ getitem wd i = Ok f
                    /\ nth_error fs j = Some f)
                /\ (exists g,
                       getitem (axis_guards self d) i = Ok g
                       /\ forall v,
                           dict_lookup expr_eq_dec
                             (neighbor_rule origin self v t) (Dim d)
                           = Some (Sub g (dict_get_default string_dec
                                            (origin v) d (Num 0)))).
Proof.
  intros Hnd Hlen. split; [|split; [|split]].
  { intros s ddim idim -> Hd Hi.
    exact (precomputed_coeffs_produced s ddim idim Hnd Hd Hi). }
  { intros s -> Hps Hr. eexists. exact (linear_coeffs_ok s Hnd Hps Hr). }
  { intros ct Hct. rewrite interpolation_indices_closed by assumption.
    rewrite Hct. simpl. eauto. }
  intros ws idx_subs temps Hws Hidx.
  apply interpolation_indices_ok_inv in Hidx as (ct & _ & -> & _);
    try assumption.
  pose proof (interpolation_coeffs_length self ws Hws) as Hl.
  rewrite interpolation_coeffs_mapM in Hws.
  split; [now rewrite length_map|].
  split; [now rewrite Hl, nd_points_length|].
  split; [apply nd_points_NoDup|].
  split; [intros t; apply product_In|].
  split; [exact (selected_position_injective self)|].
  intros k Hk.
  destruct (nth_error (_nd_points self) k) as [t|] eqn:Ht;
    [|apply nth_error_None in Ht; lia].
  destruct (mapM_ok_nth _ _ _ k t Hws Ht) as (w & Hw & Hcoeff).
  unfold neighbor_coeff in Hcoeff.
  destruct (mapM (weight_at self) (zip (_gdim self) t)) as [fs|e] eqn:Hfs;
    simpl in Hcoeff; [|discriminate].
  injection Hcoeff as <-.
  exists t, fs. split; [reflexivity|]. split; [exact Hw|].
  split; [now rewrite nth_error_map, Ht|].
  intros j d i Hd Hi. split.
  - pose proof (nth_error_combine (_gdim self) t j d i Hd Hi) as Hz.
    destruct (mapM_ok_nth _ _ _ j (d, i) Hfs Hz) as (f & Hf & Hwa).
    unfold weight_at in Hwa.
    destruct (_weights self) as [wts|e]; simpl in Hwa; [|discriminate].
    destruct (dict_get string_dec wts d) as [wd|e] eqn:Hwd; simpl in Hwa;
      [|discriminate].
    exists wts, wd, f. repeat split; assumption.
  - exists (guarded_dimension self d (selected_position self i)). split.
    + apply axis_guards_getitem.
      apply nth_error_In in Ht. apply product_In in Ht as [_ Hpts].
      rewrite Forall_forall in Hpts. apply Hpts. eapply nth_error_In; eassumption.
    + intros v. exact (neighbor_rule_lookup origin self Hnd v t j d i Hd Hi).
Qed.

Lemma weights_and_substitutions_aligned_witness :
  exists ws,
    _interpolation_coeffs Example.linear = Ok ws
    /\ List.length ws = List.length (fst example_indices).
Proof.
  destruct (weights_and_substitutions_aligned Example.origin Example.linear
              [Example.u] 0 [] [] example_gdim_distinct eq_refl)
    as (_ & Hlin & _ & Haligned).
  destruct (Hlin (Example.src 1 None) eq_refl eq_refl eq_refl) as [ws Hws].
  exists ws. split; [exact Hws|].
  exact (proj1 (Haligned ws (fst example_indices) (snd example_indices)
                  Hws eq_refl)).
Defined.

(** The linear scheme with the radius 2, on the two-dimensional grid: the
    list of combined weights is not built, the reading of a third weight of
    an axis raising [IndexError], while the index builder returns its 16
    substitution dictionaries.  One list exists without the other. *)
Lemma linear_radius_two_lists_differ :
  _interpolation_coeffs Example.linear_r2 = Raise IndexError
  /\ exists idx_subs temps,
      _interpolation_indices Example.origin Example.linear_r2 [Example.u]
        0 [] []
      = Ok (idx_subs, temps)
      /\ List.length idx_subs = 16%nat
      /\ List.length (_nd_points Example.linear_r2) = 16%nat.
Proof.
  split; [vm_compute; reflexivity|].
  do 2 eexists. split; [vm_compute; reflexivity|]. split; reflexivity.
Qed.

(* ================================================================== *)
(** * Further properties of the builders *)

(** ** Names of the index symbols *)

Lemma append_cancel_l (a s1 s2 : string) :
  (a ++ s1 = a ++ s2)%string -> s1 = s2.
Proof.
  induction a as [|c a IH]; simpl; intros H; [assumption|].
  injection H as H. auto.
Qed.

Lemma digits_without_underscore (d : Decimal.uint) :
  occurs "_"%char (NilEmpty.string_of_uint d) = false.
Proof. induction d; simpl; auto. Qed.

Lemma string_of_uint_inj (d d' : Decimal.uint) :
  NilEmpty.string_of_uint d = NilEmpty.string_of_uint d' -> d = d'.
Proof.
  intros H. pose proof (NilEmpty.usu d) as H1. pose proof (NilEmpty.usu d') as H2.
  rewrite H in H1. congruence.
Qed.

(** A string is cut in one way only at its last underscore. *)
Lemma last_underscore_split (s1 s2 t1 t2 : string) :
  occurs "_"%char t1 = false -> occurs "_"%char t2 = false ->
  (s1 ++ String "_" t1 = s2 ++ String "_" t2)%string ->
  s1 = s2 /\ t1 = t2.
Proof.
  revert s2. induction s1 as [|c s1 IH]; intros s2 H1 H2 H.
  - destruct s2 as [|c s2]; simpl in H.
    + injection H as ->. auto.
    + injection H as <- ->. exfalso.
      clear - H1. induction s2 as [|c s2 IH]; simpl in H1.
      * destruct (ascii_dec "_" "_"); [discriminate | congruence].
      * destruct (ascii_dec c "_"); [discriminate | auto].
  - destruct s2 as [|c' s2]; simpl in H.
    + injection H as -> <-. exfalso.
      clear - H2. induction s1 as [|c s1 IH]; simpl in H2.
      * destruct (ascii_dec "_" "_"); [discriminate | congruence].
      * destruct (ascii_dec c "_"); [discriminate | auto].
    + injection H as -> H. destruct (IH s2 H1 H2 H) as [-> ->]. auto.
Qed.

Lemma ii_name_injective_same (self : Interpolator) (d d' : Dimension)
    (ri ri' : nat) :
  ii_name self d ri = ii_name self d' ri' -> d = d' /\ ri = ri'.
Proof.
  unfold ii_name. intros H.
  apply append_cancel_l in H. apply append_cancel_l in H.
  simpl in H. injection H as H.
  apply last_underscore_split in H as [-> H];
    try apply digits_without_underscore.
  split; [reflexivity|].
  apply string_of_uint_inj in H. now apply DecimalNat.Unsigned.to_uint_inj.
Qed.

(** X1.  Within one sparse function the name of an index symbol determines
    its axis and its position in the offset range: two index symbols of the
    same interpolator are equal only for the same axis and the same
    position.  Across sparse functions the names can coincide, since the
    name of the sparse function and of the axis are joined by the same
    separator. *)
Theorem ii_name_injective (self : Interpolator) (d d' : Dimension) (ri ri' : nat) :
  (ii_name self d ri = ii_name self d' ri' -> d = d' /\ ri = ri')
  /\ ii_name (LinearInterpolator (Edge.named "a"%string)) "b_x"%string 0
     = ii_name (LinearInterpolator (Edge.named "a_b"%string)) "x"%string 0.
Proof.
  split; [apply ii_name_injective_same | reflexivity].
Qed.

(** ** The index definitions *)

Lemma NoDup_flat_map_keyed {A B K} (key : A -> K) (g : A -> list B) (l : list A) :
  NoDup (map key l) ->
  (forall x, In x l -> NoDup (g x)) ->
  (forall x y b, In x l -> In y l -> In b (g x) -> In b (g y) -> key x = key y) ->
  NoDup (flat_map g l).
Proof.
  induction l as [|x l IH]; intros Hk Hg Hd; simpl; [constructor|].
  inversion Hk as [|? ? Hx Hk']; subst.
  apply NoDup_app.
  - apply Hg. now left.
  - apply IH; [assumption | intros y Hy; apply Hg; now right|].
    intros y z b Hy Hz. apply Hd; now right.
  - intros b Hb Hb'. apply in_flat_map in Hb' as (y & Hy & Hby).
    apply Hx. rewrite (Hd x y b); [now apply in_map | now left | now right
                                   | assumption | assumption].
Qed.

Lemma flat_map_constant_length {A B} (g : A -> list B) (l : list A) n :
  (forall x, In x l -> List.length (g x) = n) ->
  List.length (flat_map g l) = (List.length l * n)%nat.
Proof.
  induction l as [|x l IH]; intros H; simpl; [reflexivity|].
  rewrite length_app, (H x (or_introl eq_refl)), IH; [reflexivity|].
  intros y Hy. apply H. now right.
Qed.

Lemma enumerate_fst {A} (l : list A) :
  map fst (enumerate l) = seq 0 (List.length l).
Proof.
  unfold enumerate. generalize 0%nat.
  induction l as [|x l IH]; intros s; simpl; [reflexivity|]. now rewrite IH.
Qed.

Lemma axis_equations_lhs self idims d pos :
  map eq_lhs (axis_equations self idims d pos)
  = map (fun ri => Sym (ii_name self d ri))
        (seq 0 (List.length (_interp_points self))).
Proof.
  unfold axis_equations. rewrite map_map. simpl.
  rewrite <- enumerate_fst, map_map. reflexivity.
Qed.

Lemma index_equations_lhs_NoDup self idims :
  NoDup (_gdim self) -> NoDup (map eq_lhs (index_equations self idims)).
Proof.
  intros Hnd. unfold index_equations.
  rewrite flat_map_concat_map, concat_map, map_map, <- flat_map_concat_map.
  apply (NoDup_flat_map_keyed fst).
  - now apply combine_fst_NoDup.
  - intros [d pos] _. simpl. rewrite axis_equations_lhs.
    apply Injective_map_NoDup; [|apply seq_NoDup].
    intros a b H.
    assert (H' : ii_name self d a = ii_name self d b) by congruence.
    now destruct (ii_name_injective_same self d d a b H').
  - intros [d pos] [d' pos'] b _ _ Hb Hb'. simpl in *.
    rewrite axis_equations_lhs in Hb, Hb'.
    apply in_map_iff in Hb as (a & <- & _).
    apply in_map_iff in Hb' as (a' & H & _).
    assert (H' : ii_name self d' a' = ii_name self d a) by congruence.
    now destruct (ii_name_injective_same self d' d a' a H').
Qed.

(** X2.  The index builder defines every index symbol exactly once: after the
    position and coefficient temporaries it emits one plain assignment to a
    symbol per axis and per offset of the range, and no two of these
    assignments have the same left-hand side. *)
Theorem index_symbols_defined_once
    (origin : expr -> dict Dimension expr) (self : Interpolator)
    (variables : list expr) (offset : Z) (field_offset : dict Dimension expr)
    (idims : list Dimension)
    (idx_subs : list (dict expr expr)) (temps : list Equation) :
  NoDup (_gdim self) ->
  List.length (Sparse._coordinate_indices (sfunction self))
  = List.length (_gdim self) ->
  _interpolation_indices origin self variables offset field_offset idims
  = Ok (idx_subs, temps) ->
  exists coeff_temps definitions,
    _coeff_temps self idims = Ok coeff_temps
    /\ temps = _positions self idims ++ coeff_temps ++ definitions
    /\ List.length definitions
       = (grid_dim (grid self) * List.length (_interp_points self))%nat
    /\ NoDup (map eq_lhs definitions)
    /\ Forall (fun e => is_Inc e = false /\ exists n, eq_lhs e = Sym n)
              definitions.
Proof.
  intros Hnd Hlen H.
  apply interpolation_indices_ok_inv in H as (ct & Hct & _ & ->);
    try assumption.
  exists ct, (index_equations self idims).
  split; [assumption|]. split; [reflexivity|]. split; [|split].
  - unfold index_equations.
    rewrite (flat_map_constant_length _ _ (List.length (_interp_points self))).
    + unfold zip, grid_dim. rewrite length_combine. fold (_gdim self).
      f_equal. lia.
    + intros [d pos] _. unfold axis_equations.
      now rewrite length_map, enumerate_length.
  - now apply index_equations_lhs_NoDup.
  - apply Forall_forall. intros e He. unfold index_equations in He.
    apply in_flat_map in He as ([d pos] & _ & He).
    apply in_map_iff in He as ([ri off] & <- & _). simpl.
    split; [reflexivity | eexists; reflexivity].
Qed.

Lemma index_symbols_defined_once_witness :
  exists definitions,
    List.length definitions = 4%nat /\ NoDup (map eq_lhs definitions).
Proof.
  destruct (index_symbols_defined_once Example.origin Example.linear
              [Example.u] 0 [] [] (fst example_indices) (snd example_indices)
              example_gdim_distinct eq_refl eq_refl)
    as (ct & defs & _ & _ & Hl & Hn & _).
  exists defs. split; [exact Hl | exact Hn].
Defined.

(** ** Radii and classes without weights *)

Lemma mapM_raise_only {A B} (f : A -> result B) (l : list A) e :
  (forall x, In x l -> (exists y, f x = Ok y) \/ f x = Raise e) ->
  (exists x, In x l /\ f x = Raise e) ->
  mapM f l = Raise e.
Proof.
  induction l as [|x l IH]; intros Hall (x0 & Hin & Hx0); [contradiction|].
  simpl. destruct (Hall x (or_introl eq_refl)) as [[y Hy]|Hr].
  - rewrite Hy. simpl. rewrite IH; [reflexivity | |].
    + intros z Hz. apply Hall. now right.
    + destruct Hin as [->|Hin]; [congruence|]. eauto.
  - now rewrite Hr.
Qed.

Lemma mapM_ok_or_raise {A B} (f : A -> result B) (l : list A) e :
  (forall x, In x l -> (exists y, f x = Ok y) \/ f x = Raise e) ->
  (exists ys, mapM f l = Ok ys) \/ mapM f l = Raise e.
Proof.
  induction l as [|x l IH]; intros Hall; simpl; [left; eauto|].
  destruct (Hall x (or_introl eq_refl)) as [[y Hy]|Hr]; rewrite ?Hy, ?Hr; simpl;
    [|now right].
  assert (Hl : forall z, In z l -> (exists y, f z = Ok y) \/ f z = Raise e)
    by (intros z Hz; apply Hall; now right).
  destruct (IH Hl) as [[ys Hys]|Hr]; rewrite ?Hys, ?Hr; simpl;
    [left; eauto | now right].
Qed.

Lemma getitem_ok_or_index_error {A} (l : list A) (i : Z) :
  (exists x, getitem l i = Ok x) \/ getitem l i = Raise IndexError.
Proof.
  unfold getitem. destruct (_ && _); [|now right].
  destruct (nth_error l _); [left; eauto | now right].
Qed.

Lemma getitem_beyond {A} (l : list A) (i : Z) :
  Z.of_nat (List.length l) <= i -> getitem l i = Raise IndexError.
Proof.
  intros H. unfold getitem.
  destruct (Z.ltb_spec i 0); [lia|].
  destruct (Z.ltb_spec i (Z.of_nat (List.length l))); [lia|].
  now rewrite andb_false_r.
Qed.

Lemma product_first {A} (pool : list A) (x : A) (xs : list A) n :
  pool = x :: xs ->
  exists t rest, product pool n = t :: rest /\ List.length t = n.
Proof.
  intros ->. induction n as [|n (t & rest & IH & Hl)]; simpl.
  - eauto.
  - rewrite IH. simpl. eexists (x :: t), _. split; [reflexivity|].
    simpl. now rewrite Hl.
Qed.

Lemma linear_coeff_ok_or_index_error s t :
  NoDup (_gdim (LinearInterpolator s)) ->
  List.length (dict_values (_psym (LinearInterpolator s)))
  = List.length (_gdim (LinearInterpolator s)) ->
  (exists w, neighbor_coeff (LinearInterpolator s) t = Ok w)
  \/ neighbor_coeff (LinearInterpolator s) t = Raise IndexError.
Proof.
  intros Hnd Hlen. unfold neighbor_coeff.
  destruct (mapM_ok_or_raise (weight_at (LinearInterpolator s))
              (zip (_gdim (LinearInterpolator s)) t) IndexError)
    as [[fs ->]| ->]; simpl; [|left; eauto | now right].
  intros [d i] Hdi. apply in_combine_l in Hdi.
  apply In_nth_error in Hdi as [j Hj].
  destruct (nth_error (dict_values (_psym (LinearInterpolator s))) j)
    as [p|] eqn:Hp.
  - rewrite (linear_weight_at s Hnd j d p i Hj Hp).
    apply getitem_ok_or_index_error.
  - apply nth_error_None in Hp.
    assert (j < List.length (_gdim (LinearInterpolator s)))%nat
      by (apply nth_error_Some; congruence).
    lia.
Qed.

Lemma linear_coeffs_raise s :
  NoDup (_gdim (LinearInterpolator s)) ->
  List.length (dict_values (_psym (LinearInterpolator s)))
  = List.length (_gdim (LinearInterpolator s)) ->
  2 <= r (LinearInterpolator s) ->
  _gdim (LinearInterpolator s) <> [] ->
  _interpolation_coeffs (LinearInterpolator s) = Raise IndexError.
Proof.
  intros Hnd Hlen Hr Hdim. rewrite interpolation_coeffs_mapM.
  apply mapM_raise_only.
  - intros t _. now apply linear_coeff_ok_or_index_error.
  - exists (repeat (r (LinearInterpolator s))
                   (grid_dim (grid (LinearInterpolator s)))).
    split.
    + apply product_In. split; [apply repeat_length|].
      apply Forall_forall. intros x Hx. apply repeat_spec in Hx. subst x.
      rewrite linear_interp_points. apply range_In. unfold r in *. simpl in *. lia.
    + assert (Hfirst : forall d0 ds,
                 _gdim (LinearInterpolator s) = d0 :: ds ->
                 weight_at (LinearInterpolator s) (d0, r (LinearInterpolator s))
                 = Raise IndexError).
      { intros d0 ds Hg.
        destruct (dict_values (_psym (LinearInterpolator s))) as [|p0 ps] eqn:Hps;
          [rewrite Hg in Hlen; discriminate|].
        rewrite (linear_weight_at s Hnd 0%nat d0 p0);
          [|now rewrite Hg | now rewrite Hps].
        apply getitem_beyond. simpl. lia. }
      unfold neighbor_coeff, grid_dim. fold (_gdim (LinearInterpolator s)).
      destruct (_gdim (LinearInterpolator s)) as [|d0 ds] eqn:Hg; [congruence|].
      unfold zip. cbn [List.length repeat combine mapM].
      now rewrite (Hfirst d0 ds eq_refl).
Qed.

(** X3.  The linear scheme works for the radius 1 only: with a radius of 2
    or more on a grid with at least one axis, building the combined weights
    raises [IndexError] (the two-element weight list of an axis is read at
    an offset beyond it), and so does forcing an injection or, when the
    expression has a carrier, an interpolation, once the coefficient
    temporaries are built. *)
Theorem linear_radius_above_one_raises
    (origin : expr -> dict Dimension expr)
    (retrieve_function_carriers : expr -> list expr)
    (evaluate : expr -> option expr)
    (s : SparseFunction) :
  let self := LinearInterpolator s in
  NoDup (_gdim self) ->
  List.length (dict_values (_psym self)) = List.length (_gdim self) ->
  List.length (Sparse._coordinate_indices s) = List.length (_gdim self) ->
  2 <= r self ->
  _gdim self <> [] ->
  _interpolation_coeffs self = Raise IndexError
  /\ forall field expr offset increment self_subs implicit_dims0 coeff_temps,
      _coeff_temps self (implicit_dims self implicit_dims0) = Ok coeff_temps ->
      _evaluate (inject origin retrieve_function_carriers evaluate self field
                   expr offset implicit_dims0) = Raise IndexError
      /\ _evaluate (interpolate origin retrieve_function_carriers evaluate self
                      expr offset increment self_subs implicit_dims0)
         = Raise IndexError.
Proof.
  intros self Hnd Hps Hlen Hr Hdim. subst self.
  pose proof (linear_coeffs_raise s Hnd Hps Hr Hdim) as Hc.
  split; [exact Hc|].
  intros field expr offset increment self_subs implicit_dims0 ct Hct. split.
  - unfold _evaluate, inject. simpl.
    rewrite inject_callback_closed by assumption. cbv zeta.
    rewrite Hct, Hc. reflexivity.
  - unfold _evaluate, interpolate. simpl.
    rewrite interpolate_callback_closed by assumption. cbv zeta.
    match goal with
    | |- context [getitem ?vs 0] =>
        destruct (getitem_ok_or_index_error vs 0) as [[v0 Hv]|Hv]; rewrite Hv
    end; cbn [bind]; [|reflexivity].
    rewrite Hct, Hc. reflexivity.
Qed.

Lemma linear_radius_above_one_raises_witness :
  _interpolation_coeffs Example.linear_r2 = Raise IndexError.
Proof.
  refine (proj1 (linear_radius_above_one_raises Example.origin
                   Example.retrieve_function_carriers Example.evaluate
                   (Example.src 2 None) example_gdim_distinct eq_refl eq_refl
                   _ _)).
  - unfold r. simpl. lia.
  - discriminate.
Defined.

(** X4.  The base class has no weights: on a grid with at least one axis and
    with a positive radius, building the combined weights of a
    [WeightedInterpolation] raises [NotImplementedError]; forcing an
    injection raises it too, and forcing an interpolation raises it when the
    expression has a carrier and [IndexError] otherwise. *)
Theorem base_class_has_no_weights
    (origin : expr -> dict Dimension expr)
    (retrieve_function_carriers : expr -> list expr)
    (evaluate : expr -> option expr)
    (s : SparseFunction) :
  let self := WeightedInterpolation s in
  NoDup (_gdim self) ->
  List.length (Sparse._coordinate_indices s) = List.length (_gdim self) ->
  1 <= r self ->
  _gdim self <> [] ->
  _interpolation_coeffs self = Raise NotImplementedError
  /\ forall field expr offset increment self_subs implicit_dims0,
      _evaluate (inject origin retrieve_function_carriers evaluate self field
                   expr offset implicit_dims0) = Raise NotImplementedError
      /\ _evaluate (interpolate origin retrieve_function_carriers evaluate self
                      expr offset increment self_subs implicit_dims0)
         = match retrieve_function_carriers
                   (match evaluate expr with Some e => e | None => expr end)
           with
           | [] => Raise IndexError
           | _ :: _ => Raise NotImplementedError
           end.
Proof.
  intros self Hnd Hlen Hr Hdim. subst self.
  assert (Hc : _interpolation_coeffs (WeightedInterpolation s)
               = Raise NotImplementedError).
  { rewrite interpolation_coeffs_mapM. unfold _nd_points.
    destruct (_interp_points (WeightedInterpolation s)) as [|x xs] eqn:Hpts.
    - apply (f_equal (@List.length Z)) in Hpts.
      rewrite base_interp_points, linear_interp_points_length in Hpts.
      unfold r in Hr. simpl in Hr. cbn [List.length] in Hpts. lia.
    - destruct (product_first (x :: xs) x xs
                  (grid_dim (grid (WeightedInterpolation s))) eq_refl)
        as (t & rest & -> & Ht).
      simpl. unfold neighbor_coeff.
      unfold grid_dim in Ht. fold (_gdim (WeightedInterpolation s)) in Ht.
      destruct (_gdim (WeightedInterpolation s)) as [|d0 ds]; [congruence|].
      destruct t as [|i t]; [discriminate|]. reflexivity. }
  split; [exact Hc|].
  intros field expr offset increment self_subs implicit_dims0. split.
  - unfold _evaluate, inject. simpl.
    rewrite inject_callback_closed by assumption. cbv zeta.
    cbn [bind _coeff_temps]. rewrite Hc. reflexivity.
  - unfold _evaluate, interpolate. simpl.
    rewrite interpolate_callback_closed by assumption. cbv zeta.
    destruct (retrieve_function_carriers _) as [|v vs]; [reflexivity|].
    change (getitem (v :: vs) 0) with (Ok v).
    cbn [bind _coeff_temps]. rewrite Hc. reflexivity.
Qed.

Lemma base_class_has_no_weights_witness :
  _interpolation_coeffs (WeightedInterpolation (Example.src 1 None))
  = Raise NotImplementedError.
Proof.
  refine (proj1 (base_class_has_no_weights Example.origin
                   Example.retrieve_function_carriers Example.evaluate
                   (Example.src 1 None) example_gdim_distinct eq_refl _ _)).
  - unfold r. simpl. lia.
  - discriminate.
Defined.

(** ** Empty neighbourhoods *)

Lemma interp_points_empty self : r self <= 0 -> _interp_points self = [].
Proof.
  intros Hr. apply length_zero_iff_nil.
  destruct self as [s|s|s]; unfold r in Hr; simpl in Hr.
  - rewrite base_interp_points, linear_interp_points_length. lia.
  - rewrite linear_interp_points_length. lia.
  - rewrite precomputed_interp_points_length. lia.
Qed.

Lemma flat_map_all_nil {A B} (g : A -> list B) (l : list A) :
  (forall x, g x = []) -> flat_map g l = [].
Proof.
  intros H. induction l as [|x l IH]; simpl; [reflexivity|]. now rewrite H, IH.
Qed.

Lemma nd_points_empty self :
  r self <= 0 -> _gdim self <> [] -> _nd_points self = [].
Proof.
  intros Hr Hdim. unfold _nd_points, grid_dim. fold (_gdim self).
  rewrite (interp_points_empty self Hr).
  destruct (_gdim self); [congruence | reflexivity].
Qed.

(** X5.  With a radius that is not positive, on a grid with at least one
    axis, there is no neighbor: no combined weight and no index definition
    are built, forcing an injection yields the position and coefficient
    temporaries only, and forcing an interpolation yields these temporaries,
    the initialisation of the accumulator and the final write, so that the
    sparse function receives zero. *)
Theorem non_positive_radius_has_no_neighbor
    (origin : expr -> dict Dimension expr)
    (retrieve_function_carriers : expr -> list expr)
    (evaluate : expr -> option expr)
    (self : Interpolator) :
  NoDup (_gdim self) ->
  List.length (Sparse._coordinate_indices (sfunction self))
  = List.length (_gdim self) ->
  r self <= 0 ->
  _gdim self <> [] ->
  _nd_points self = []
  /\ _interpolation_coeffs self = Ok []
  /\ forall field expr offset increment self_subs implicit_dims0,
      let idims := implicit_dims self implicit_dims0 in
      _evaluate (inject origin retrieve_function_carriers evaluate self field
                   expr offset implicit_dims0)
      = (coeff_temps <- _coeff_temps self idims ;;
         Ok (_positions self idims ++ coeff_temps))
      /\ _evaluate (interpolate origin retrieve_function_carriers evaluate self
                      expr offset increment self_subs implicit_dims0)
         = (v0 <- getitem (retrieve_function_carriers
                             (match evaluate expr with
                              | Some e => e
                              | None => expr
                              end)) 0 ;;
            coeff_temps <- _coeff_temps self idims ;;
            Ok (_positions self idims ++ coeff_temps
                  ++ [Eq (Sym "sum") (Num 0) idims;
                      (if increment then Inc else Eq)
                        (subs self_subs (Sparse.as_expr (sfunction self)))
                        (Sym "sum") idims])).
Proof.
  intros Hnd Hlen Hr Hdim.
  pose proof (nd_points_empty self Hr Hdim) as Hpts.
  assert (Hc : _interpolation_coeffs self = Ok []).
  { rewrite interpolation_coeffs_mapM, Hpts. reflexivity. }
  assert (Hidx : forall idims, index_equations self idims = []).
  { intros idims. unfold index_equations. apply flat_map_all_nil.
    intros [d pos]. unfold axis_equations.
    now rewrite (interp_points_empty self Hr). }
  split; [exact Hpts|]. split; [exact Hc|].
  intros field expr offset increment self_subs implicit_dims0 idims. split.
  - unfold _evaluate, inject. simpl.
    rewrite inject_callback_closed by assumption. cbv zeta. fold idims.
    destruct (_coeff_temps self idims) as [ct|e]; cbn [bind]; [|reflexivity].
    rewrite Hc. cbn [bind]. unfold index_temporaries.
    rewrite Hidx, Hpts. unfold zip. simpl. now rewrite !app_nil_r.
  - unfold _evaluate, interpolate. simpl.
    rewrite interpolate_callback_closed by assumption. cbv zeta. fold idims.
    destruct (getitem _ 0) as [v0|e]; cbn [bind]; [|reflexivity].
    destruct (_coeff_temps self idims) as [ct|e]; cbn [bind]; [|reflexivity].
    rewrite Hc. cbn [bind]. unfold index_temporaries.
    rewrite Hidx, Hpts. unfold zip. simpl. rewrite !app_nil_r.
    now rewrite <- app_assoc.
Qed.

Lemma non_positive_radius_has_no_neighbor_witness :
  _interpolation_coeffs (LinearInterpolator (Example.src 0 None)) = Ok [].
Proof.
  refine (proj1 (proj2 (non_positive_radius_has_no_neighbor Example.origin
                          Example.retrieve_function_carriers Example.evaluate
                          (LinearInterpolator (Example.src 0 None))
                          example_gdim_distinct eq_refl _ _))).
  - unfold r. simpl. lia.
  - discriminate.
Defined.

(** ** Implicit dimensions *)

Lemma positions_dims self idims :
  Forall (fun e => eq_implicit_dims e = idims) (_positions self idims).
Proof.
  assert (H : forall s,
             Forall (fun e => eq_implicit_dims e = idims)
               (map (fun kv : expr * expr => let (k, v) := kv in Eq v k idims)
                    (dict_items (Sparse._position_map s)))).
  { intros s. apply Forall_forall. intros e He.
    apply in_map_iff in He as ([k v] & <- & _). reflexivity. }
  destruct self as [s|s|s]; simpl; try apply H.
  destruct (Sparse.gridpoints s); [constructor | apply H].
Qed.

Lemma coeff_temps_dims self idims ct :
  _coeff_temps self idims = Ok ct ->
  Forall (fun e => eq_implicit_dims e = idims) ct.
Proof.
  destruct self as [s|s|s]; simpl; try (intros [= <-]; constructor).
  intros H. apply mapM_ok_Forall2 in H.
  induction H as [|[d pos] e l l' Hde _ IH]; constructor; [|exact IH].
  destruct (dict_get string_dec _ d); simpl in Hde; [|discriminate].
  now injection Hde as <-.
Qed.

Lemma index_equations_dims self idims :
  Forall (fun e => eq_implicit_dims e = idims) (index_equations self idims).
Proof.
  apply Forall_forall. intros e He. unfold index_equations in He.
  apply in_flat_map in He as ([d pos] & _ & He).
  apply in_map_iff in He as ([ri off] & <- & _). reflexivity.
Qed.

Lemma Forall_app_intro {A} (P : A -> Prop) (l1 l2 : list A) :
  Forall P l1 -> Forall P l2 -> Forall P (l1 ++ l2).
Proof. intros H1 H2. apply Forall_app. now split. Qed.

Lemma index_temporaries_dims self idims ct :
  _coeff_temps self idims = Ok ct ->
  Forall (fun e => eq_implicit_dims e = idims) (index_temporaries self idims ct).
Proof.
  intros Hct. unfold index_temporaries.
  apply Forall_app_intro; [apply positions_dims|].
  apply Forall_app_intro; [now apply (coeff_temps_dims self) |].
  apply index_equations_dims.
Qed.

(** X6.  Every equation that [interpolate] or [inject] produces, temporaries
    included, carries the same implicit dimensions: those given by the
    caller followed by the dimensions of the sparse function. *)
Theorem implicit_dims_are_uniform
    (origin : expr -> dict Dimension expr)
    (retrieve_function_carriers : expr -> list expr)
    (evaluate : expr -> option expr)
    (self : Interpolator) (field expr : expr) (offset : Z) (increment : bool)
    (self_subs : dict Symbolics.expr Symbolics.expr)
    (implicit_dims0 : list Dimension) (eqs : list Equation) :
  NoDup (_gdim self) ->
  List.length (Sparse._coordinate_indices (sfunction self))
  = List.length (_gdim self) ->
  _evaluate (interpolate origin retrieve_function_carriers evaluate self
               expr offset increment self_subs implicit_dims0) = Ok eqs
  \/ _evaluate (inject origin retrieve_function_carriers evaluate self field
                  expr offset implicit_dims0) = Ok eqs ->
  Forall (fun e => eq_implicit_dims e
                   = implicit_dims0 ++ Sparse.dimensions (sfunction self))
         eqs.
Proof.
  intros Hnd Hlen H.
  set (idims := implicit_dims0 ++ Sparse.dimensions (sfunction self)).
  unfold _evaluate, interpolate, inject in H. simpl in H.
  rewrite interpolate_callback_closed, inject_callback_closed in H
    by assumption.
  cbv zeta in H. fold (implicit_dims self implicit_dims0) in H.
  change (implicit_dims self implicit_dims0) with idims in H.
  destruct H as [H|H].
  - destruct (getitem _ 0); cbn [bind] in H; [|discriminate].
    destruct (_coeff_temps self idims) as [ct|] eqn:Hct; cbn [bind] in H;
      [|discriminate].
    destruct (_interpolation_coeffs self); cbn [bind] in H; [|discriminate].
    injection H as <-.
    apply Forall_app_intro; [now apply index_temporaries_dims|].
    constructor; [reflexivity|].
    apply Forall_app_intro.
    + apply Forall_forall. intros e He. apply in_map_iff in He as (bp & <- & _).
      reflexivity.
    + repeat constructor. now destruct increment.
  - destruct (_coeff_temps self idims) as [ct|] eqn:Hct; cbn [bind] in H;
      [|discriminate].
    destruct (_interpolation_coeffs self); cbn [bind] in H; [|discriminate].
    injection H as <-.
    apply Forall_app_intro; [now apply index_temporaries_dims|].
    apply Forall_forall. intros e He. apply in_map_iff in He as (bp & <- & _).
    reflexivity.
Qed.

Lemma implicit_dims_are_uniform_witness :
  Forall (fun e => eq_implicit_dims e = ["p_src"%string])
         example_interpolation_eqs.
Proof.
  exact (implicit_dims_are_uniform Example.origin
           Example.retrieve_function_carriers Example.evaluate Example.linear
           Example.u Example.u 0 false [] [] example_interpolation_eqs
           example_gdim_distinct eq_refl (or_introl eq_refl)).
Defined.

(** ** The offset that a component of a neighbor tuple selects *)

Lemma range_nth a b k :
  (k < Z.to_nat (b - a))%nat -> nth_error (range a b) k = Some (a + Z.of_nat k).
Proof.
  intros H. unfold range.
  rewrite nth_error_map, nth_error_seq.
  destruct (Nat.ltb_spec k (Z.to_nat (b - a))); [reflexivity | lia].
Qed.

(** Reading [range(a, b)] at one of its own elements, as a Python index. *)
Lemma range_read_at_element a b i off :
  a <= i < b -> 1 <= b -> - (b - a) <= a <= 0 ->
  nth_error (range a b) (py_index (List.length (range a b)) i) = Some off ->
  (off = a + i \/ off = a + i + (b - a))
  /\ (off = i <-> a = 0).
Proof.
  intros Hi Hb Ha. rewrite range_length. unfold py_index.
  destruct (Z.ltb_spec i 0) as [Hneg|Hpos].
  - rewrite range_nth by lia. intros [= <-]. split; [right; lia | lia].
  - rewrite range_nth by lia. intros [= <-]. split; [left; lia | lia].
Qed.

Lemma interp_points_as_range self :
  exists a b,
    _interp_points self = range a b
    /\ (forall i, In i (_interp_points self) ->
                  1 <= r self /\ 1 <= b /\ - (b - a) <= a <= 0)
    /\ (1 <= r self ->
        (a = 0 <-> match self with
                   | PrecomputedInterpolator _ => r self <= 2
                   | _ => r self = 1
                   end)).
Proof.
  destruct self as [s|s|s]; unfold r; cbn [sfunction].
  - exists (- Sparse.r s + 1), (Sparse.r s + 1). split; [reflexivity|].
    split; [|lia].
    intros i Hi. rewrite base_interp_points, linear_interp_points in Hi.
    apply range_In in Hi. lia.
  - exists (- Sparse.r s + 1), (Sparse.r s + 1). split; [reflexivity|].
    split; [|lia].
    intros i Hi. rewrite linear_interp_points in Hi.
    apply range_In in Hi. lia.
  - exists ((- Sparse.r s) / 2 + 1), (Sparse.r s / 2 + 1).
    pose proof (Z.div_mod (Sparse.r s) 2 ltac:(lia)).
    pose proof (Z.mod_pos_bound (Sparse.r s) 2 ltac:(lia)).
    pose proof (Z.div_mod (- Sparse.r s) 2 ltac:(lia)).
    pose proof (Z.mod_pos_bound (- Sparse.r s) 2 ltac:(lia)).
    split; [reflexivity|]. split; [|lia].
    intros i Hi. unfold _interp_points, r in Hi. cbn [sfunction] in Hi.
    apply range_In in Hi. lia.
Qed.

(** X7.  The component [i] of a neighbor tuple is used as a Python index
    into the per-axis lists, not as the offset itself: the guarded dimension
    it selects on an axis is the one whose index symbol is defined as the
    base position plus [_interp_points[i]], and the weight it selects in the
    precomputed scheme is the table lookup at that same offset.  That
    offset is [i] itself exactly when the offset range starts at 0, that is
    for the radius 1 of the linear scheme and for the radii 1 and 2 of the
    precomputed scheme; for larger radii every component selects another
    offset of the range. *)
Theorem component_selects_indexed_offset (self : Interpolator)
    (idims : list Dimension) (i : Z) :
  NoDup (_gdim self) ->
  List.length (Sparse._coordinate_indices (sfunction self))
  = List.length (_gdim self) ->
  In i (_interp_points self) ->
  exists k off,
    getitem (_interp_points self) i = Ok off
    /\ nth_error (_interp_points self) k = Some off
    /\ (forall temps0,
           exists points mapper temps1,
             index_loops self idims
               (dict_of string_dec (map (fun d => (d, [])) (_gdim self)),
                dict_of string_dec (map (fun d => (d, [])) (_gdim self)),
                temps0)
             = Ok (points, mapper, temps1)
             /\ forall j d pos,
                 nth_error (_gdim self) j = Some d ->
                 nth_error (Sparse._coordinate_indices (sfunction self)) j
                 = Some pos ->
                 exists guards,
                   dict_get string_dec mapper d = Ok guards
                   /\ getitem guards i
                      = Ok (CondDim (ii_name self d k)
                              (Sparse._sparse_dim (sfunction self))
                              (oob_condition self d (Sym (ii_name self d k))))
                   /\ In (Eq (Sym (ii_name self d k))
                             (Add pos (Num (inject_Z off))) idims) temps1)
    /\ (forall s ddim idim j d,
           self = PrecomputedInterpolator s ->
           _ddim self = Ok ddim -> _idim self = Ok idim ->
           nth_error (_gdim self) j = Some d ->
           exists wts wd,
             _weights self = Ok wts
             /\ dict_get string_dec wts d = Ok wd
             /\ getitem wd i
                = Ok (subs (dict_of expr_eq_dec
                              [(Dim ddim, Num (inject_Z (Z.of_nat j)));
                               (Dim idim, Num (inject_Z off))])
                           (_icoeffs self)))
    /\ (off = i <-> nth_error (_interp_points self) 0 = Some 0)
    /\ (nth_error (_interp_points self) 0 = Some 0
        <-> match self with
            | PrecomputedInterpolator _ => r self <= 2
            | _ => r self = 1
            end).
Proof.
  intros Hnd Hlen Hi.
  pose proof (interp_points_index_bounds self i Hi) as Hb.
  destruct (getitem_in_bounds (_interp_points self) i Hb) as (off & Hget & Hnth).
  fold (selected_position self i) in Hnth.
  exists (selected_position self i), off.
  split; [exact Hget|]. split; [exact Hnth|].
  destruct (interp_points_as_range self) as (a & b & Hrange & Hbounds & Hstart).
  destruct (Hbounds i Hi) as (Hr & Hb1 & Hab).
  assert (Hia : a <= i < b) by (rewrite Hrange in Hi; now apply range_In in Hi).
  assert (Hfirst : nth_error (_interp_points self) 0 = Some a).
  { rewrite Hrange, range_nth by lia. f_equal. lia. }
  split; [|split; [|split]].
  - intros temps0. do 3 eexists. split.
    + rewrite !(empty_lists_dict self Hnd).
      exact (index_loops_closed self Hnd Hlen idims temps0).
    + intros j d pos Hd Hpos. exists (axis_guards self d). split; [|split].
      * exact (full_mapper_get self Hnd j d Hd).
      * now apply axis_guards_getitem.
      * apply in_or_app. right.
        exact (index_equation_emitted self idims j d pos _ off Hd Hpos Hnth).
  - intros s ddim idim j d -> Hdd Hid Hd.
    do 2 eexists. split; [exact (precomputed_weights_ok s ddim idim Hnd Hdd Hid)|].
    split.
    + unfold dict_get.
      rewrite (dict_lookup_NoDup_In string_dec _ d
                 (precomputed_axis_weights (PrecomputedInterpolator s)
                    ddim idim j)).
      * reflexivity.
      * rewrite map_map. simpl. now rewrite enumerate_snd.
      * apply in_map_iff. exists (j, d). split; [reflexivity|].
        eapply nth_error_In. apply enumerate_nth. exact Hd.
    + unfold precomputed_axis_weights.
      destruct (getitem_in_bounds
                  (map (fun k : Z =>
                          subs (dict_of expr_eq_dec
                                  [(Dim ddim, Num (inject_Z (Z.of_nat j)));
                                   (Dim idim, Num (inject_Z k))])
                               (_icoeffs (PrecomputedInterpolator s)))
                       (_interp_points (PrecomputedInterpolator s))) i)
        as (x & Hx & Hxn); [now rewrite length_map|].
      rewrite Hx. f_equal.
      rewrite length_map, nth_error_map in Hxn.
      unfold selected_position in Hnth. rewrite Hnth in Hxn. simpl in Hxn.
      congruence.
  - rewrite Hfirst.
    unfold selected_position in Hnth. rewrite Hrange in Hnth.
    destruct (range_read_at_element a b i off Hia Hb1 Hab Hnth) as [_ Hiff].
    rewrite Hiff. split; [now intros -> | now intros [= ->]].
  - rewrite Hfirst. rewrite <- (Hstart Hr).
    split; [now intros [= ->] | now intros ->].
Qed.

Lemma component_selects_indexed_offset_witness :
  exists k off,
    getitem (_interp_points Example.precomputed) (-1) = Ok off
    /\ nth_error (_interp_points Example.precomputed) k = Some off
    /\ ~ off = -1.
Proof.
  destruct (component_selects_indexed_offset Example.precomputed [] (-1)
              example_gdim_distinct eq_refl)
    as (k & off & Hget & Hnth & _ & _ & Hiff & _).
  - simpl. auto.
  - exists k, off. split; [exact Hget|]. split; [exact Hnth|].
    intros Heq. apply Hiff in Heq. discriminate Heq.
Defined.

(** ** The coefficient table of the precomputed scheme *)

(** X8.  The precomputed scheme reads the second and the last dimension of
    the coefficient table.  When the table has fewer than two dimensions,
    looking up the second one raises [IndexError], and with it the weights
    and the combined weights as soon as the grid has an axis and the radius
    is positive; when it has at least two, both lookups succeed.  With a
    radius that is not positive the weights are built without reading the
    table: every axis gets an empty weight list. *)
Theorem precomputed_table_dimensions (s : SparseFunction) :
  let self := PrecomputedInterpolator s in
  let dims := Sparse.interpolation_coeffs_dimensions s in
  ((List.length dims < 2)%nat ->
   _ddim self = Raise IndexError
   /\ (_gdim self <> [] -> 1 <= r self ->
       _weights self = Raise IndexError
       /\ _interpolation_coeffs self = Raise IndexError))
  /\ ((2 <= List.length dims)%nat ->
      exists ddim idim,
        _ddim self = Ok ddim /\ _idim self = Ok idim
        /\ nth_error dims 1 = Some ddim
        /\ nth_error dims (List.length dims - 1) = Some idim)
  /\ (r self <= 0 -> NoDup (_gdim self) ->
      exists ws,
        _weights self = Ok ws
        /\ forall d, In d (_gdim self) -> dict_get string_dec ws d = Ok []).
Proof.
  intros self dims. subst self dims. split; [|split].
  - intros Hlen.
    assert (Hdd : _ddim (PrecomputedInterpolator s) = Raise IndexError).
    { unfold _ddim. apply getitem_beyond. simpl. lia. }
    split; [exact Hdd|]. intros Hdim Hr.
    assert (Hpts : exists x xs, _interp_points (PrecomputedInterpolator s) = x :: xs).
    { destruct (_interp_points (PrecomputedInterpolator s)) as [|x xs] eqn:E;
        [|eauto].
      apply (f_equal (@List.length Z)) in E.
      rewrite precomputed_interp_points_length in E.
      unfold r in Hr. cbn [sfunction List.length] in Hr, E. lia. }
    destruct Hpts as (x & xs & Hpts).
    assert (Hw : _weights (PrecomputedInterpolator s) = Raise IndexError).
    { unfold _weights. rewrite Hpts, Hdd.
      destruct (_gdim (PrecomputedInterpolator s)) as [|d0 ds]; [congruence|].
      reflexivity. }
    split; [exact Hw|].
    rewrite interpolation_coeffs_mapM. unfold _nd_points.
    destruct (product_first (_interp_points (PrecomputedInterpolator s)) x xs
                (grid_dim (grid (PrecomputedInterpolator s))) Hpts)
      as (t & rest & -> & Ht).
    unfold grid_dim in Ht. fold (_gdim (PrecomputedInterpolator s)) in Ht.
    cbn [mapM]. unfold neighbor_coeff.
    destruct (_gdim (PrecomputedInterpolator s)) as [|d0 ds]; [congruence|].
    destruct t as [|i t]; [discriminate|].
    unfold zip. cbn [combine mapM]. unfold weight_at. rewrite Hw. reflexivity.
  - intros Hlen. unfold _ddim, _idim.
    destruct (getitem_in_bounds (Sparse.interpolation_coeffs_dimensions s) 1)
      as (ddim & Hdd & Hdn); [simpl; lia|].
    destruct (getitem_in_bounds (Sparse.interpolation_coeffs_dimensions s) (-1))
      as (idim & Hid & Hin); [simpl; lia|].
    exists ddim, idim. cbn [sfunction]. repeat split; try assumption.
    unfold py_index in Hin. simpl in Hin.
    replace (List.length (Sparse.interpolation_coeffs_dimensions s) - 1)%nat
      with (Z.to_nat (-1 + Z.of_nat (List.length
                                       (Sparse.interpolation_coeffs_dimensions s))))
      by lia.
    exact Hin.
  - intros Hr Hnd. unfold _weights.
    rewrite (interp_points_empty (PrecomputedInterpolator s) Hr).
    rewrite (mapM_ok_map _ (fun did : nat * Dimension => (snd did, @nil expr)))
      by (intros [di d] _; reflexivity).
    eexists. split; [reflexivity|].
    intros d Hd. unfold dict_get.
    rewrite dict_of_NoDup by (rewrite map_map; simpl; now rewrite enumerate_snd).
    rewrite (dict_lookup_NoDup_In string_dec _ d []).
    + reflexivity.
    + rewrite map_map. simpl. now rewrite enumerate_snd.
    + apply in_map_iff. apply In_nth_error in Hd as [j Hj].
      exists (j, d). split; [reflexivity|].
      eapply nth_error_In. apply enumerate_nth. exact Hj.
Qed.

Lemma precomputed_table_dimensions_witness :
  _interpolation_coeffs
    (PrecomputedInterpolator (Edge.tabulated 2 None ["p_src"%string]))
  = Raise IndexError.
Proof.
  destruct (precomputed_table_dimensions
              (Edge.tabulated 2 None ["p_src"%string])) as (H & _ & _).
  destruct H as (_ & H); [simpl; lia|].
  refine (proj2 (H _ _)).
  - discriminate.
  - unfold r. simpl. lia.
Defined.

(** ** Values of the linear scheme *)

Lemma Forall2_Forall_r {A B} (R : A -> B -> Prop) (P : B -> Prop)
    (l : list A) (ys : list B) :
  Forall2 R l ys -> (forall x y, In x l -> R x y -> P y) -> Forall P ys.
Proof.
  induction 1 as [|x y l ys Hxy _ IH]; intros HP; constructor.
  - apply (HP x y); [now left | assumption].
  - apply IH. intros x' y' Hx'. apply HP. now right.
Qed.

Lemma local_position_value rho d pos x :
  eval rho pos = Some x -> (0 < val_spacing rho d)%Q ->
  eval rho (Sub pos (Mul (Spacing d) (INT (Floor (Div pos (Spacing d))))))
  = Some (x - val_spacing rho d * inject_Z (Qfloor (x / val_spacing rho d)))%Q.
Proof.
  intros Hx Hh. cbn [eval]. rewrite Hx.
  destruct (Qeq_bool (val_spacing rho d) 0) eqn:E.
  - apply Qeq_bool_iff in E. rewrite E in Hh. discriminate.
  - cbn [option_map lift2 inject_Z Qnum Qden]. now rewrite Z.quot_1_r.
Qed.

Lemma remainder_within_cell (x h : Q) :
  (0 < h)%Q ->
  (0 <= x - h * inject_Z (Qfloor (x / h))
   /\ x - h * inject_Z (Qfloor (x / h)) < h)%Q.
Proof.
  intros Hh.
  assert (E : (x == h * (x / h))%Q) by (rewrite Qmult_div_r; [reflexivity | lra]).
  pose proof (Qfloor_le (x / h)) as H1.
  pose proof (Qlt_floor (x / h)) as H2.
  rewrite inject_Z_plus in H2.
  change (inject_Z 1) with 1%Q in H2.
  set (y := (x / h)%Q) in *. set (F := inject_Z (Qfloor y)) in *.
  clearbody F. clearbody y.
  split; nra.
Qed.

(** X9.  Each local-position temporary of the linear scheme is the position
    minus the spacing times the truncated floor of their quotient.  Where the
    position has a value and the spacing of the axis is positive, the
    temporary has a value too, and it lies between 0 (included) and the
    spacing (excluded): the assumption under which the linear weights are
    between 0 and 1 is established by the temporaries themselves. *)
Theorem local_position_within_cell (s : SparseFunction)
    (idims : list Dimension) (rho : valuation) (ct : list Equation) :
  let self := LinearInterpolator s in
  _coeff_temps self idims = Ok ct ->
  (forall d, In d (_gdim self) -> (0 < val_spacing rho d)%Q) ->
  (forall pos, In pos (dict_values (Sparse._position_map s)) ->
               exists x, eval rho pos = Some x) ->
  Forall (fun e =>
            exists d pos x v,
              In d (_gdim self)
              /\ In pos (dict_values (Sparse._position_map s))
              /\ eq_rhs e
                 = Sub pos (Mul (Spacing d) (INT (Floor (Div pos (Spacing d)))))
              /\ eval rho pos = Some x
              /\ eval rho (eq_rhs e) = Some v
              /\ (0 <= v /\ v < val_spacing rho d)%Q) ct
  /\ List.length ct
     = Nat.min (List.length (_gdim self))
               (List.length (dict_values (Sparse._position_map s))).
Proof.
  intros self Hct Hh Hpos. subst self. split.
  - unfold _coeff_temps in Hct. apply mapM_ok_Forall2 in Hct.
    eapply Forall2_Forall_r; [exact Hct|].
    intros [d pos] e Hin He. cbv beta iota in He.
    destruct (dict_get string_dec (_psym (LinearInterpolator s)) d) as [p|err];
      [|discriminate].
    cbn [bind] in He. injection He as <-.
    pose proof (in_combine_l _ _ _ _ Hin) as Hd.
    pose proof (in_combine_r _ _ _ _ Hin) as Hp.
    destruct (Hpos pos Hp) as [x Hx].
    exists d, pos, x. eexists. split; [exact Hd|]. split; [exact Hp|].
    split; [reflexivity|]. split; [exact Hx|]. cbn [eq_rhs].
    split; [exact (local_position_value rho d pos x Hx (Hh d Hd))|].
    exact (remainder_within_cell x (val_spacing rho d) (Hh d Hd)).
  - unfold _coeff_temps in Hct. apply mapM_ok_length in Hct.
    rewrite Hct. unfold zip. apply length_combine.
Qed.

Lemma local_position_within_cell_witness :
  exists ct,
    _coeff_temps Example.linear [] = Ok ct
    /\ Forall (fun e => exists v, eval Edge.positioned (eq_rhs e) = Some v
                                  /\ (0 <= v /\ v < 1)%Q) ct.
Proof.
  eexists. split; [vm_compute; reflexivity|].
  assert (H1 : forall d, In d (_gdim (LinearInterpolator (Example.src 1 None))) ->
                         (0 < val_spacing Edge.positioned d)%Q)
    by (intros d _; reflexivity).
  assert (H2 : forall pos,
             In pos (dict_values
                       (Sparse._position_map (Example.src 1 None))) ->
             exists x, eval Edge.positioned pos = Some x).
  { intros pos [<-|[<-|[]]]; eexists; reflexivity. }
  destruct (local_position_within_cell (Example.src 1 None) []
              Edge.positioned _ eq_refl H1 H2) as [HF _].
  eapply Forall_impl; [|exact HF].
  intros e (d & pos & x & v & _ & _ & _ & _ & Hv & Hb).
  exists v. split; [exact Hv | exact Hb].
Defined.

Lemma linear_pick_unit rho d p x i :
  eval rho p = Some x ->
  (0 < val_spacing rho d)%Q -> (0 <= x /\ x <= val_spacing rho d)%Q ->
  exists v, eval rho (linear_pick ((d, p), i)) = Some v /\ (0 <= v /\ v <= 1)%Q.
Proof.
  intros Hx Hh Hb.
  assert (Hne : ~ (val_spacing rho d == 0)%Q) by lra.
  destruct (linear_pick_values rho d p x Hx Hne) as [H0 H1].
  assert (Hq : (0 <= x / val_spacing rho d /\ x / val_spacing rho d <= 1)%Q).
  { assert (E : (x == val_spacing rho d * (x / val_spacing rho d))%Q)
      by (rewrite Qmult_div_r; [reflexivity | exact Hne]).
    set (y := (x / val_spacing rho d)%Q) in *. clearbody y.
    split; nra. }
  unfold linear_pick in *. cbn [fst snd] in *.
  destruct (Z.to_nat i) as [|[|k]] eqn:Ei.
  - replace (Z.to_nat 0) with 0%nat in H0 by reflexivity.
    eexists. split; [exact H0 | lra].
  - replace (Z.to_nat 1) with 1%nat in H1 by reflexivity.
    eexists. split; [exact H1 | lra].
  - exists 0%Q. split; [destruct k; reflexivity | lra].
Qed.

Lemma linear_product_unit rho (A : list (Dimension * expr)) :
  (forall dp, In dp A ->
              exists x, eval rho (snd dp) = Some x
                        /\ (0 < val_spacing rho (fst dp))%Q
                        /\ (0 <= x /\ x <= val_spacing rho (fst dp))%Q) ->
  forall t acc a,
    eval rho acc = Some a -> (0 <= a /\ a <= 1)%Q ->
    exists v, eval rho (fold_left Mul (map linear_pick (zip A t)) acc) = Some v
              /\ (0 <= v /\ v <= 1)%Q.
Proof.
  induction A as [|[d p] A IH]; intros HA t acc a Hacc Ha.
  - exists a. split; [exact Hacc | exact Ha].
  - destruct t as [|i t]; [exists a; split; [exact Hacc | exact Ha]|].
    destruct (HA (d, p) (or_introl eq_refl)) as (x & Hx & Hh & Hb).
    cbn [fst snd] in Hx, Hh, Hb.
    destruct (linear_pick_unit rho d p x i Hx Hh Hb) as (w & Hw & Hwb).
    unfold zip. cbn [combine map fold_left].
    apply (IH (fun dp Hdp => HA dp (or_intror Hdp)) t
              (Mul acc (linear_pick ((d, p), i))) (a * w)%Q).
    + cbn [eval]. rewrite Hacc, Hw. reflexivity.
    + split; nra.
Qed.

(** X10.  With the radius 1 of the linear scheme, and local positions whose
    values lie between 0 and the (positive) spacing of their axis, every
    combined weight has a value and that value lies between 0 and 1. *)
Theorem linear_weights_within_unit_interval (s : SparseFunction)
    (rho : valuation) :
  let self := LinearInterpolator s in
  NoDup (_gdim self) ->
  List.length (dict_values (_psym self)) = List.length (_gdim self) ->
  r self = 1 ->
  (forall dp, In dp (axes self) ->
              exists x, eval rho (snd dp) = Some x
                        /\ (0 < val_spacing rho (fst dp))%Q
                        /\ (0 <= x /\ x <= val_spacing rho (fst dp))%Q) ->
  exists ws,
    _interpolation_coeffs self = Ok ws
    /\ List.length ws = List.length (_nd_points self)
    /\ Forall (fun w => exists v, eval rho w = Some v /\ (0 <= v /\ v <= 1)%Q) ws.
Proof.
  intros self Hnd Hlen Hr Hax. subst self.
  exists (map (linear_coeff (LinearInterpolator s))
              (_nd_points (LinearInterpolator s))).
  split; [exact (linear_coeffs_ok s Hnd Hlen Hr)|].
  split; [apply length_map|].
  apply Forall_forall. intros w Hw.
  apply in_map_iff in Hw as (t & <- & _).
  unfold linear_coeff, prod.
  apply (linear_product_unit rho _ Hax t (Num 1) 1%Q eq_refl).
  split; lra.
Qed.

Lemma linear_weights_within_unit_interval_witness :
  exists ws,
    _interpolation_coeffs Example.linear = Ok ws
    /\ List.length ws = List.length (_nd_points Example.linear)
    /\ Forall (fun w => exists v, eval Example.rho w = Some v
                                  /\ (0 <= v /\ v <= 1)%Q) ws.
Proof.
  apply (linear_weights_within_unit_interval (Example.src 1 None) Example.rho).
  - repeat constructor; simpl; intuition discriminate.
  - reflexivity.
  - reflexivity.
  - intros dp [<-|[<-|[]]]; eexists; (split; [reflexivity|]);
      (split; [reflexivity|]); split; discriminate.
Defined.

Lemma linear_pick_on_node rho d p x :
  eval rho p = Some x -> (x == 0)%Q -> ~ (val_spacing rho d == 0)%Q ->
  (exists v, eval rho (linear_pick ((d, p), 0)) = Some v /\ (v == 1)%Q)
  /\ (exists v, eval rho (linear_pick ((d, p), 1)) = Some v /\ (v == 0)%Q).
Proof.
  intros Hx H0 Hh. destruct (linear_pick_values rho d p x Hx Hh) as [E0 E1].
  split; eexists; (split; [eassumption|]); rewrite H0; unfold Qdiv;
    rewrite Qmult_0_l; lra.
Qed.

Lemma linear_product_on_node rho (A : list (Dimension * expr)) :
  (forall dp, In dp A ->
              exists x, eval rho (snd dp) = Some x /\ (x == 0)%Q
                        /\ ~ (val_spacing rho (fst dp) == 0)%Q) ->
  forall t acc a,
    List.length t = List.length A ->
    Forall (fun i => In i [0; 1]) t ->
    eval rho acc = Some a ->
    exists v, eval rho (fold_left Mul (map linear_pick (zip A t)) acc) = Some v
              /\ (v == a * (if forallb (Z.eqb 0) t then 1 else 0))%Q.
Proof.
  induction A as [|[d p] A IH]; intros HA t acc a Hlen Ht Hacc.
  - destruct t; [|discriminate]. exists a. split; [exact Hacc | simpl; ring].
  - destruct t as [|i t]; [discriminate|].
    destruct (HA (d, p) (or_introl eq_refl)) as (x & Hx & Hx0 & Hh).
    cbn [fst snd] in Hx, Hh.
    destruct (linear_pick_on_node rho d p x Hx Hx0 Hh)
      as [(v0 & E0 & V0) (v1 & E1 & V1)].
    injection Hlen as Hlen. inversion Ht as [|i' t' Hi Ht']; subst.
    unfold zip. cbn [combine map fold_left].
    destruct Hi as [<-|[<-|[]]].
    + destruct (IH (fun dp Hdp => HA dp (or_intror Hdp)) t
                  (Mul acc (linear_pick ((d, p), 0))) (a * v0)%Q Hlen Ht')
        as (v & Hv & Ev).
      { cbn [eval]. rewrite Hacc, E0. reflexivity. }
      exists v. split; [exact Hv|]. rewrite Ev, V0.
      change (forallb (Z.eqb 0) (0 :: t)) with (forallb (Z.eqb 0) t). ring.
    + destruct (IH (fun dp Hdp => HA dp (or_intror Hdp)) t
                  (Mul acc (linear_pick ((d, p), 1))) (a * v1)%Q Hlen Ht')
        as (v & Hv & Ev).
      { cbn [eval]. rewrite Hacc, E1. reflexivity. }
      exists v. split; [exact Hv|]. rewrite Ev, V1.
      change (forallb (Z.eqb 0) (1 :: t)) with false. cbv iota. ring.
Qed.

(** X11.  For a sparse point that sits on a grid node (every local position
    evaluates to 0, no spacing is zero) the linear scheme of radius 1 gives
    the value 1 to the combined weight of the neighbor whose offsets are all
    0 and the value 0 to every other one: only the node itself
    contributes. *)
Theorem node_point_selects_single_neighbor (s : SparseFunction)
    (rho : valuation) :
  let self := LinearInterpolator s in
  NoDup (_gdim self) ->
  List.length (dict_values (_psym self)) = List.length (_gdim self) ->
  r self = 1 ->
  (forall dp, In dp (axes self) ->
              exists x, eval rho (snd dp) = Some x /\ (x == 0)%Q
                        /\ ~ (val_spacing rho (fst dp) == 0)%Q) ->
  exists ws,
    _interpolation_coeffs self = Ok ws
    /\ forall k t w,
        nth_error (_nd_points self) k = Some t ->
        nth_error ws k = Some w ->
        exists v, eval rho w = Some v
                  /\ (v == if forallb (Z.eqb 0) t then 1 else 0)%Q.
Proof.
  intros self Hnd Hlen Hr Hax. subst self.
  exists (map (linear_coeff (LinearInterpolator s))
              (_nd_points (LinearInterpolator s))).
  split; [exact (linear_coeffs_ok s Hnd Hlen Hr)|].
  intros k t w Ht Hw. rewrite nth_error_map, Ht in Hw. injection Hw as <-.
  pose proof (nth_error_In _ _ Ht) as Hin.
  apply product_In in Hin as [Hl Hall].
  rewrite (linear_points_r1 s Hr) in Hall.
  destruct (linear_product_on_node rho _ Hax t (Num 1) 1%Q) as (v & Hv & Ev).
  - rewrite Hl. unfold axes, zip, grid_dim. rewrite length_combine.
    fold (_gdim (LinearInterpolator s)). lia.
  - exact Hall.
  - reflexivity.
  - exists v. split; [exact Hv|]. rewrite Ev. ring.
Qed.

Lemma node_point_selects_single_neighbor_witness :
  exists ws,
    _interpolation_coeffs Example.linear = Ok ws
    /\ forall k t w,
        nth_error (_nd_points Example.linear) k = Some t ->
        nth_error ws k = Some w ->
        exists v, eval Edge.on_node w = Some v
                  /\ (v == if forallb (Z.eqb 0) t then 1 else 0)%Q.
Proof.
  apply (node_point_selects_single_neighbor (Example.src 1 None) Edge.on_node).
  - repeat constructor; simpl; intuition discriminate.
  - reflexivity.
  - reflexivity.
  - intros dp [<-|[<-|[]]]; eexists; (split; [reflexivity|]);
      (split; [reflexivity | discriminate]).
Defined.

(** ** Fewer base positions than grid axes *)

Lemma getitem_nil {A} (i : Z) : getitem (@nil A) i = Raise IndexError.
Proof.
  unfold getitem. cbn [List.length Z.of_nat].
  destruct (Z.ltb_spec i 0).
  - destruct (Z.leb_spec 0 (i + 0)); [lia | reflexivity].
  - destruct (Z.ltb_spec i 0); [lia|]. now rewrite andb_false_r.
Qed.

Lemma zip_enumerate_firstn {A B} (l : list A) (l' : list B) :
  map (fun a : (nat * A) * B => snd (fst a)) (zip (enumerate l) l')
  = firstn (List.length l') l.
Proof.
  unfold zip, enumerate. generalize 0%nat. revert l'.
  induction l as [|x l IH]; intros [|y l'] s; simpl; try reflexivity.
  now rewrite IH.
Qed.

(** The mapper once the loops are over, when only the first axes have a
    base position: the other axes keep their empty list. *)
Lemma index_loops_partial self implicit_dims temps0 :
  NoDup (_gdim self) ->
  let n := List.length (Sparse._coordinate_indices (sfunction self)) in
  exists points,
    index_loops self implicit_dims
      (map (fun d => (d, [])) (_gdim self),
       map (fun d => (d, [])) (_gdim self), temps0)
    = Ok (points,
          map (fun d => (d, axis_guards self d)) (firstn n (_gdim self))
            ++ map (fun d => (d, [])) (skipn n (_gdim self)),
          temps0 ++ index_equations self implicit_dims).
Proof.
  intros Hnd n. unfold index_loops. cbv zeta.
  pose proof (zip_enumerate_firstn (_gdim self)
                (Sparse._coordinate_indices (sfunction self))) as Hd.
  pose proof (zip_enumerate_axes (_gdim self)
                (Sparse._coordinate_indices (sfunction self))) as Ha.
  fold n in Hd. unfold index_equations. rewrite <- Ha.
  remember (zip (enumerate (_gdim self))
                (Sparse._coordinate_indices (sfunction self))) as ax eqn:Hax.
  clear Hax Ha.
  assert (Hm : forall (V : Type) (f : Dimension -> V),
             map (fun a : (nat * Dimension) * expr =>
                    (snd (fst a), f (snd (fst a)))) ax
             = map (fun d => (d, f d)) (firstn n (_gdim self))).
  { intros V f. rewrite <- Hd, map_map. reflexivity. }
  assert (Hsplit : forall (V : Type),
             map (fun d : Dimension => (d, @nil V)) (_gdim self)
             = [] ++ map (fun a : (nat * Dimension) * expr =>
                            (snd (fst a), @nil V)) ax
                 ++ map (fun d => (d, [])) (skipn n (_gdim self))).
  { intros V. rewrite (Hm _ (fun _ => [])), <- map_app, firstn_skipn.
    reflexivity. }
  assert (Hnd' : NoDup (map (fun a : (nat * Dimension) * expr => snd (fst a)) ax)).
  { rewrite Hd. rewrite <- (firstn_skipn n (_gdim self)) in Hnd.
    now apply NoDup_app_remove_r in Hnd. }
  pose proof (outer_loop self implicit_dims ax [] []
                (map (fun d => (d, [])) (skipn n (_gdim self)))
                (map (fun d => (d, [])) (skipn n (_gdim self)))
                temps0 Hnd' Hnd') as Hloop.
  rewrite <- !Hsplit in Hloop.
  eexists. etransitivity; [exact Hloop|].
  cbn [app]. rewrite (Hm _ (axis_guards self)).
  do 2 f_equal.
  now rewrite !flat_map_concat_map, map_map.
Qed.

Lemma neighbor_subs_partial (origin : expr -> dict Dimension expr) self
    v variables p :
  let n := List.length (Sparse._coordinate_indices (sfunction self)) in
  (n < List.length (_gdim self))%nat ->
  List.length p = List.length (_gdim self) ->
  neighbor_subs origin
    (map (fun d => (d, axis_guards self d)) (firstn n (_gdim self))
       ++ map (fun d => (d, [])) (skipn n (_gdim self)))
    (v :: variables) p
  = Raise IndexError.
Proof.
  intros n Hn Hp. unfold neighbor_subs. cbn [mapM].
  match goal with
  | |- context [mapM ?f (zip ?m p)] =>
      assert (Hrule : mapM f (zip m p) = Raise IndexError)
  end.
  { apply mapM_raise_only.
    - intros [[k c] pi] _.
      destruct (getitem_ok_or_index_error c pi) as [[g Hg]|Hg]; rewrite Hg;
        [left; eexists; reflexivity | now right].
    - destruct (nth_error (_gdim self) n) as [d|] eqn:Hd;
        [|apply nth_error_None in Hd; lia].
      destruct (nth_error p n) as [pi|] eqn:Hpi;
        [|apply nth_error_None in Hpi; lia].
      exists ((d, []), pi). split; [|now rewrite getitem_nil].
      eapply nth_error_In with (n := n). apply nth_error_combine; [|exact Hpi].
      unfold dict_items. rewrite nth_error_app2;
        rewrite length_map, length_firstn, Nat.min_l by lia; [|lia].
      rewrite Nat.sub_diag, nth_error_map.
      rewrite <- (firstn_skipn n (_gdim self)) in Hd.
      rewrite nth_error_app2 in Hd
        by (rewrite length_firstn, Nat.min_l by lia; lia).
      rewrite length_firstn, Nat.min_l, Nat.sub_diag in Hd by lia.
      now rewrite Hd. }
  rewrite Hrule. reflexivity.
Qed.

Lemma interp_points_nonempty self :
  1 <= r self -> exists x xs, _interp_points self = x :: xs.
Proof.
  intros Hr.
  destruct (_interp_points self) as [|x xs] eqn:E; [|eauto].
  apply (f_equal (@List.length Z)) in E. exfalso.
  destruct self as [s|s|s]; unfold r in Hr; cbn [sfunction] in Hr.
  - rewrite base_interp_points, linear_interp_points_length in E.
    cbn [List.length] in E. lia.
  - rewrite linear_interp_points_length in E. cbn [List.length] in E. lia.
  - rewrite precomputed_interp_points_length in E. cbn [List.length] in E. lia.
Qed.

(** X12.  When the sparse function has fewer base positions than the grid
    has axes and the radius is at least 1, the axes without a base position
    keep an empty indirection list, and reading it for the first neighbor
    raises [IndexError] as soon as there is one carrier to substitute in.
    The index builder therefore fails for every non-empty list of carriers,
    and so does every injection, whose carriers always include the field;
    with no carrier at all the builder succeeds, with empty substitutions
    and the index definitions of the axes that have a base position. *)
Theorem missing_base_position_raises
    (origin : expr -> dict Dimension expr)
    (retrieve_function_carriers : expr -> list expr)
    (evaluate : expr -> option expr)
    (self : Interpolator) (idims : list Dimension) :
  NoDup (_gdim self) ->
  (List.length (Sparse._coordinate_indices (sfunction self))
   < List.length (_gdim self))%nat ->
  1 <= r self ->
  (forall variables offset field_offset,
      variables <> [] ->
      _interpolation_indices origin self variables offset field_offset idims
      = (coeff_temps <- _coeff_temps self idims ;; Raise IndexError))
  /\ (forall offset field_offset,
         _interpolation_indices origin self [] offset field_offset idims
         = (coeff_temps <- _coeff_temps self idims ;;
            Ok (map (fun _ => []) (_nd_points self),
                _positions self idims ++ coeff_temps
                  ++ index_equations self idims)))
  /\ (forall field expr offset coeff_temps,
         _coeff_temps self idims = Ok coeff_temps ->
         inject_callback origin retrieve_function_carriers evaluate self field
           expr offset idims tt
         = Raise IndexError).
Proof.
  intros Hnd Hshort Hr.
  assert (Hbuild : forall variables offset field_offset,
             variables <> [] ->
             _interpolation_indices origin self variables offset field_offset
               idims
             = (coeff_temps <- _coeff_temps self idims ;; Raise IndexError)).
  { intros variables offset field_offset Hv.
    destruct variables as [|v variables]; [congruence|].
    unfold _interpolation_indices. cbv zeta.
    destruct (_coeff_temps self idims) as [ct|e]; cbn [bind]; [|reflexivity].
    rewrite !empty_lists_dict by assumption.
    destruct (index_loops_partial self idims (_positions self idims ++ ct) Hnd)
      as (points & Hloop).
    cbv zeta in Hloop.
    match goal with
    | |- context [index_loops self idims ?st] =>
        match type of Hloop with
        | _ = ?res =>
            replace (index_loops self idims st) with res
              by (symmetry; exact Hloop)
        end
    end.
    cbn [bind].
    destruct (interp_points_nonempty self Hr) as (x & xs & Hpts).
    destruct (product_first (_interp_points self) x xs
                (grid_dim (grid self)) Hpts) as (t & rest & Hprod & Ht).
    unfold _nd_points. rewrite Hprod. cbn [mapM].
    rewrite neighbor_subs_partial; [reflexivity | assumption | exact Ht]. }
  split; [exact Hbuild|]. split.
  - intros offset field_offset. unfold _interpolation_indices. cbv zeta.
    destruct (_coeff_temps self idims) as [ct|e]; cbn [bind]; [|reflexivity].
    rewrite !empty_lists_dict by assumption.
    destruct (index_loops_partial self idims (_positions self idims ++ ct) Hnd)
      as (points & Hloop).
    cbv zeta in Hloop.
    match goal with
    | |- context [index_loops self idims ?st] =>
        match type of Hloop with
        | _ = ?res =>
            replace (index_loops self idims st) with res
              by (symmetry; exact Hloop)
        end
    end.
    cbn [bind].
    rewrite (mapM_ok_map _ (fun _ : list Z => @nil (expr * expr)))
      by (intros p _; reflexivity).
    cbn [bind]. now rewrite <- app_assoc.
  - intros field expr offset ct Hct. unfold inject_callback. cbv zeta.
    rewrite Hbuild by (intros H; apply app_eq_nil in H as [_ H]; discriminate).
    rewrite Hct. reflexivity.
Qed.

Lemma missing_base_position_raises_witness :
  _evaluate (inject Example.origin Example.retrieve_function_carriers
               Example.evaluate
               (LinearInterpolator (Edge.first_axis_only 1))
               Example.u (Num 1) 0 [])
  = Raise IndexError.
Proof.
  destruct (missing_base_position_raises Example.origin
              Example.retrieve_function_carriers Example.evaluate
              (LinearInterpolator (Edge.first_axis_only 1)) ["p_src"%string])
    as (_ & _ & H).
  - repeat constructor; simpl; intuition discriminate.
  - simpl. lia.
  - unfold r. simpl. lia.
  - eapply (H Example.u (Num 1) 0). vm_compute. reflexivity.
Defined.

(** ** Weights under the neighbor substitution *)

Lemma xreplace_access_free (rule : dict expr expr) (e : expr) :
  (forall k v, dict_lookup expr_eq_dec rule k = Some v -> is_access k = true) ->
  access_free e = true -> xreplace rule e = e.
Proof.
  intros Hkeys.
  assert (Hmiss : forall e', is_access e' = false ->
                             dict_lookup expr_eq_dec rule e' = None).
  { intros e' He'. destruct (dict_lookup expr_eq_dec rule e') as [v|] eqn:E;
      [|reflexivity].
    apply Hkeys in E. congruence. }
  induction e; intros Hfree; simpl in Hfree; try discriminate;
    try apply andb_prop in Hfree as [Ha Hb];
    simpl; rewrite Hmiss by reflexivity;
    rewrite ?IHe, ?IHe1, ?IHe2 by assumption; reflexivity.
Qed.

Lemma neighbor_dict_keys (origin : expr -> dict Dimension expr) self
    variables p k v :
  (forall x, In x variables -> is_access x = true) ->
  dict_lookup expr_eq_dec (neighbor_dict origin self variables p) k = Some v ->
  is_access k = true.
Proof.
  intros Hvars H. unfold neighbor_dict in H.
  apply dict_of_lookup_In in H. apply in_map_iff in H as (x & [= <- _] & Hin).
  now apply Hvars.
Qed.

Lemma linear_pick_access_free d p i :
  access_free p = true -> access_free (linear_pick ((d, p), i)) = true.
Proof.
  intros Hp. unfold linear_pick, linear_axis_weights. cbn [fst snd].
  destruct (Z.to_nat i) as [|[|k]]; cbn [nth access_free]; rewrite ?Hp;
    try reflexivity.
  destruct k; reflexivity.
Qed.

Lemma linear_product_access_free (A : list (Dimension * expr)) :
  (forall dp, In dp A -> access_free (snd dp) = true) ->
  forall t acc,
    access_free acc = true ->
    access_free (fold_left Mul (map linear_pick (zip A t)) acc) = true.
Proof.
  induction A as [|[d p] A IH]; intros HA t acc Hacc; [exact Hacc|].
  destruct t as [|i t]; [exact Hacc|].
  unfold zip. cbn [combine map fold_left].
  apply (IH (fun dp Hdp => HA dp (or_intror Hdp))).
  cbn [access_free]. rewrite Hacc.
  exact (linear_pick_access_free d p i (HA (d, p) (or_introl eq_refl))).
Qed.

(** X13.  [subs_coords] applies the neighbor substitution to the combined
    weight as well as to the expression, [subs_coords_eq] to the expression
    only.  For the linear scheme of radius 1 the two agree: when the carriers
    are function accesses and no local-position symbol contains one, the
    substitution leaves every combined weight unchanged, so the summand of an
    interpolation is the right-hand side of the increment of the
    corresponding injection. *)
Theorem linear_weights_untouched_by_substitution
    (origin : expr -> dict Dimension expr) (s : SparseFunction)
    (variables : list expr) :
  let self := LinearInterpolator s in
  NoDup (_gdim self) ->
  List.length (dict_values (_psym self)) = List.length (_gdim self) ->
  r self = 1 ->
  (forall v, In v variables -> is_access v = true) ->
  (forall p, In p (dict_values (_psym self)) -> access_free p = true) ->
  exists ws,
    _interpolation_coeffs self = Ok ws
    /\ forall w t,
        In w ws ->
        xreplace (neighbor_dict origin self variables t) w = w
        /\ forall field _expr idims,
            interpolate_summand origin self variables _expr (w, t)
            = eq_rhs (inject_increment origin self variables field _expr
                        idims (w, t)).
Proof.
  intros self Hnd Hlen Hr Hvars Hp. subst self.
  exists (map (linear_coeff (LinearInterpolator s))
              (_nd_points (LinearInterpolator s))).
  split; [exact (linear_coeffs_ok s Hnd Hlen Hr)|].
  intros w t Hw. apply in_map_iff in Hw as (t0 & <- & _).
  assert (Hfix : xreplace (neighbor_dict origin (LinearInterpolator s)
                             variables t)
                   (linear_coeff (LinearInterpolator s) t0)
                 = linear_coeff (LinearInterpolator s) t0).
  { apply xreplace_access_free.
    - intros k v. now apply neighbor_dict_keys.
    - unfold linear_coeff, prod. apply linear_product_access_free;
        [|reflexivity].
      intros [d p] Hin. apply in_combine_r in Hin. now apply Hp. }
  split; [exact Hfix|].
  intros field _expr idims.
  unfold interpolate_summand, inject_increment. cbn [fst snd eq_rhs].
  now rewrite Hfix.
Qed.

Lemma linear_weights_untouched_by_substitution_witness :
  exists ws,
    _interpolation_coeffs Example.linear = Ok ws
    /\ forall w t,
        In w ws ->
        xreplace (neighbor_dict Example.origin Example.linear [Example.u] t) w
        = w.
Proof.
  destruct (linear_weights_untouched_by_substitution Example.origin
              (Example.src 1 None) [Example.u]) as (ws & Hws & H).
  - repeat constructor; simpl; intuition discriminate.
  - reflexivity.
  - reflexivity.
  - intros v [<-|[]]. reflexivity.
  - intros p [<-|[<-|[]]]; reflexivity.
  - exists ws. split; [exact Hws|]. intros w t Hw. exact (proj1 (H w t Hw)).
Defined.

(** ** Positions of the precomputed scheme *)

(** X14.  The index builder of the precomputed scheme never raises on a
    sparse function with one base position per (distinct) axis.  When the
    sparse function carries its grid points, no position temporary is
    emitted: the temporaries are exactly the index definitions, one plain
    assignment to a symbol per axis and per offset, [dim * r] of them for a
    radius that is not negative.  Without grid points, they are preceded by
    one assignment per entry of the position map, in the order of the map. *)
Theorem precomputed_gridpoints_skip_positions
    (origin : expr -> dict Dimension expr) (s : SparseFunction)
    (variables : list expr) (offset : Z) (field_offset : dict Dimension expr)
    (idims : list Dimension) :
  let self := PrecomputedInterpolator s in
  NoDup (_gdim self) ->
  List.length (Sparse._coordinate_indices s) = List.length (_gdim self) ->
  exists idx_subs temps,
    _interpolation_indices origin self variables offset field_offset idims
    = Ok (idx_subs, temps)
    /\ List.length idx_subs = List.length (_nd_points self)
    /\ (Sparse.gridpoints s <> None ->
        temps = index_equations self idims
        /\ List.length temps
           = (grid_dim (grid self) * Z.to_nat (Sparse.r s))%nat
        /\ Forall (fun e => is_Inc e = false /\ exists n, eq_lhs e = Sym n)
                  temps)
    /\ (Sparse.gridpoints s = None ->
        temps
        = map (fun kv : expr * expr => Eq (snd kv) (fst kv) idims)
              (dict_items (Sparse._position_map s))
            ++ index_equations self idims).
Proof.
  intros self Hnd Hlen. subst self.
  rewrite interpolation_indices_closed by assumption.
  cbn [_coeff_temps bind app].
  do 2 eexists. split; [reflexivity|]. split; [apply length_map|]. split.
  - intros Hgp. unfold _positions.
    destruct (Sparse.gridpoints s) as [g|]; [|congruence]. cbn [app].
    split; [reflexivity|]. split.
    + unfold index_equations.
      rewrite (flat_map_constant_length _ _
                 (List.length (_interp_points (PrecomputedInterpolator s)))).
      * unfold zip, grid_dim. rewrite length_combine.
        fold (_gdim (PrecomputedInterpolator s)).
        rewrite precomputed_interp_points_length. cbn [sfunction] in *.
        f_equal. lia.
      * intros [d pos] _. unfold axis_equations.
        now rewrite length_map, enumerate_length.
    + apply Forall_forall. intros e He. unfold index_equations in He.
      apply in_flat_map in He as ([d pos] & _ & He).
      apply in_map_iff in He as ([ri off] & <- & _). simpl.
      split; [reflexivity | eexists; reflexivity].
  - intros Hgp. unfold _positions. rewrite Hgp. f_equal.
    apply map_ext. now intros [k v].
Qed.

Lemma precomputed_gridpoints_skip_positions_witness :
  exists idx_subs temps,
    _interpolation_indices Example.origin
      (PrecomputedInterpolator (Example.src 4 (Some (Sym "gp"%string))))
      [Example.u] 0 [] []
    = Ok (idx_subs, temps)
    /\ List.length temps = 8%nat.
Proof.
  destruct (precomputed_gridpoints_skip_positions Example.origin
              (Example.src 4 (Some (Sym "gp"%string))) [Example.u] 0 [] [])
    as (idx_subs & temps & H & _ & Hgp & _).
  - repeat constructor; simpl; intuition discriminate.
  - reflexivity.
  - exists idx_subs, temps. split; [exact H|].
    destruct Hgp as (_ & Hl & _); [discriminate|]. exact Hl.
Defined.
